(** * Stack Hero: drop resolution, tower stability and level progression

    A shallow embedding of the game core of the Stack Hero browser game
    (js/games/physics-stack-tower: the level table of levels.js, the
    session logic of game.js and the overlap and stability computations of
    physics.js), with the properties its specification states about it and
    further properties of the code.

    Numbers.  JavaScript numbers are modelled as rationals ([Q]) and, where
    the source only counts (score, level, streak, block counters), as
    integers ([Z]).  What is measured on the canvas (positions, widths,
    overlaps) is computed exactly.  The decimal constants of the level
    table, the parameters scaled from them, the product a perfect drop is
    tested against, and the center offsets and the collapse limit of the
    stability check are computed as the source computes them, in double
    precision: every such operation rounds
    to the nearest number with a 53 bit significand, ties to even
    ([Double.round]); overflow and subnormal numbers are outside the model.
    Comparisons of rationals are stated up to [Qeq] ([==]).

    Randomness and the page.  [Math.random()] and the presence of the DOM
    nodes that the animation helpers and the score popup look up are inputs
    of the embedding (records [Oracle] and [Frame]); sound, particles and
    timers leave the session state untouched and are not represented. *)

From Stdlib Require Import String Ascii QArith Qminmax Qabs Qround Qpower ZArith
  List Bool Lia Lqa.
From Stdlib Require Import Permutation.
Import ListNotations.

Open Scope Q_scope.

(** Strict comparison of rationals as a boolean: [a < b] in the source. *)
Definition Qlt_bool (a b : Q) : bool := negb (Qle_bool b a).

(** ** Numbers in double precision *)

Module Double.

Definition pow2 (k : Z) : Q := 2 ^ k.

(** The binary exponent of a positive number: [pow2 e <= x < pow2 (e + 1)].
    The difference of the bit lengths of numerator and denominator is the
    exponent or one more. *)
Definition exponent (x : Q) : Z :=
  let k := (Z.log2 (Qnum x) - Z.log2 (Zpos (Qden x)))%Z in
  if Qle_bool (pow2 k) x then k else (k - 1)%Z.

(** The nearest integer, the even one of two that are equally near. *)
Definition nearestEven (x : Q) : Z :=
  let f := Qfloor x in
  match Qcompare (x - inject_Z f) (1 # 2) with
  | Lt => f
  | Gt => (f + 1)%Z
  | Eq => if Z.even f then f else (f + 1)%Z
  end.

(** A positive number rounded to 53 significant bits. *)
Definition roundPos (x : Q) : Q :=
  let ulp := pow2 (exponent x - 52) in
  inject_Z (nearestEven (x / ulp)) * ulp.

(** The double nearest to [x]. *)
Definition round (x : Q) : Q :=
  match Qcompare x 0 with
  | Eq => 0
  | Gt => roundPos x
  | Lt => - roundPos (- x)
  end.

(** A decimal literal of the source, and [+], [-], [*] and [/] on
    doubles. *)
Definition literal (x : Q) : Q := round x.

Definition add (a b : Q) : Q := round (a + b).

Definition sub (a b : Q) : Q := round (a - b).

Definition mul (a b : Q) : Q := round (a * b).

Definition div (a b : Q) : Q := round (a / b).

(** Half a unit in the last place, relative to the value: [2 ^ -53]. *)
Definition eps : Q := 1 # 9007199254740992.

End Double.

(** ** levels.js *)

Module Levels.

(** The [type] tag of a level's [specialMechanics] object. *)
Inductive SpecialMechanic : Type :=
  | tutorial
  | size_reduction
  | speed_boost
  | precision_challenge
  | wind_effect
  | gravity_shift
  | ultimate_challenge.

Record WidthRange : Type := mkRange { range_min : Q; range_max : Q }.

(** One entry of [LEVELS].  The display strings and the [rewards] object are
    not read by the game logic and are left out.  [blocksToComplete] is
    [null] and [specialMechanics] is absent in the endless-mode default. *)
Record LevelConfig : Type := mkLevel {
  id : Z;
  blocksToComplete : option Z;
  blockSpeed : Q;
  blockWidthRange : WidthRange;
  perfectThreshold : Q;
  speedIncrease : Q;
  specialMechanics : option SpecialMechanic
}.

Record BaseConfig : Type := mkBase {
  pointsPerBlock : Z;
  comboMultiplier : Q;
  minBlockWidth : Q;
  maxBlockWidth : Q
}.

Definition BASE_CONFIG : BaseConfig := mkBase 10 1.5 40 200.

Definition LEVELS : list LevelConfig :=
  [ mkLevel 1 (Some 3%Z) (Double.literal 0.4) (mkRange 140 180)
            (Double.literal 0.4) (Double.literal 0.01) (Some tutorial);
    mkLevel 2 (Some 3%Z) (Double.literal 0.6) (mkRange 120 160)
            (Double.literal 0.5) (Double.literal 0.02) (Some size_reduction);
    mkLevel 3 (Some 3%Z) (Double.literal 0.8) (mkRange 100 140)
            (Double.literal 0.55) (Double.literal 0.03) (Some speed_boost);
    mkLevel 4 (Some 3%Z) (Double.literal 1.0) (mkRange 80 120)
            (Double.literal 0.65) (Double.literal 0.04) (Some precision_challenge);
    mkLevel 5 (Some 3%Z) (Double.literal 1.0) (mkRange 80 120)
            (Double.literal 0.6) (Double.literal 0.04) (Some wind_effect);
    mkLevel 6 (Some 3%Z) (Double.literal 1.4) (mkRange 60 100)
            (Double.literal 0.65) (Double.literal 0.06) (Some gravity_shift);
    mkLevel 7 (Some 3%Z) (Double.literal 1.6) (mkRange 50 90)
            (Double.literal 0.7) (Double.literal 0.08) (Some ultimate_challenge) ].

(** The object returned when no entry of [LEVELS] has the requested id. *)
Definition endlessLevel (levelNumber : Z) : LevelConfig :=
  mkLevel levelNumber None (Double.literal 1.5) (mkRange 50 90)
          (Double.literal 0.8) (Double.literal 0.08) None.

Definition getLevelConfig (levelNumber : Z) : LevelConfig :=
  match find (fun l => Z.eqb (id l) levelNumber) LEVELS with
  | Some level => level
  | None => endlessLevel levelNumber
  end.

(** The [params] object of [calculateLevelParameters]. *)
Record LevelParams : Type := mkParams {
  params_blockSpeed : Q;
  params_blockWidthRange : WidthRange;
  params_perfectThreshold : Q;
  params_speedIncrease : Q;
  params_pointsPerBlock : Z;
  params_comboMultiplier : Q
}.

(** [applyEndlessScaling(params, levelNumber)], every operation in double
    precision. *)
Definition applyEndlessScaling (params : LevelParams) (levelNumber : Z)
  : LevelParams :=
  let n := inject_Z levelNumber in
  let scaleFactor :=
    Double.add 1 (Double.mul (Double.sub n 10) (Double.literal 0.1)) in
  let widthFactor :=
    Double.sub 1 (Double.mul (Double.sub n 10) (Double.literal 0.02)) in
  {| params_blockSpeed := Double.mul (params_blockSpeed params) scaleFactor;
     params_blockWidthRange :=
       mkRange
         (Qmax 30 (Double.mul (range_min (params_blockWidthRange params))
                              widthFactor))
         (Qmax 60 (Double.mul (range_max (params_blockWidthRange params))
                              widthFactor));
     params_perfectThreshold :=
       Qmin (Double.literal 0.99)
            (Double.add (params_perfectThreshold params)
                        (Double.mul (Double.sub n 10) (Double.literal 0.01)));
     params_speedIncrease := params_speedIncrease params;
     params_pointsPerBlock :=
       Qfloor (Double.mul (inject_Z (params_pointsPerBlock params))
                          scaleFactor);
     params_comboMultiplier := params_comboMultiplier params |}.

(** [calculateLevelParameters].  The source also tests [level.specialRules];
    no level object (table entry or endless default) has that property, so
    [applySpecialRules] is never entered and is not represented. *)
Definition calculateLevelParameters (levelNumber : Z) : LevelParams :=
  let level := getLevelConfig levelNumber in
  let params :=
    {| params_blockSpeed := blockSpeed level;
       params_blockWidthRange := blockWidthRange level;
       params_perfectThreshold := perfectThreshold level;
       params_speedIncrease := speedIncrease level;
       params_pointsPerBlock := pointsPerBlock BASE_CONFIG;
       params_comboMultiplier := comboMultiplier BASE_CONFIG |} in
  if (7 <? levelNumber)%Z then applyEndlessScaling params levelNumber
  else params.

(** [isLevelUnlocked(levelNumber, currentProgress)].  [getLevelConfig] always
    returns an object, so the test on a missing previous level never
    succeeds and only the progress comparison is left after level 1. *)
Definition isLevelUnlocked (levelNumber currentProgress : Z) : bool :=
  if (levelNumber =? 1)%Z then true
  else
    let previousLevel := getLevelConfig (levelNumber - 1) in
    ((levelNumber - 1) * 5 <=? currentProgress)%Z.

(** [getAvailableLevels(currentProgress)]. *)
Definition getAvailableLevels (currentProgress : Z) : list Z :=
  map id (filter (fun level => isLevelUnlocked (id level) currentProgress)
                 LEVELS).

(** [calculateExperience(levelNumber, score, perfectDrops)], on integers. *)
Definition calculateExperience (levelNumber score perfectDrops : Z) : Z :=
  let baseXP := (levelNumber * 10)%Z in
  let scoreXP := (score / 100)%Z in
  let perfectXP := (perfectDrops * 5)%Z in
  (baseXP + scoreXP + perfectXP)%Z.

(** One entry of the [challenges] array of [generateDailyChallenge]; a
    property an entry does not have is [None]. *)
Record ChallengeTemplate : Type := mkTemplate {
  template_name : string;
  template_blocks : Z;
  template_timeLimit : option Z;
  template_speedMultiplier : option Q;
  template_perfectThreshold : option Q;
  template_blockWidth : option Z;
  template_allowMiss : option bool
}.

Definition challenges : list ChallengeTemplate :=
  [ mkTemplate "Speed Builder" 25 (Some 180%Z) (Some 1.3) None None None;
    mkTemplate "Precision Master" 20 None None (Some 0.9) None (Some false);
    mkTemplate "Tiny Tower" 30 None (Some 1.1) None (Some 45%Z) None;
    mkTemplate "Lightning Round" 15 (Some 60%Z) (Some 2.0) None None None ].

(** The object [generateDailyChallenge] returns. *)
Record DailyChallenge : Type := mkDaily {
  daily_date : string;
  daily_template : ChallengeTemplate;
  daily_bonusPoints : Z;
  daily_achievement : string
}.

(** The seed: the sum of the character codes of the date string. *)
Definition dateSeed (today : string) : Z :=
  fold_left (fun a b => (a + Z.of_nat (nat_of_ascii b))%Z)
            (list_ascii_of_string today) 0%Z.

(** The index into [challenges] computed from the seed. *)
Definition dailyIndex (today : string) : Z :=
  let seed := dateSeed today in
  let random :=
    inject_Z (Z.rem (seed * 9301 + 49297) 233280) / 233280 in
  Qfloor (random * inject_Z (Z.of_nat (length challenges))).

(** [generateDailyChallenge], with the date string [new Date().toDateString()]
    as input.  [None] stands for the TypeError of reading [blocks] off an
    undefined array element. *)
Definition generateDailyChallenge (today : string) : option DailyChallenge :=
  match (if (dailyIndex today <? 0)%Z then None
         else nth_error challenges (Z.to_nat (dailyIndex today))) with
  | Some selectedChallenge =>
      Some (mkDaily today selectedChallenge
                    (template_blocks selectedChallenge * 20)
                    ("Daily: " ++ template_name selectedChallenge))
  | None => None
  end.

End Levels.

(** ** game.js *)

Module Game.

(** [gameState.config]. *)
Record Config : Type := mkConfig {
  canvasWidth : Q;
  canvasHeight : Q;
  blockHeight : Q;
  minBlockWidth : Q;
  maxBlockWidth : Q;
  initialBlockWidth : Q;
  baseBlockSpeed : Q;
  speedIncrease : Q
}.

Definition defaultConfig : Config :=
  mkConfig 800 800 30 40 200 150 0.8 0.05.

(** An instance of [class Block].  [verticalSpeed] is absent until the code
    assigns it and is read as [this.verticalSpeed || 0], so absence is [0].
    [collapsing], [perfectDrop] and [missing] are the animation flags the
    session logic sets; the color and the per-mechanic marker properties are
    presentation only and left out. *)
Record Block : Type := mkBlock {
  id : Z;
  width : Q;
  position_x : Q;
  position_y : Q;
  speed : Q;
  isMoving : bool;
  isPlaced : bool;
  originalWidth : Q;
  verticalSpeed : Q;
  collapsing : bool;
  perfectDrop : bool;
  missing : bool
}.

(** [new Block(id, width, x, y, speed, isMoving)]. *)
Definition newBlock (i : Z) (w x y s : Q) (moving : bool) : Block :=
  mkBlock i w x y s moving false w 0 false false false.

Definition set_width (w : Q) (b : Block) : Block :=
  mkBlock (id b) w (position_x b) (position_y b) (speed b) (isMoving b)
          (isPlaced b) (originalWidth b) (verticalSpeed b) (collapsing b)
          (perfectDrop b) (missing b).


Definition set_position_y (y : Q) (b : Block) : Block :=
  mkBlock (id b) (width b) (position_x b) y (speed b) (isMoving b)
          (isPlaced b) (originalWidth b) (verticalSpeed b) (collapsing b)
          (perfectDrop b) (missing b).

Definition set_verticalSpeed (v : Q) (b : Block) : Block :=
  mkBlock (id b) (width b) (position_x b) (position_y b) (speed b) (isMoving b)
          (isPlaced b) (originalWidth b) v (collapsing b)
          (perfectDrop b) (missing b).

Definition set_collapsing (f : bool) (b : Block) : Block :=
  mkBlock (id b) (width b) (position_x b) (position_y b) (speed b) (isMoving b)
          (isPlaced b) (originalWidth b) (verticalSpeed b) f
          (perfectDrop b) (missing b).

Definition set_perfectDrop (f : bool) (b : Block) : Block :=
  mkBlock (id b) (width b) (position_x b) (position_y b) (speed b) (isMoving b)
          (isPlaced b) (originalWidth b) (verticalSpeed b) (collapsing b)
          f (missing b).

Definition set_missing (f : bool) (b : Block) : Block :=
  mkBlock (id b) (width b) (position_x b) (position_y b) (speed b) (isMoving b)
          (isPlaced b) (originalWidth b) (verticalSpeed b) (collapsing b)
          (perfectDrop b) f.

(** [Block.place]. *)
Definition place (b : Block) : Block :=
  mkBlock (id b) (width b) (position_x b) (position_y b) 0 false
          true (originalWidth b) (verticalSpeed b) (collapsing b)
          (perfectDrop b) (missing b).

(** The forgiving minimum width, [Math.max(minBlockWidth * 0.7, 20)], as
    computed in [Block.shrink] and again in [dropBlock]. *)
Definition relaxedMinWidth (cfg : Config) : Q :=
  Qmax (minBlockWidth cfg * 0.7) 20.

(** [Block.shrink(newWidth)]. *)
Definition shrink (cfg : Config) (newWidth : Q) (b : Block) : Block :=
  let minWidth := relaxedMinWidth cfg in
  set_width (Qmax newWidth minWidth) b.

(** [calculateOverlap(block1, block2)]. *)
Definition calculateOverlap (block1 block2 : Block) : Q :=
  let block1Left := position_x block1 in
  let block1Right := position_x block1 + width block1 in
  let block2Left := position_x block2 in
  let block2Right := position_x block2 + width block2 in
  Qmax 0 (Qmin block1Right block2Right - Qmax block1Left block2Left).

(** The global [gameState] object.  [currentLevelConfig] and
    [currentLevelParams] do not exist on the object literal and are first
    assigned by [initGame]; [gravityShiftVerticalSpeed] is absent until a
    gravity level generates a block and is only tested for truthiness, so
    absence is [0]. *)
Record GameState : Type := mkState {
  tower : list Block;
  currentBlock : option Block;
  score : Z;
  level : Z;
  isActive : bool;
  isPaused : bool;
  blocksPlaced : Z;
  blocksInCurrentLevel : Z;
  speedMultiplier : Q;
  perfectThreshold : Q;
  comboStreak : Z;
  config : Config;
  currentLevelConfig : option Levels.LevelConfig;
  currentLevelParams : option Levels.LevelParams;
  gravityShiftVerticalSpeed : Q
}.

(** The object literal [gameState] of game.js. *)
Definition gameState : GameState :=
  mkState [] None 0 1 false false 0 0 1 (Double.literal 0.8) 0 defaultConfig
          None None 0.

Definition set_tower (t : list Block) (g : GameState) : GameState :=
  mkState t (currentBlock g) (score g) (level g) (isActive g) (isPaused g)
          (blocksPlaced g) (blocksInCurrentLevel g) (speedMultiplier g)
          (perfectThreshold g) (comboStreak g) (config g)
          (currentLevelConfig g) (currentLevelParams g)
          (gravityShiftVerticalSpeed g).

Definition set_currentBlock (b : option Block) (g : GameState) : GameState :=
  mkState (tower g) b (score g) (level g) (isActive g) (isPaused g)
          (blocksPlaced g) (blocksInCurrentLevel g) (speedMultiplier g)
          (perfectThreshold g) (comboStreak g) (config g)
          (currentLevelConfig g) (currentLevelParams g)
          (gravityShiftVerticalSpeed g).

Definition set_score (s : Z) (g : GameState) : GameState :=
  mkState (tower g) (currentBlock g) s (level g) (isActive g) (isPaused g)
          (blocksPlaced g) (blocksInCurrentLevel g) (speedMultiplier g)
          (perfectThreshold g) (comboStreak g) (config g)
          (currentLevelConfig g) (currentLevelParams g)
          (gravityShiftVerticalSpeed g).

Definition set_level (l : Z) (g : GameState) : GameState :=
  mkState (tower g) (currentBlock g) (score g) l (isActive g) (isPaused g)
          (blocksPlaced g) (blocksInCurrentLevel g) (speedMultiplier g)
          (perfectThreshold g) (comboStreak g) (config g)
          (currentLevelConfig g) (currentLevelParams g)
          (gravityShiftVerticalSpeed g).

Definition set_isActive (a : bool) (g : GameState) : GameState :=
  mkState (tower g) (currentBlock g) (score g) (level g) a (isPaused g)
          (blocksPlaced g) (blocksInCurrentLevel g) (speedMultiplier g)
          (perfectThreshold g) (comboStreak g) (config g)
          (currentLevelConfig g) (currentLevelParams g)
          (gravityShiftVerticalSpeed g).

Definition set_isPaused (p : bool) (g : GameState) : GameState :=
  mkState (tower g) (currentBlock g) (score g) (level g) (isActive g) p
          (blocksPlaced g) (blocksInCurrentLevel g) (speedMultiplier g)
          (perfectThreshold g) (comboStreak g) (config g)
          (currentLevelConfig g) (currentLevelParams g)
          (gravityShiftVerticalSpeed g).

Definition set_blocksPlaced (n : Z) (g : GameState) : GameState :=
  mkState (tower g) (currentBlock g) (score g) (level g) (isActive g)
          (isPaused g) n (blocksInCurrentLevel g) (speedMultiplier g)
          (perfectThreshold g) (comboStreak g) (config g)
          (currentLevelConfig g) (currentLevelParams g)
          (gravityShiftVerticalSpeed g).

Definition set_blocksInCurrentLevel (n : Z) (g : GameState) : GameState :=
  mkState (tower g) (currentBlock g) (score g) (level g) (isActive g)
          (isPaused g) (blocksPlaced g) n (speedMultiplier g)
          (perfectThreshold g) (comboStreak g) (config g)
          (currentLevelConfig g) (currentLevelParams g)
          (gravityShiftVerticalSpeed g).

Definition set_perfectThreshold (t : Q) (g : GameState) : GameState :=
  mkState (tower g) (currentBlock g) (score g) (level g) (isActive g)
          (isPaused g) (blocksPlaced g) (blocksInCurrentLevel g)
          (speedMultiplier g) t (comboStreak g) (config g)
          (currentLevelConfig g) (currentLevelParams g)
          (gravityShiftVerticalSpeed g).

Definition set_comboStreak (c : Z) (g : GameState) : GameState :=
  mkState (tower g) (currentBlock g) (score g) (level g) (isActive g)
          (isPaused g) (blocksPlaced g) (blocksInCurrentLevel g)
          (speedMultiplier g) (perfectThreshold g) c (config g)
          (currentLevelConfig g) (currentLevelParams g)
          (gravityShiftVerticalSpeed g).

Definition set_levelSettings (lc : Levels.LevelConfig) (lp : Levels.LevelParams)
  (g : GameState) : GameState :=
  mkState (tower g) (currentBlock g) (score g) (level g) (isActive g)
          (isPaused g) (blocksPlaced g) (blocksInCurrentLevel g)
          (speedMultiplier g) (Levels.params_perfectThreshold lp)
          (comboStreak g) (config g) (Some lc) (Some lp)
          (gravityShiftVerticalSpeed g).

Definition set_gravityShiftVerticalSpeed (v : Q) (g : GameState) : GameState :=
  mkState (tower g) (currentBlock g) (score g) (level g) (isActive g)
          (isPaused g) (blocksPlaced g) (blocksInCurrentLevel g)
          (speedMultiplier g) (perfectThreshold g) (comboStreak g) (config g)
          (currentLevelConfig g) (currentLevelParams g) v.

(** What the environment supplies to one call: [random1] .. [random4] are the
    successive results of [Math.random()] inside [generateNewBlock] (the
    draw that picks a color is not counted); [canvasPresent] and
    [wrapperPresent] tell whether [document.getElementById('gameCanvas')]
    and [document.querySelector('.game-canvas-wrapper')] find their
    element. *)
Record Oracle : Type := mkOracle {
  random1 : Q;
  random2 : Q;
  random3 : Q;
  random4 : Q;
  canvasPresent : bool;
  wrapperPresent : bool
}.

(** The guard of [addFailureAnimations]: it returns at once unless both
    elements exist. *)
Definition domReady (o : Oracle) : bool :=
  canvasPresent o && wrapperPresent o.

(** [gameState.currentLevelConfig?.specialMechanics], reduced to its [type]. *)
Definition currentMechanic (g : GameState) : option Levels.SpecialMechanic :=
  match currentLevelConfig g with
  | Some lc => Levels.specialMechanics lc
  | None => None
  end.

(** Truthiness of a number. *)
Definition truthy (v : Q) : bool := negb (Qeq_bool v 0).

Definition isGravityMechanic (m : option Levels.SpecialMechanic) : bool :=
  match m with
  | Some Levels.gravity_shift | Some Levels.ultimate_challenge => true
  | _ => false
  end.

(** [generateNewBlock].  [None] stands for the TypeError raised when
    [gameState.currentLevelParams] is still undefined. *)
Definition generateNewBlock (o : Oracle) (g : GameState) : option GameState :=
  match currentLevelParams g with
  | None => None
  | Some levelParams =>
    let cfg := config g in
    let blockId := (blocksPlaced g + 1)%Z in
    let range := Levels.params_blockWidthRange levelParams in
    let blockWidth :=
      Qmax (minBlockWidth cfg)
           (Levels.range_min range
            + random1 o * (Levels.range_max range - Levels.range_min range)) in
    let blockSpeed := Levels.params_blockSpeed levelParams in
    let specialMechanics := currentMechanic g in
    let k := blocksInCurrentLevel g in
    let n := inject_Z k in
    let '(blockWidth, blockSpeed, gravityV) :=
      match specialMechanics with
      | Some Levels.size_reduction =>
          let sizeReduction := 1 - n * 0.05 in
          (blockWidth * Qmax 0.7 sizeReduction, blockSpeed,
           gravityShiftVerticalSpeed g)
      | Some Levels.speed_boost =>
          (blockWidth,
           if (0 <? k)%Z then blockSpeed * (1 + n * 0.1) else blockSpeed,
           gravityShiftVerticalSpeed g)
      | Some Levels.wind_effect =>
          (blockWidth, blockSpeed + (random2 o - 0.5) * 0.4,
           gravityShiftVerticalSpeed g)
      | Some Levels.gravity_shift =>
          (blockWidth, blockSpeed + (random2 o - 0.5) * 0.3,
           (random3 o - 0.5) * 0.2)
      | Some Levels.ultimate_challenge =>
          let ultimateSizeReduction := 1 - n * 0.03 in
          let boosted :=
            if (0 <? k)%Z then blockSpeed * (1 + n * 0.05) else blockSpeed in
          (blockWidth * Qmax 0.8 ultimateSizeReduction,
           boosted + (random2 o - 0.5) * 0.2 + (random3 o - 0.5) * 0.2,
           (random4 o - 0.5) * 0.15)
      | _ => (blockWidth, blockSpeed, gravityShiftVerticalSpeed g)
      end in
    let fresh :=
      newBlock blockId blockWidth 0
        (canvasHeight cfg
         - inject_Z (Z.of_nat (length (tower g)) + 2) * blockHeight cfg)
        blockSpeed true in
    let fresh :=
      if isGravityMechanic specialMechanics && truthy gravityV
      then set_verticalSpeed gravityV fresh else fresh in
    Some (set_currentBlock (Some fresh)
            (set_gravityShiftVerticalSpeed gravityV g))
  end.

(** [initGame(level)], run on the session object [g].  The settings for the
    level are always assigned before [generateNewBlock] reads them, so the
    call never raises. *)
Definition initGame (lvl : Z) (o : Oracle) (g : GameState) : GameState :=
  let cfg := config g in
  let levelConfig := Levels.getLevelConfig lvl in
  let levelParams := Levels.calculateLevelParameters lvl in
  let baseBlock :=
    place (newBlock 0 (initialBlockWidth cfg)
             ((canvasWidth cfg - initialBlockWidth cfg) / 2)
             (canvasHeight cfg - blockHeight cfg) 0 false) in
  let g1 :=
    mkState [baseBlock] (currentBlock g) 0 lvl true false 0 0
            (speedMultiplier g) (Levels.params_perfectThreshold levelParams) 0
            cfg (Some levelConfig) (Some levelParams)
            (gravityShiftVerticalSpeed g) in
  match generateNewBlock o g1 with
  | Some g2 => g2
  | None => g1
  end.

(** What [dropBlock] hands back.  [GameCompleted] is the bare [return] after
    [showGameCompleted]; [TypeError] is a property access on [undefined] or
    [null] (an empty tower, level settings that were never assigned, or the
    canvas that [showScorePopup] does not find). *)
Inductive DropResult : Type :=
  | NoBlockToDrop
  | BlockMissed
  | BlockTooSmall
  | GameCompleted
  | Dropped (perfectAlignment : bool) (overlap : Q) (points : Z)
  | TypeError.

(** The [message] property of a failure result. *)
Definition message (r : DropResult) : option string :=
  match r with
  | NoBlockToDrop => Some "No block to drop"%string
  | BlockMissed => Some "Block missed the tower!"%string
  | BlockTooSmall => Some "Block too small to continue!"%string
  | _ => None
  end.

Definition gameOver (r : DropResult) : bool :=
  match r with
  | BlockMissed | BlockTooSmall => true
  | _ => false
  end.

(** [gameState.tower[gameState.tower.length - 1]]. *)
Definition lastTowerBlock (g : GameState) : option Block :=
  last (map Some (tower g)) None.

(** The block the threshold is taken from: the narrower of the two, the
    tower block on a tie. *)
Definition thresholdBlock (current lastBlock : Block) : Block :=
  if Qlt_bool (width current) (width lastBlock) then current else lastBlock.

(** [overlap >= thresholdBlock.width * gameState.perfectThreshold], the
    product in double precision. *)
Definition perfectAlignment (g : GameState) (current lastBlock : Block)
  (overlap : Q) : bool :=
  Qle_bool (Double.mul (width (thresholdBlock current lastBlock))
                       (perfectThreshold g))
           overlap.

Definition comboMultiplier (g : GameState) : Z :=
  match currentMechanic g with
  | Some Levels.precision_challenge => 2%Z
  | _ => 1%Z
  end.

(** [showScorePopup(points, isPerfect)]: whether it returns.  It reads
    [getBoundingClientRect] off the canvas without testing that the canvas
    was found, and raises a TypeError when it was not. *)
Definition showScorePopup (o : Oracle) : bool := canvasPresent o.

(** Whether the popup a perfect drop shows under precision_challenge
    raises. *)
Definition precisionPopupThrows (o : Oracle) (g : GameState) : bool :=
  match currentMechanic g with
  | Some Levels.precision_challenge => negb (showScorePopup o)
  | _ => false
  end.

(** [addFailureAnimations(block, 'miss')] as far as the block is concerned. *)
Definition addFailureAnimations_miss (o : Oracle) (b : Block) : Block :=
  if domReady o then set_missing true b else b.

(** [showGameCompleted], session part.  Its last statement calls a function
    that these sources do not define; the state changes precede it. *)
Definition showGameCompleted (g : GameState) : GameState :=
  set_isActive false (set_isPaused true g).

(** [showLevelComplete], session part: the game is paused while the popup is
    shown (a timer lifts the pause later). *)
Definition showLevelComplete (g : GameState) : GameState :=
  set_isPaused true g.

(** The tail of [dropBlock] from "Add block to tower" on: [current] is the
    placed block, [perfect] and [overlap] are what the first half found. *)
Definition addToTower (o : Oracle) (perfect : bool) (overlap : Q)
  (current : Block) (g : GameState) : GameState * DropResult :=
  let g := set_tower (tower g ++ [current]) g in
  let g := set_blocksPlaced (blocksPlaced g + 1) g in
  let g := set_blocksInCurrentLevel (blocksInCurrentLevel g + 1) g in
  let basePoints := (10 + level g * 5)%Z in
  let g := set_score (score g + basePoints) g in
  match currentLevelConfig g with
  | None => (g, TypeError)
  | Some levelConfig =>
    let quotaReached :=
      match Levels.blocksToComplete levelConfig with
      | Some q => negb (q =? 0)%Z && (q <=? blocksInCurrentLevel g)%Z
      | None => false
      end in
    let finish (g : GameState) :=
      match generateNewBlock o g with
      | None => (g, TypeError)
      | Some g' =>
          (g', Dropped perfect overlap
                 (basePoints + (if perfect then 100 * comboStreak g' else 0))%Z)
      end in
    if quotaReached then
      if (level g =? 7)%Z then (showGameCompleted g, GameCompleted)
      else
        let g := set_level (level g + 1) g in
        let g := set_blocksInCurrentLevel 0 g in
        let newLevelConfig := Levels.getLevelConfig (level g) in
        let newLevelParams := Levels.calculateLevelParameters (level g) in
        let g := set_levelSettings newLevelConfig newLevelParams g in
        finish (showLevelComplete g)
    else finish g
  end.

(** The width test of [dropBlock] that follows [shrink], and what it leads
    to: [current] is the active block as [shrink] left it. *)
Definition checkWidthThenAdd (o : Oracle) (overlap : Q) (current : Block)
  (g : GameState) : GameState * DropResult :=
  let minWidth := relaxedMinWidth (config g) in
  if Qlt_bool (width current) minWidth then
    (set_isActive false g, BlockTooSmall)
  else addToTower o false overlap current g.

(** [dropBlock].  The block object is shared between [gameState.currentBlock]
    and, once pushed, the tower; every change made to it is therefore
    written back to [currentBlock] until a new block replaces it.  Under
    precision_challenge a perfect drop shows a popup right after the streak
    was raised; when that raises, nothing of what follows is done. *)
Definition dropBlock (o : Oracle) (g : GameState) : GameState * DropResult :=
  match currentBlock g with
  | None => (g, NoBlockToDrop)
  | Some current =>
    if negb (isMoving current) then (g, NoBlockToDrop)
    else
      match lastTowerBlock g with
      | None => (g, TypeError)
      | Some lastBlock =>
        let overlap := calculateOverlap current lastBlock in
        if Qle_bool overlap 0 then
          let g := set_isActive false g in
          (set_currentBlock (Some (addFailureAnimations_miss o current)) g,
           BlockMissed)
        else
          let current := place current in
          let current :=
            set_position_y (position_y lastBlock - blockHeight (config g))
                           current in
          let current := set_verticalSpeed 0 current in
          let perfect := perfectAlignment g current lastBlock overlap in
          if perfect then
            let g := set_comboStreak (comboStreak g + 1) g in
            if precisionPopupThrows o g then
              (set_currentBlock (Some current) g, TypeError)
            else
              let bonusPoints := (100 * comboStreak g * comboMultiplier g)%Z in
              let g := set_score (score g + bonusPoints) g in
              let current := set_perfectDrop true current in
              addToTower o perfect overlap current
                         (set_currentBlock (Some current) g)
          else
            let current := shrink (config g) overlap current in
            let g := set_comboStreak 0 g in
            let g := set_currentBlock (Some current) g in
            checkWidthThenAdd o overlap current g
      end
  end.

(** The loop of [checkTowerStability], in double precision: [previous] is
    [tower[i-1]], the list holds [tower[i]] onwards, [totalOffset] is the
    running sum. *)
Fixpoint offsetLoop (totalOffset : Q) (previous : Block) (rest : list Block)
  : Q :=
  match rest with
  | [] => totalOffset
  | current :: rest' =>
      let currentCenter :=
        Double.add (position_x current) (Double.div (width current) 2) in
      let previousCenter :=
        Double.add (position_x previous) (Double.div (width previous) 2) in
      let offset := Qabs (Double.sub currentCenter previousCenter) in
      offsetLoop (Double.add totalOffset offset) current rest'
  end.

Definition totalOffset (t : list Block) : Q :=
  match t with
  | [] => 0
  | b :: rest => offsetLoop 0 b rest
  end.

(** [maxOffset] of [checkTowerStability], in double precision. *)
Definition maxOffset (g : GameState) : Q :=
  let baseMaxOffset :=
    Double.mul (canvasWidth (config g)) (Double.literal 0.6) in
  let levelMultiplier :=
    Qmax (Double.literal 0.8)
         (Double.sub 1 (Double.mul (Double.sub (inject_Z (level g)) 1)
                                   (Double.literal 0.02))) in
  Double.mul baseMaxOffset levelMultiplier.

(** [triggerTowerCollapse], session part.  While frames run the active
    block is a moving block that is not in the tower, so flagging the tower
    blocks leaves it alone. *)
Definition triggerTowerCollapse (g : GameState) : GameState :=
  set_tower (map (set_collapsing true) (tower g)) g.

(** [checkTowerStability]. *)
Definition checkTowerStability (g : GameState) : GameState :=
  if (length (tower g) <? 3)%nat then g
  else if Qlt_bool (maxOffset g) (totalOffset (tower g)) then
    triggerTowerCollapse (set_isActive false g)
  else g.

(** What the environment supplies to one frame: the elapsed time handed to
    [updateGame], the value of [Math.sin(Date.now() * 0.005) * 0.5] and the
    result of [Math.random()] that [Block.update] may read. *)
Record Frame : Type := mkFrame {
  deltaTime : Q;
  windEffect : Q;
  gravityDraw : Q
}.

(** [Block.update(deltaTime)], which reads the global session [g]. *)
Definition update (f : Frame) (g : GameState) (b : Block) : Block :=
  if isMoving b then
    let cfg := config g in
    let currentSpeed := speed b in
    let vSpeed := verticalSpeed b in
    let specialMechanics := currentMechanic g in
    let currentSpeed :=
      match specialMechanics with
      | Some Levels.wind_effect => currentSpeed + windEffect f
      | _ => currentSpeed
      end in
    let vSpeed :=
      match specialMechanics with
      | Some Levels.gravity_shift => vSpeed + (gravityDraw f - 0.5) * 0.1
      | _ => vSpeed
      end in
    let x := position_x b + currentSpeed * deltaTime f in
    let y := position_y b + vSpeed * deltaTime f in
    let bounce :=
      Qle_bool x 0 || Qle_bool (canvasWidth cfg) (x + width b) in
    let newSpeed := if bounce then - speed b else speed b in
    let x := if bounce then Qmax 0 (Qmin x (canvasWidth cfg - width b)) else x in
    let baseY :=
      canvasHeight cfg
      - inject_Z (Z.of_nat (length (tower g)) + 2) * blockHeight cfg in
    let maxDeviation := blockHeight cfg in
    let minY := baseY - maxDeviation in
    let maxY := baseY + maxDeviation in
    let '(y, vSpeed) :=
      if Qlt_bool y minY then (minY, 0)
      else if Qlt_bool maxY y then (maxY, 0)
      else (y, vSpeed) in
    mkBlock (id b) (width b) x y newSpeed (isMoving b) (isPlaced b)
            (originalWidth b) vSpeed (collapsing b) (perfectDrop b)
            (missing b)
  else b.

(** [updateGame(deltaTime)]. *)
Definition updateGame (f : Frame) (g : GameState) : GameState :=
  if negb (isActive g) || isPaused g then g
  else
    let g :=
      match currentBlock g with
      | Some b =>
          if isMoving b then set_currentBlock (Some (update f g b)) g else g
      | None => g
      end in
    checkTowerStability g.

(** [pauseGame], [resumeGame] and the timer callback with which
    [showLevelComplete] lifts its pause, session part. *)
Definition pauseGame (g : GameState) : GameState := set_isPaused true g.

Definition resumeGame (g : GameState) : GameState := set_isPaused false g.

Definition levelCompleteTimeout (g : GameState) : GameState :=
  set_isPaused false g.

(** [resetGame]. *)
Definition resetGame (o : Oracle) (g : GameState) : GameState :=
  set_isPaused false (set_isActive true (initGame 1 o g)).

(** A run of frames, oldest first. *)
Definition frames (fs : list Frame) (g : GameState) : GameState :=
  fold_left (fun g f => updateGame f g) fs g.

(** The plain objects of a saved session, as [getState] writes them and
    [setState] reads them (colors left out). *)
Record SavedTowerBlock : Type := mkSavedTowerBlock {
  saved_id : Z;
  saved_width : Q;
  saved_x : Q;
  saved_y : Q;
  saved_isPlaced : bool
}.

Record SavedActiveBlock : Type := mkSavedActiveBlock {
  active_id : Z;
  active_width : Q;
  active_x : Q;
  active_y : Q;
  active_speed : Q;
  active_isMoving : bool
}.

Record SavedState : Type := mkSavedState {
  saved_level : Z;
  saved_score : Z;
  saved_blocksPlaced : Z;
  saved_blocksInCurrentLevel : Z;
  saved_comboStreak : Z;
  saved_speedMultiplier : Q;
  saved_isActive : bool;
  saved_isPaused : bool;
  saved_tower : list SavedTowerBlock;
  saved_currentBlock : option SavedActiveBlock
}.

(** [PhysicsStackTowerGame.setState(state)].  [v || d] on a number replaces
    0 by [d]; the level settings and the perfect threshold are not part of
    a saved session and stay as they are. *)
Definition setState (state : SavedState) (g : GameState) : GameState :=
  let restoredTower :=
    map (fun blockData =>
           let block :=
             newBlock (saved_id blockData) (saved_width blockData)
                      (saved_x blockData) (saved_y blockData) 0 false in
           mkBlock (id block) (width block) (position_x block)
                   (position_y block) (speed block) (isMoving block)
                   (saved_isPlaced blockData) (originalWidth block)
                   (verticalSpeed block) (collapsing block)
                   (perfectDrop block) (missing block))
        (saved_tower state) in
  let restoredBlock :=
    match saved_currentBlock state with
    | Some a =>
        Some (newBlock (active_id a) (active_width a) (active_x a)
                       (active_y a) (active_speed a) (active_isMoving a))
    | None => currentBlock g
    end in
  mkState restoredTower restoredBlock (saved_score state)
          (if (saved_level state =? 0)%Z then 1%Z else saved_level state)
          (saved_isActive state) (saved_isPaused state)
          (saved_blocksPlaced state) (saved_blocksInCurrentLevel state)
          (if Qeq_bool (saved_speedMultiplier state) 0 then 1
           else saved_speedMultiplier state)
          (perfectThreshold g) (saved_comboStreak state) (config g)
          (currentLevelConfig g) (currentLevelParams g)
          (gravityShiftVerticalSpeed g).

(** [PhysicsStackTowerGame.getState()], colors left out. *)
Definition getState (g : GameState) : SavedState :=
  mkSavedState (level g) (score g) (blocksPlaced g) (blocksInCurrentLevel g)
    (comboStreak g) (speedMultiplier g) (isActive g) (isPaused g)
    (map (fun block =>
            mkSavedTowerBlock (id block) (width block) (position_x block)
                              (position_y block) (isPlaced block))
         (tower g))
    (match currentBlock g with
     | Some b =>
         Some (mkSavedActiveBlock (id b) (width b) (position_x b)
                                  (position_y b) (speed b) (isMoving b))
     | None => None
     end).

(** [PhysicsStackTowerGame.start()]. *)
Definition start (o : Oracle) (g : GameState) : GameState :=
  if isPaused g then resumeGame g else initGame (level g) o g.

(** What a click or a press of the space bar leads to besides the change of
    the session: nothing at all, a score popup, the game-over screen being
    scheduled, or an exception leaving the handler (after the last level
    [showGameCompleted] ends by calling a function these sources do not
    define; were it defined, the result of [dropBlock] would be [undefined]
    and reading [success] off it would raise as well; and the score popup
    raises when it does not find the canvas). *)
Inductive InputOutcome : Type :=
  | InputIgnored
  | ScorePopup (points : Z)
  | GameOverScheduled
  | NothingShown
  | HandlerThrew.

(** [handleCanvasClick(event)]; [handleCanvasTouch] only forwards to it. *)
Definition handleCanvasClick (o : Oracle) (g : GameState)
  : GameState * InputOutcome :=
  if negb (isActive g) || isPaused g then (g, InputIgnored)
  else
    let result := dropBlock o g in
    match snd result with
    | Dropped _ _ points =>
        if showScorePopup o then (fst result, ScorePopup points)
        else (fst result, HandlerThrew)
    | BlockMissed | BlockTooSmall => (fst result, GameOverScheduled)
    | NoBlockToDrop => (fst result, NothingShown)
    | GameCompleted | TypeError => (fst result, HandlerThrew)
    end.

(** The [code] of a keyboard event, as far as [handleKeyDown] tells codes
    apart. *)
Inductive KeyCode : Type := Space | KeyP | KeyR | Escape | OtherKey.

(** [handleKeyDown(event)]. *)
Definition handleKeyDown (k : KeyCode) (o : Oracle) (g : GameState)
  : GameState * InputOutcome :=
  match k with
  | Space =>
      if isActive g && negb (isPaused g) then
        let result := dropBlock o g in
        match snd result with
        | Dropped _ _ points =>
            if showScorePopup o then (fst result, ScorePopup points)
            else (fst result, HandlerThrew)
        | BlockMissed | BlockTooSmall => (fst result, GameOverScheduled)
        | NoBlockToDrop => (fst result, NothingShown)
        | GameCompleted | TypeError => (fst result, HandlerThrew)
        end
      else (g, InputIgnored)
  | KeyP => if isActive g then (pauseGame g, NothingShown) else (g, InputIgnored)
  | KeyR => (resetGame o g, NothingShown)
  | Escape =>
      if isPaused g then (start o g, NothingShown)
      else if isActive g then (pauseGame g, NothingShown)
      else (g, InputIgnored)
  | OtherKey => (g, InputIgnored)
  end.

(** What reaches the session between two resets: frames of the game loop,
    clicks and key presses. *)
Inductive Input : Type :=
  | Tick (f : Frame)
  | Click (o : Oracle)
  | Key (k : KeyCode) (o : Oracle).

Definition step (i : Input) (g : GameState) : GameState :=
  match i with
  | Tick f => updateGame f g
  | Click o => fst (handleCanvasClick o g)
  | Key k o => fst (handleKeyDown k o g)
  end.

Definition run (inputs : list Input) (g : GameState) : GameState :=
  fold_left (fun g i => step i g) inputs g.

(** An entry of the stored high-score list (its date string left out). *)
Record HighScore : Type := mkHighScore {
  hs_score : Z;
  hs_level : Z;
  hs_blocks : Z
}.

(** [highScores.sort((a, b) => b.score - a.score)].  The sort of an array is
    stable, and a stable sort by a total order on the scores has one
    result: every entry stands behind the entries that score at least as
    much and came before it.  It is computed here by insertion from the
    left. *)
Fixpoint insertByScore (e : HighScore) (sorted : list HighScore)
  : list HighScore :=
  match sorted with
  | [] => [e]
  | x :: rest =>
      if (hs_score x <? hs_score e)%Z then e :: sorted
      else x :: insertByScore e rest
  end.

Definition sortByScore (l : list HighScore) : list HighScore :=
  fold_left (fun acc e => insertByScore e acc) l [].

(** [saveHighScore(score)], on the parsed list read from storage: push,
    sort, [splice(10)]. *)
Definition saveHighScore (newScore : Z) (g : GameState)
  (highScores : list HighScore) : list HighScore :=
  let highScores :=
    highScores ++ [mkHighScore newScore (level g) (blocksPlaced g)] in
  firstn 10 (sortByScore highScores).

(** [Math.max(...values)] of a non-empty array. *)
Definition maxOf (first : Z) (others : list Z) : Z :=
  fold_left Z.max others first.

(** What [loadGameStats] of main.js puts on the menu: the best score and
    the best level of the stored list, or nothing for an empty list. *)
Definition loadGameStats (highScores : list HighScore) : option (Z * Z) :=
  match highScores with
  | [] => None
  | first :: others =>
      Some (maxOf (hs_score first) (map hs_score others),
            maxOf (hs_level first) (map hs_level others))
  end.

End Game.

(** ** Notions used to state the properties *)

Module Notions.
Import Game.

(** The part of the session a newly generated block leaves alone. *)
Record sameBoard (g g' : GameState) : Prop := mkSameBoard {
  same_tower : tower g' = tower g;
  same_score : score g' = score g;
  same_level : level g' = level g;
  same_isActive : isActive g' = isActive g;
  same_isPaused : isPaused g' = isPaused g;
  same_blocksPlaced : blocksPlaced g' = blocksPlaced g;
  same_blocksInCurrentLevel : blocksInCurrentLevel g' = blocksInCurrentLevel g;
  same_perfectThreshold : perfectThreshold g' = perfectThreshold g;
  same_comboStreak : comboStreak g' = comboStreak g;
  same_config : config g' = config g;
  same_currentLevelConfig : currentLevelConfig g' = currentLevelConfig g;
  same_currentLevelParams : currentLevelParams g' = currentLevelParams g
}.

(** Whether the drop being made fills the quota of the level in force. *)
Definition quotaReached (g : GameState) : bool :=
  match currentLevelConfig g with
  | Some lc =>
      match Levels.blocksToComplete lc with
      | Some q => negb (q =? 0)%Z && (q <=? blocksInCurrentLevel g + 1)%Z
      | None => false
      end
  | None => false
  end.

(** The session once [current] is pushed, counted and paid its base points. *)
Definition scored (current : Block) (g : GameState) : GameState :=
  mkState (tower g ++ [current]) (currentBlock g)
          (score g + (10 + level g * 5)) (level g) (isActive g) (isPaused g)
          (blocksPlaced g + 1) (blocksInCurrentLevel g + 1) (speedMultiplier g)
          (perfectThreshold g) (comboStreak g) (config g)
          (currentLevelConfig g) (currentLevelParams g)
          (gravityShiftVerticalSpeed g).

(** The same session moved on to the next level, its popup showing. *)
Definition advanced (current : Block) (g : GameState) : GameState :=
  let lp := Levels.calculateLevelParameters (level g + 1) in
  mkState (tower g ++ [current]) (currentBlock g)
          (score g + (10 + level g * 5)) (level g + 1) (isActive g) true
          (blocksPlaced g + 1) 0 (speedMultiplier g)
          (Levels.params_perfectThreshold lp) (comboStreak g) (config g)
          (Some (Levels.getLevelConfig (level g + 1))) (Some lp)
          (gravityShiftVerticalSpeed g).

(** [addToTower] ends by generating the next block and reporting the drop. *)
Definition finish (o : Oracle) (perfect : bool) (ov : Q) (base : Z)
  (g : GameState) : GameState * DropResult :=
  match generateNewBlock o g with
  | None => (g, TypeError)
  | Some g' =>
      (g', Dropped perfect ov
             (base + (if perfect then 100 * comboStreak g' else 0))%Z)
  end.

(** The three ways [addToTower] can end when the level settings exist. *)
Inductive Placement (o : Oracle) (perfect : bool) (ov : Q) (cur : Block)
  (g : GameState) : GameState * DropResult -> Prop :=
  | placed_completed :
      quotaReached g = true -> level g = 7%Z ->
      Placement o perfect ov cur g
        (showGameCompleted (scored cur g), GameCompleted)
  | placed_advanced g' :
      quotaReached g = true -> level g <> 7%Z ->
      generateNewBlock o (advanced cur g) = Some g' ->
      sameBoard (advanced cur g) g' ->
      Placement o perfect ov cur g
        (g', Dropped perfect ov
               (10 + level g * 5
                + (if perfect then 100 * comboStreak g else 0))%Z)
  | placed_next g' :
      quotaReached g = false ->
      generateNewBlock o (scored cur g) = Some g' ->
      sameBoard (scored cur g) g' ->
      Placement o perfect ov cur g
        (g', Dropped perfect ov
               (10 + level g * 5
                + (if perfect then 100 * comboStreak g else 0))%Z).

(** The popup that a perfect drop shows under precision_challenge finds the
    canvas it reads. *)
Definition PopupShows (o : Oracle) (g : GameState) : Prop :=
  currentMechanic g = Some Levels.precision_challenge ->
  canvasPresent o = true.

(** A drop can be attempted: a moving block exists and the tower has a top. *)
Record Droppable (g : GameState) (cb top : Block) : Prop := mkDroppable {
  drop_current : currentBlock g = Some cb;
  drop_moving : isMoving cb = true;
  drop_top : lastTowerBlock g = Some top
}.

(** The level settings have been assigned (as [initGame] does). *)
Record Settled (g : GameState) : Prop := mkSettled {
  settled_config : currentLevelConfig g <> None;
  settled_params : currentLevelParams g <> None
}.

(** The active block as [dropBlock] leaves it right after [place()]. *)
Definition landed (g : GameState) (cb top : Block) : Block :=
  set_verticalSpeed 0
    (set_position_y (position_y top - blockHeight (config g)) (place cb)).

(** The session after the bookkeeping of a perfect drop. *)
Definition rewarded (g : GameState) (cb top : Block) : GameState :=
  set_currentBlock (Some (set_perfectDrop true (landed g cb top)))
    (set_score (score g + 100 * (comboStreak g + 1) * comboMultiplier g)
       (set_comboStreak (comboStreak g + 1) g)).

(** The session after the bookkeeping of an imperfect drop. *)
Definition trimmed (g : GameState) (cb top : Block) : GameState :=
  set_currentBlock
    (Some (shrink (config g) (calculateOverlap cb top) (landed g cb top)))
    (set_comboStreak 0 g).

(** A settled session at endless level 10 (perfect threshold 0.8) whose tower
    top is 100 wide at x = 0 and whose active block, also 100 wide, is at
    [x]. *)
Definition sampleSession (x : Q) : GameState :=
  mkState [place (newBlock 0 100 0 770 0 false)]
          (Some (newBlock 1 100 x 710 1.5 true))
          0 10 true false 0 0 1 (Double.literal 0.8) 0 defaultConfig
          (Some (Levels.getLevelConfig 10))
          (Some (Levels.calculateLevelParameters 10)) 0.

Definition sampleOracle : Oracle := mkOracle 0.5 0.5 0.5 0.5 true true.

(** Twenty-four frames of 1/30 s (in ms), no wind, a middling draw. *)
Definition travel : list Frame := repeat (mkFrame (100 # 3) 0 0.5) 24.

(** A level 1 session two blocks into the level: the 150 wide base, two
    blocks of 160 on it, and a 160 wide active block at [x]. *)
Definition thirdDropSession (x : Q) : GameState :=
  mkState [place (newBlock 0 150 325 770 0 false);
           place (newBlock 1 160 320 740 0 false);
           place (newBlock 2 160 320 710 0 false)]
          (Some (newBlock 3 160 x 680 0.4 true))
          230 1 true false 2 2 1 (Double.literal 0.4) 0 defaultConfig
          (Some (Levels.getLevelConfig 1))
          (Some (Levels.calculateLevelParameters 1)) 0.

(** A page without the game canvas. *)
Definition noCanvasOracle : Oracle := mkOracle 0.5 0.5 0.5 0.5 false true.

(** A session started at level 4 (precision_challenge) whose first block,
    100 wide, has travelled for ten frames of 1/30 s and is over the 150
    wide base. *)
Definition precisionSession : GameState :=
  frames (repeat (mkFrame (100 # 3) 0 0.5) 10)
         (initGame 4 sampleOracle gameState).


(** The horizontal center of a block, as a double. *)
Definition center (b : Block) : Q :=
  Double.add (position_x b) (Double.div (width b) 2).

(** The stability metric in the specification's words: the sum, over the
    adjacent pairs of the tower from the bottom up, of the absolute
    difference of the two horizontal centers. *)
Fixpoint adjacentOffsets (t : list Block) : list Q :=
  match t with
  | lower :: (upper :: _) as rest =>
      Qabs (Double.sub (center upper) (center lower)) :: adjacentOffsets rest
  | _ => []
  end.

Definition adjacentOffsetSum (t : list Block) : Q :=
  fold_left Double.add (adjacentOffsets t) 0.

(** A three-block tower at level 3 on the 800 wide canvas, blocks [w] wide
    at x = 0, 460.8 and 460.8: the centers are 460.8 apart, which is the
    exact value of 800 * 0.6 * 0.96. *)
Definition boundarySession (w : Q) : GameState :=
  mkState [place (newBlock 0 w 0 770 0 false);
           place (newBlock 1 w (Double.literal 460.8) 740 0 false);
           place (newBlock 2 w (Double.literal 460.8) 710 0 false)]
          (Some (newBlock 3 120 0 680 0.8 true))
          30 3 true false 2 2 1 (Double.literal 0.55) 0 defaultConfig
          (Some (Levels.getLevelConfig 3))
          (Some (Levels.calculateLevelParameters 3)) 0.

(** The width floor on a session: every tower block, and the active block,
    is at least [relaxedMinWidth] wide. *)
Definition towerAboveFloor (g : GameState) : Prop :=
  Forall (fun b => relaxedMinWidth (config g) <= width b) (tower g).

Definition activeAboveFloor (g : GameState) : Prop :=
  forall b, currentBlock g = Some b -> relaxedMinWidth (config g) <= width b.

(** A configuration whose floor is [minBlockWidth * 0.7] (not the constant
    20) and whose base block is above it, as the built-in one. *)
Definition floorFromMinimum (cfg : Config) : Prop :=
  20 <= minBlockWidth cfg * 0.7 /\
  minBlockWidth cfg * 0.7 <= initialBlockWidth cfg.

(** The sessions the game can be in, having started from [initGame] on a
    configuration whose floor is [minBlockWidth * 0.7], through drops,
    frames, pauses and resets. *)
Inductive Reachable : GameState -> Prop :=
  | reach_init lvl o g :
      floorFromMinimum (config g) -> Reachable (initGame lvl o g)
  | reach_drop o g : Reachable g -> Reachable (fst (dropBlock o g))
  | reach_frame f g : Reachable g -> Reachable (updateGame f g)
  | reach_pause g : Reachable g -> Reachable (pauseGame g)
  | reach_resume g : Reachable g -> Reachable (resumeGame g)
  | reach_timeout g : Reachable g -> Reachable (levelCompleteTimeout g)
  | reach_reset o g : Reachable g -> Reachable (resetGame o g).

(** A saved session whose moving block is only 20 wide. *)
Definition thinSave : SavedState :=
  mkSavedState 1 0 0 0 0 1 true false
               [mkSavedTowerBlock 0 150 325 770 true]
               (Some (mkSavedActiveBlock 1 20 400 740 0.4 true)).

(** The active block fully overlaps the tower top: their overlap is the
    whole width of the narrower of the two. *)
Definition fullOverlap (g : GameState) : Prop :=
  match currentBlock g, lastTowerBlock g with
  | Some cb, Some top =>
      calculateOverlap cb top == Qmin (width cb) (width top)
  | _, _ => False
  end.

(** A level 1 session with [k] blocks placed in the level, streak [c] and
    score [s], ready for a drop. *)
Record Level1Play (g : GameState) (k c s : Z) : Prop := mkLevel1Play {
  l1_level : level g = 1%Z;
  l1_config : currentLevelConfig g = Some (Levels.getLevelConfig 1);
  l1_params : currentLevelParams g = Some (Levels.calculateLevelParameters 1);
  l1_threshold : perfectThreshold g = Double.literal 0.4;
  l1_inLevel : blocksInCurrentLevel g = k;
  l1_streak : comboStreak g = c;
  l1_score : score g = s;
  l1_minimum : 0 < minBlockWidth (config g);
  l1_active : exists cb, currentBlock g = Some cb /\ isMoving cb = true /\
                         0 < width cb;
  l1_top : exists top, lastTowerBlock g = Some top /\ 0 < width top
}.

End Notions.

(** ** Notions for the session as a whole *)

Module SessionNotions.
Import Game Notions.

(** The level settings of the session are those of its level. *)
Record Coherent (g : GameState) : Prop := mkCoherent {
  coherent_config :
    currentLevelConfig g = Some (Levels.getLevelConfig (level g));
  coherent_params :
    currentLevelParams g = Some (Levels.calculateLevelParameters (level g));
  coherent_threshold :
    perfectThreshold g
    = Levels.params_perfectThreshold
        (Levels.calculateLevelParameters (level g))
}.

(** Every block lies exactly one block height above the block below it. *)
Fixpoint stackedOn (cfg : Config) (t : list Block) : Prop :=
  match t with
  | lower :: (upper :: _) as rest =>
      position_y upper == position_y lower - blockHeight cfg /\
      stackedOn cfg rest
  | _ => True
  end.

(** What holds of every session the game reaches: the level settings fit
    the level; the tower is never empty, its blocks are numbered from 0 in
    the order they were placed, are marked placed and not moving, and are
    stacked from the bottom row of the canvas; a moving active block carries
    the next number; the counters are not negative. *)
Record Sound (g : GameState) : Prop := mkSound {
  sound_coherent : Coherent g;
  sound_count : Z.of_nat (length (tower g)) = (blocksPlaced g + 1)%Z;
  sound_placed_nonneg : (0 <= blocksPlaced g)%Z;
  sound_ids : map id (tower g) = map Z.of_nat (seq 0 (length (tower g)));
  sound_active :
    forall b, currentBlock g = Some b -> isMoving b = true ->
              id b = (blocksPlaced g + 1)%Z;
  sound_flags :
    Forall (fun b => isPlaced b = true /\ isMoving b = false) (tower g);
  sound_stacked : stackedOn (config g) (tower g);
  sound_base :
    exists base rest,
      tower g = base :: rest /\
      position_y base
      == canvasHeight (config g) - blockHeight (config g);
  sound_streak : (0 <= comboStreak g)%Z;
  sound_inLevel : (0 <= blocksInCurrentLevel g)%Z;
  sound_score : (-2 <= level g)%Z -> (0 <= score g)%Z
}.

(** What the placed block must satisfy for the tower to stay sound. *)
Record Fits (g : GameState) (cur top : Block) : Prop := mkFits {
  fits_current : currentBlock g = Some cur;
  fits_id : id cur = (blocksPlaced g + 1)%Z;
  fits_placed : isPlaced cur = true;
  fits_still : isMoving cur = false;
  fits_top : lastTowerBlock g = Some top;
  fits_row : position_y cur == position_y top - blockHeight (config g)
}.

(** Seven frames of 1/30 s (in ms): at level 7 they carry a new block from
    the left edge over the tower. *)
Definition approach : list Frame := repeat (mkFrame (100 # 3) 0 0.5) 7.

(** A level 7 session two blocks into the level, its third block over the
    tower. *)
Definition lastLevelSession : GameState :=
  let drop g := fst (dropBlock sampleOracle (frames approach g)) in
  frames approach (drop (drop (initGame 7 sampleOracle gameState))).

(** A list of high scores in the order the sort leaves it: no entry scores
    more than an entry before it. *)
Fixpoint descending (l : list HighScore) : Prop :=
  match l with
  | [] => True
  | x :: rest =>
      Forall (fun y => (hs_score y <= hs_score x)%Z) rest /\ descending rest
  end.

(** The inputs of play proper: frames, clicks and presses of the space
    bar. *)
Definition playInput (i : Input) : Prop :=
  match i with
  | Tick _ | Click _ | Key Space _ => True
  | Key _ _ => False
  end.

End SessionNotions.

(** ** physics.js: the physics engine *)

Module Physics.
Import Game.

(** [this.config] of a [PhysicsEngine]. *)
Record EngineConfig : Type := mkEngineConfig {
  gravity : Q;
  friction : Q;
  bounce : Q;
  stabilityThreshold : Q;
  maxTilt : Q
}.

(** The configuration of [new PhysicsEngine()]. *)
Definition defaultEngineConfig : EngineConfig :=
  mkEngineConfig 0.5 0.8 0.3 0.3 0.2.




(** [calculateHorizontalOverlap(block1, block2)]. *)
Definition calculateHorizontalOverlap (block1 block2 : Block) : Q :=
  let block1Left := position_x block1 in
  let block1Right := position_x block1 + width block1 in
  let block2Left := position_x block2 in
  let block2Right := position_x block2 + width block2 in
  Qmax 0 (Qmin block1Right block2Right - Qmax block1Left block2Left).

(** [calculateVerticalOverlap(block1, block2)]. *)
Definition calculateVerticalOverlap (cfg : Config) (block1 block2 : Block)
  : Q :=
  let block1Top := position_y block1 in
  let block1Bottom := position_y block1 + blockHeight cfg in
  let block2Top := position_y block2 in
  let block2Bottom := position_y block2 + blockHeight cfg in
  Qmax 0 (Qmin block1Bottom block2Bottom - Qmax block1Top block2Top).

(** [blocksColliding(block1, block2)]. *)
Definition blocksColliding (cfg : Config) (block1 block2 : Block) : bool :=
  if isPlaced block1 && isPlaced block2 then false
  else if Qle_bool (calculateHorizontalOverlap block1 block2) 0 then false
  else if Qle_bool (calculateVerticalOverlap cfg block1 block2) 0 then false
  else true.

(** The value of a division [a / b] of two numbers: a number, an infinity
    or NaN when [b] is 0. *)
Inductive Quotient : Type :=
  | Number (q : Q)
  | PlusInfinity
  | MinusInfinity
  | NotANumber.

Definition divide (a b : Q) : Quotient :=
  if Qeq_bool b 0 then
    if Qlt_bool 0 a then PlusInfinity
    else if Qlt_bool a 0 then MinusInfinity
    else NotANumber
  else Number (a / b).

(** [x >= t] and [x < t] for a number [t]. *)
Definition atLeast (x : Quotient) (t : Q) : bool :=
  match x with
  | Number q => Qle_bool t q
  | PlusInfinity => true
  | MinusInfinity | NotANumber => false
  end.

Definition below (x : Quotient) (t : Q) : bool :=
  match x with
  | Number q => Qlt_bool q t
  | MinusInfinity => true
  | PlusInfinity | NotANumber => false
  end.

(** [blocks.reduce(f)] without initial value, on [first :: rest]. *)
Definition reduce {A : Type} (f : A -> A -> A) (first : A) (rest : list A)
  : A :=
  fold_left f rest first.

(** What [calculateTowerOverlap] returns; [overlapPercentage] is missing for
    an empty tower. *)
Record OverlapInfo : Type := mkOverlapInfo {
  overlap : Q;
  targetBlock : option Block;
  overlapPercentage : option Quotient
}.

(** [calculateTowerOverlap(movingBlock, towerBlocks)]. *)
Definition calculateTowerOverlap (movingBlock : Block)
  (towerBlocks : list Block) : OverlapInfo :=
  match towerBlocks with
  | [] => mkOverlapInfo 0 None None
  | first :: rest =>
      let topBlock :=
        reduce (fun top block =>
                  if Qlt_bool (position_y block) (position_y top)
                  then block else top) first rest in
      let overlap := calculateHorizontalOverlap movingBlock topBlock in
      mkOverlapInfo overlap (Some topBlock)
        (Some (divide overlap (Qmin (width movingBlock) (width topBlock))))
  end.

(** What [simulateBlockDrop] returns: a miss, or the data of the landing. *)
Inductive Simulation : Type :=
  | SimMissed
  | SimLanded (finalWidth overlap : Q) (overlapPercentage : option Quotient)
              (isPerfect : bool) (targetBlock : option Block).

(** [simulateBlockDrop(block, towerBlocks)]; minimum width and perfect
    threshold are read from the session. *)
Definition simulateBlockDrop (g : GameState) (block : Block)
  (towerBlocks : list Block) : Simulation :=
  let overlapInfo := calculateTowerOverlap block towerBlocks in
  if Qle_bool (overlap overlapInfo) 0 then SimMissed
  else
    let finalWidth :=
      Qmax (minBlockWidth (config g)) (overlap overlapInfo) in
    let isPerfect :=
      match overlapPercentage overlapInfo with
      | Some p => atLeast p (perfectThreshold g)
      | None => false
      end in
    SimLanded finalWidth (overlap overlapInfo)
              (overlapPercentage overlapInfo) isPerfect
              (targetBlock overlapInfo).

(** What [calculateSupportBase] returns. *)
Record SupportBase : Type := mkSupportBase {
  base_left : Q;
  base_right : Q;
  base_width : Q
}.

(** [calculateSupportBase(blocks)]. *)
Definition calculateSupportBase (blocks : list Block) : SupportBase :=
  match blocks with
  | [] => mkSupportBase 0 0 0
  | first :: rest =>
      let bottomBlock :=
        reduce (fun bottom block =>
                  if Qlt_bool (position_y bottom) (position_y block)
                  then block else bottom) first rest in
      mkSupportBase (position_x bottomBlock)
                    (position_x bottomBlock + width bottomBlock)
                    (width bottomBlock)
  end.

(** The sums of the loop of [calculateCenterOfMass]: total mass, weighted x
    and weighted y. *)
Definition massSums (cfg : Config) (blocks : list Block) : Q * Q * Q :=
  fold_left
    (fun sums block =>
       let '(totalMass, weightedX, weightedY) := sums in
       let mass := width block * blockHeight cfg in
       let centerX := position_x block + width block / 2 in
       let centerY := position_y block + blockHeight cfg / 2 in
       (totalMass + mass, weightedX + centerX * mass,
        weightedY + centerY * mass))
    blocks (0, 0, 0).

(** [calculateCenterOfMass(blocks)]: the two quotients. *)
Definition calculateCenterOfMass (cfg : Config) (blocks : list Block)
  : Quotient * Quotient :=
  let '(totalMass, weightedX, weightedY) := massSums cfg blocks in
  (divide weightedX totalMass, divide weightedY totalMass).

(** Of the object [calculateStability] returns, the two fields that
    [applyStabilityEffects] reads. *)
Record Stability : Type := mkStability {
  stability : Quotient;
  isStable : bool
}.

(** [calculateStability(centerOfMass, supportBase)], given the [x] of the
    center of mass.  An infinite [x] makes [massOffset] infinite and NaN
    makes it NaN; neither is [<= maxOffset]. *)
Definition calculateStability (c : EngineConfig) (centerX : Quotient)
  (supportBase : SupportBase) : Stability :=
  let supportCenter := base_left supportBase + base_width supportBase / 2 in
  let maxOffset := base_width supportBase * stabilityThreshold c in
  match centerX with
  | Number x =>
      let massOffset := Qabs (x - supportCenter) in
      let stability :=
        match divide massOffset maxOffset with
        | Number q => Number (Qmax 0 (1 - q))
        | PlusInfinity => Number 0
        | MinusInfinity => PlusInfinity
        | NotANumber => NotANumber
        end in
      mkStability stability (Qle_bool massOffset maxOffset)
  | PlusInfinity | MinusInfinity =>
      mkStability
        (if Qlt_bool maxOffset 0 then PlusInfinity else Number 0) false
  | NotANumber => mkStability NotANumber false
  end.

(** Which effects [applyStabilityEffects] applies. *)
Inductive Effect : Type := CollapseEffects | WarningEffects | NoEffects.

(** [applyStabilityEffects(blocks, stability)]: the branch taken. *)
Definition applyStabilityEffects (s : Stability) : Effect :=
  if negb (isStable s) then CollapseEffects
  else if below (stability s) 0.5 then WarningEffects
  else NoEffects.

(** [updateTowerStability(blocks)]: the effects applied to the placed
    blocks, none for fewer than two of them. *)
Definition updateTowerStability (c : EngineConfig) (cfg : Config)
  (blocks : list Block) : Effect :=
  let towerBlocks := filter isPlaced blocks in
  if (length towerBlocks <? 2)%nat then NoEffects
  else
    let centerOfMass := calculateCenterOfMass cfg towerBlocks in
    let supportBase := calculateSupportBase towerBlocks in
    applyStabilityEffects
      (calculateStability c (fst centerOfMass) supportBase).

End Physics.

(** ** helpers.js and the volume settings of the audio manager *)

Module Helpers.

(** [Helpers.clamp(value, min, max)]. *)
Definition clamp (value min max : Q) : Q := Qmin (Qmax value min) max.

(** [setMasterVolume(volume)] and [setSFXVolume(volume)] of the audio
    manager: the value stored. *)
Definition setVolume (volume : Q) : Q := Qmax 0 (Qmin 1 volume).

End Helpers.

(** * Properties *)

(** ** Comparisons of rationals *)

Lemma Qlt_bool_iff (a b : Q) : Qlt_bool a b = true <-> a < b.
Proof.
  unfold Qlt_bool. rewrite negb_true_iff.
  split; intro H.
  - apply Qnot_le_lt. intro Hle. apply Qle_bool_iff in Hle. congruence.
  - destruct (Qle_bool b a) eqn:E; [|reflexivity].
    apply Qle_bool_iff in E. exfalso. apply (Qlt_not_le _ _ H E).
Qed.

Lemma Qlt_bool_false_iff (a b : Q) : Qlt_bool a b = false <-> b <= a.
Proof.
  unfold Qlt_bool. rewrite negb_false_iff. apply Qle_bool_iff.
Qed.

Lemma Qle_bool_false_iff (a b : Q) : Qle_bool a b = false <-> b < a.
Proof.
  rewrite <- Qlt_bool_iff. unfold Qlt_bool.
  destruct (Qle_bool a b); simpl; split; congruence.
Qed.

(** ** Rounding to double precision *)

Module DoubleFacts.
Import Double.

Lemma pow2_pos (k : Z) : 0 < pow2 k.
Proof. apply Qpower_0_lt. reflexivity. Qed.

Lemma pow2_plus (a b : Z) : pow2 (a + b) == pow2 a * pow2 b.
Proof. apply Qpower_plus. intro H. discriminate H. Qed.

Lemma pow2_succ (k : Z) : pow2 (k + 1) == 2 * pow2 k.
Proof. rewrite pow2_plus. unfold pow2 at 2. rewrite Qpower_1_r. ring. Qed.

Lemma pow2_le (a b : Z) : (a <= b)%Z -> pow2 a <= pow2 b.
Proof. intro H. apply Qpower_le_compat_l; [exact H|discriminate]. Qed.

Lemma pow2_lt (a b : Z) : (a < b)%Z -> pow2 a < pow2 b.
Proof. intro H. apply Qpower_lt_compat_l; [exact H|reflexivity]. Qed.

Lemma pow2_inject (k : Z) : (0 <= k)%Z -> inject_Z (2 ^ k) == pow2 k.
Proof. intro H. apply (Zpower_Qpower 2 k H). Qed.

Lemma log2_bounds (x : Q) :
  0 < x ->
  let k := (Z.log2 (Qnum x) - Z.log2 (Zpos (Qden x)))%Z in
  pow2 (k - 1) < x /\ x < pow2 (k + 1).
Proof.
  destruct x as [n d]. intro Hx. cbn [Qnum Qden].
  assert (Hn : (0 < n)%Z).
  { unfold Qlt in Hx. cbn in Hx. lia. }
  set (a := Z.log2 n). set (b := Z.log2 (Z.pos d)).
  assert (Ha : (0 <= a)%Z) by apply Z.log2_nonneg.
  assert (Hb : (0 <= b)%Z) by apply Z.log2_nonneg.
  destruct (Z.log2_spec n Hn) as [A1 A2]. fold a in A1, A2.
  destruct (Z.log2_spec (Z.pos d) (Pos2Z.is_pos d)) as [B1 B2].
  fold b in B1, B2.
  assert (QA1 : pow2 a <= inject_Z n).
  { rewrite <- (pow2_inject a Ha). rewrite <- Zle_Qle. exact A1. }
  assert (QA2 : inject_Z n < 2 * pow2 a).
  { rewrite <- pow2_succ, <- (pow2_inject (a + 1)) by lia.
    rewrite <- Zlt_Qlt. unfold Z.succ in A2. exact A2. }
  assert (QB1 : pow2 b <= inject_Z (Z.pos d)).
  { rewrite <- (pow2_inject b Hb). rewrite <- Zle_Qle. exact B1. }
  assert (QB2 : inject_Z (Z.pos d) < 2 * pow2 b).
  { rewrite <- pow2_succ, <- (pow2_inject (b + 1)) by lia.
    rewrite <- Zlt_Qlt. unfold Z.succ in B2. exact B2. }
  pose proof (pow2_pos a) as PA. pose proof (pow2_pos b) as PB.
  assert (E1 : pow2 (a - b - 1) * (2 * pow2 b) == pow2 a).
  { rewrite <- pow2_succ, <- pow2_plus.
    replace (a - b - 1 + (b + 1))%Z with a by lia. reflexivity. }
  assert (E2 : pow2 (a - b + 1) * pow2 b == 2 * pow2 a).
  { rewrite <- pow2_plus, <- pow2_succ.
    replace (a - b + 1 + b)%Z with (a + 1)%Z by lia. reflexivity. }
  pose proof (pow2_pos (a - b - 1)) as P1.
  pose proof (pow2_pos (a - b + 1)) as P2.
  assert (D0 : 0 < inject_Z (Z.pos d)) by (rewrite <- (Zlt_Qlt 0); lia).
  rewrite (Qmake_Qdiv n d).
  split.
  - apply Qlt_shift_div_l; [exact D0|]. nra.
  - apply Qlt_shift_div_r; [exact D0|]. nra.
Qed.

Lemma exponent_spec (x : Q) :
  0 < x -> pow2 (exponent x) <= x /\ x < pow2 (exponent x + 1).
Proof.
  intro Hx. destruct (log2_bounds x Hx) as [L U]. unfold exponent.
  set (k := (Z.log2 (Qnum x) - Z.log2 (Z.pos (Qden x)))%Z) in *.
  destruct (Qle_bool (pow2 k) x) eqn:E.
  - apply Qle_bool_iff in E. split; assumption.
  - assert (x < pow2 k).
    { apply Qnot_le_lt. intro H. apply Qle_bool_iff in H. congruence. }
    replace (k - 1 + 1)%Z with k by lia. split; [apply Qlt_le_weak|]; assumption.
Qed.

Lemma exponent_mono (x y : Q) :
  0 < x -> x <= y -> (exponent x <= exponent y)%Z.
Proof.
  intros Hx Hxy.
  assert (Hy : 0 < y) by lra.
  destruct (exponent_spec x Hx) as [L _].
  destruct (exponent_spec y Hy) as [_ U].
  destruct (Z_le_gt_dec (exponent x) (exponent y)) as [H|H]; [exact H|].
  assert (pow2 (exponent y + 1) <= pow2 (exponent x)) by (apply pow2_le; lia).
  lra.
Qed.

Lemma nearestEven_floor (x : Q) :
  (Qfloor x <= nearestEven x <= Qfloor x + 1)%Z.
Proof.
  unfold nearestEven.
  destruct (Qcompare (x - inject_Z (Qfloor x)) (1 # 2)); [|lia|lia].
  destruct (Z.even (Qfloor x)); lia.
Qed.

Lemma nearestEven_near (x : Q) :
  x - (1 # 2) <= inject_Z (nearestEven x) /\
  inject_Z (nearestEven x) <= x + (1 # 2).
Proof.
  pose proof (Qfloor_le x) as L. pose proof (Qlt_floor x) as U.
  rewrite inject_Z_plus in U. change (inject_Z 1) with 1 in U.
  unfold nearestEven.
  destruct (Qcompare (x - inject_Z (Qfloor x)) (1 # 2)) eqn:E.
  - apply Qeq_alt in E.
    destruct (Z.even (Qfloor x)); rewrite ?inject_Z_plus;
      change (inject_Z 1) with 1; split; lra.
  - apply Qlt_alt in E. split; lra.
  - apply Qgt_alt in E. rewrite inject_Z_plus.
    change (inject_Z 1) with 1. split; lra.
Qed.

Lemma nearestEven_Z (k : Z) : nearestEven (inject_Z k) = k.
Proof.
  unfold nearestEven. rewrite Qfloor_Z.
  assert (E : Qcompare (inject_Z k - inject_Z k) (1 # 2) = Lt).
  { apply Qlt_alt. setoid_replace (inject_Z k - inject_Z k) with 0 by ring.
    reflexivity. }
  rewrite E. reflexivity.
Qed.

Lemma nearestEven_mono (x y : Q) :
  x <= y -> (nearestEven x <= nearestEven y)%Z.
Proof.
  intro H. pose proof (Qfloor_resp_le x y H) as F.
  pose proof (nearestEven_floor x) as Bx.
  pose proof (nearestEven_floor y) as By.
  destruct (Z.eq_dec (Qfloor x) (Qfloor y)) as [E|N]; [|lia].
  unfold nearestEven. rewrite <- E.
  destruct (Qcompare (x - inject_Z (Qfloor x)) (1 # 2)) eqn:Cx;
    destruct (Qcompare (y - inject_Z (Qfloor x)) (1 # 2)) eqn:Cy;
    try (destruct (Z.even (Qfloor x))); try lia; exfalso;
    repeat match goal with
           | H : Qcompare _ _ = Eq |- _ => apply Qeq_alt in H
           | H : Qcompare _ _ = Lt |- _ => apply Qlt_alt in H
           | H : Qcompare _ _ = Gt |- _ => apply Qgt_alt in H
           end; lra.
Qed.

Lemma scaled_range (x : Q) :
  0 < x ->
  let s := pow2 (exponent x - 52) in
  0 < s /\ pow2 52 * s == pow2 (exponent x) /\
  pow2 52 <= x / s /\ x / s < 2 * pow2 52 /\ x / s * s == x.
Proof.
  intros Hx s. pose proof (pow2_pos (exponent x - 52)) as Ps. fold s in Ps.
  destruct (exponent_spec x Hx) as [L U].
  assert (E : pow2 52 * s == pow2 (exponent x)).
  { unfold s. rewrite <- pow2_plus.
    replace (52 + (exponent x - 52))%Z with (exponent x) by lia. reflexivity. }
  rewrite pow2_succ in U.
  split; [exact Ps|]. split; [exact E|]. split; [|split].
  - apply Qle_shift_div_l; [exact Ps|]. lra.
  - apply Qlt_shift_div_r; [exact Ps|]. lra.
  - field. lra.
Qed.

Lemma roundPos_bounds (x : Q) :
  0 < x ->
  pow2 (exponent x) <= roundPos x /\ roundPos x <= pow2 (exponent x + 1).
Proof.
  intro Hx. destruct (scaled_range x Hx) as (Ps & E & L & U & _).
  unfold roundPos. set (s := pow2 (exponent x - 52)) in *.
  assert (M1 : (2 ^ 52 <= nearestEven (x / s))%Z).
  { rewrite <- (nearestEven_Z (2 ^ 52)). apply nearestEven_mono.
    rewrite (pow2_inject 52) by lia. exact L. }
  assert (M2 : (nearestEven (x / s) <= 2 ^ 53)%Z).
  { rewrite <- (nearestEven_Z (2 ^ 53)). apply nearestEven_mono.
    rewrite (pow2_inject 53) by lia.
    change 53%Z with (52 + 1)%Z. rewrite pow2_succ. lra. }
  rewrite Zle_Qle in M1. rewrite Zle_Qle in M2.
  rewrite (pow2_inject 52) in M1 by lia.
  rewrite (pow2_inject 53) in M2 by lia.
  change 53%Z with (52 + 1)%Z in M2. rewrite pow2_succ in M2.
  rewrite pow2_succ. pose proof (pow2_pos 52). split; nra.
Qed.

Lemma roundPos_mono (x y : Q) :
  0 < x -> x <= y -> roundPos x <= roundPos y.
Proof.
  intros Hx Hxy. assert (Hy : 0 < y) by lra.
  pose proof (exponent_mono x y Hx Hxy) as He.
  destruct (Z.eq_dec (exponent x) (exponent y)) as [E|N].
  - unfold roundPos. rewrite E.
    pose proof (pow2_pos (exponent y - 52)) as Ps.
    set (s := pow2 (exponent y - 52)) in *.
    apply Qmult_le_compat_r; [|lra].
    rewrite <- Zle_Qle. apply nearestEven_mono.
    unfold Qdiv. apply Qmult_le_compat_r; [exact Hxy|].
    apply Qlt_le_weak, Qinv_lt_0_compat. exact Ps.
  - destruct (roundPos_bounds x Hx) as [_ U].
    destruct (roundPos_bounds y Hy) as [L _].
    assert (pow2 (exponent x + 1) <= pow2 (exponent y)) by (apply pow2_le; lia).
    lra.
Qed.

Lemma roundPos_pos (x : Q) : 0 < x -> 0 < roundPos x.
Proof.
  intro Hx. destruct (roundPos_bounds x Hx) as [L _].
  pose proof (pow2_pos (exponent x)). lra.
Qed.

Lemma roundPos_near (x : Q) :
  0 < x -> x * (1 - eps) <= roundPos x /\ roundPos x <= x * (1 + eps).
Proof.
  intro Hx. destruct (scaled_range x Hx) as (Ps & E & L & U & D).
  unfold roundPos. set (s := pow2 (exponent x - 52)) in *.
  destruct (nearestEven_near (x / s)) as [N1 N2].
  set (m := inject_Z (nearestEven (x / s))) in *.
  assert (P52 : pow2 52 == inject_Z (2 ^ 52)) by (symmetry; apply pow2_inject; lia).
  assert (XS : x / s * eps >= 1 # 2).
  { unfold eps. rewrite P52 in L.
    assert (inject_Z (2 ^ 52) * (1 # 9007199254740992) == 1 # 2)
      by reflexivity.
    assert (0 <= (1 # 9007199254740992)) by discriminate.
    nra. }
  set (q := x / s) in *.
  assert (A : q * (1 - eps) <= m) by lra.
  assert (B : m <= q * (1 + eps)) by lra.
  rewrite <- D. split.
  - setoid_replace (q * s * (1 - eps)) with (q * (1 - eps) * s) by ring.
    apply Qmult_le_compat_r; lra.
  - setoid_replace (q * s * (1 + eps)) with (q * (1 + eps) * s) by ring.
    apply Qmult_le_compat_r; lra.
Qed.

Lemma compare_pos (x : Q) : 0 < x -> Qcompare x 0 = Gt.
Proof. intro H. apply Qgt_alt. exact H. Qed.

Lemma compare_neg (x : Q) : x < 0 -> Qcompare x 0 = Lt.
Proof. intro H. apply Qlt_alt. exact H. Qed.

Lemma compare_zero (x : Q) : x == 0 -> Qcompare x 0 = Eq.
Proof. intro H. apply Qeq_alt. exact H. Qed.

Lemma round_pos (x : Q) : 0 < x -> round x = roundPos x.
Proof. intro H. unfold round. rewrite (compare_pos x H). reflexivity. Qed.

Lemma round_neg (x : Q) : x < 0 -> round x = - roundPos (- x).
Proof. intro H. unfold round. rewrite (compare_neg x H). reflexivity. Qed.

Lemma round_zero (x : Q) : x == 0 -> round x = 0.
Proof. intro H. unfold round. rewrite (compare_zero x H). reflexivity. Qed.

(** Rounding is monotone. *)
Lemma round_mono (x y : Q) : x <= y -> round x <= round y.
Proof.
  intro H.
  destruct (Q_dec x 0) as [[Hx|Hx]|Hx]; destruct (Q_dec y 0) as [[Hy|Hy]|Hy];
    try (exfalso; lra).
  - rewrite (round_neg x Hx), (round_neg y Hy).
    assert (roundPos (- y) <= roundPos (- x)) by (apply roundPos_mono; lra).
    lra.
  - rewrite (round_neg x Hx), (round_pos y Hy).
    assert (0 < roundPos (- x)) by (apply roundPos_pos; lra).
    assert (0 < roundPos y) by (apply roundPos_pos; lra). lra.
  - rewrite (round_neg x Hx), (round_zero y Hy).
    assert (0 < roundPos (- x)) by (apply roundPos_pos; lra). lra.
  - rewrite (round_pos x Hx), (round_pos y Hy). apply roundPos_mono; lra.
  - rewrite (round_zero x Hx), (round_pos y Hy).
    assert (0 < roundPos y) by (apply roundPos_pos; lra). lra.
  - rewrite (round_zero x Hx), (round_zero y Hy). lra.
Qed.

#[global] Instance round_comp : Proper (Qeq ==> Qeq) round.
Proof.
  intros x y E. apply Qle_antisym; apply round_mono; lra.
Qed.

Lemma round_sign (x : Q) :
  (0 < x -> 0 < round x) /\ (x < 0 -> round x < 0) /\
  (0 <= x -> 0 <= round x) /\ (x <= 0 -> round x <= 0).
Proof.
  assert (P : forall z, 0 < z -> 0 < round z).
  { intros z Hz. rewrite (round_pos z Hz). apply roundPos_pos. exact Hz. }
  assert (N : forall z, z < 0 -> round z < 0).
  { intros z Hz. rewrite (round_neg z Hz).
    assert (0 < roundPos (- z)) by (apply roundPos_pos; lra). lra. }
  repeat split; try (apply P); try (apply N).
  - intro H. destruct (Q_dec x 0) as [[Hx|Hx]|Hx]; [lra| |].
    + apply Qlt_le_weak, P, Hx.
    + rewrite (round_zero x Hx). lra.
  - intro H. destruct (Q_dec x 0) as [[Hx|Hx]|Hx]; [|lra|].
    + apply Qlt_le_weak, N, Hx.
    + rewrite (round_zero x Hx). lra.
Qed.

(** The relative error of rounding is at most 2^-53. *)
Lemma round_near (x : Q) :
  0 <= x -> x * (1 - eps) <= round x /\ round x <= x * (1 + eps).
Proof.
  intro H. destruct (Q_dec x 0) as [[Hx|Hx]|Hx]; [lra| |].
  - rewrite (round_pos x Hx). apply roundPos_near. exact Hx.
  - rewrite (round_zero x Hx). rewrite Hx. split; lra.
Qed.

(** The product with a factor of at most a half is not above the other
    factor. *)
Lemma mul_below (w t : Q) :
  0 <= w -> 0 <= t -> t <= 1 # 2 -> mul w t <= w.
Proof.
  intros Hw Ht Hh. unfold mul.
  assert (P : 0 <= w * t) by (apply Qmult_le_0_compat; assumption).
  destruct (round_near (w * t) P) as [_ U].
  apply Qle_trans with (1 := U).
  assert (A : w * t <= w * (1 # 2)).
  { rewrite (Qmult_comm w t), (Qmult_comm w (1 # 2)).
    apply Qmult_le_compat_r; assumption. }
  assert (E : 0 <= 1 + eps) by (vm_compute; discriminate).
  apply Qle_trans with (w * (1 # 2) * (1 + eps)).
  - apply Qmult_le_compat_r; assumption.
  - setoid_replace w with (w * 1) at 2 by ring.
    rewrite <- Qmult_assoc.
    rewrite (Qmult_comm w ((1 # 2) * (1 + eps))), (Qmult_comm w 1).
    apply Qmult_le_compat_r; [vm_compute; discriminate|exact Hw].
Qed.

Lemma add_mono (a a' b b' : Q) : a <= a' -> b <= b' -> add a b <= add a' b'.
Proof. intros. apply round_mono. lra. Qed.

Lemma sub_mono (a a' b b' : Q) : a <= a' -> b' <= b -> sub a b <= sub a' b'.
Proof. intros. apply round_mono. lra. Qed.

Lemma mul_mono_r (a a' c : Q) : 0 <= c -> a <= a' -> mul a c <= mul a' c.
Proof. intros. apply round_mono. nra. Qed.

Lemma mul_mono_l (a a' c : Q) : 0 <= c -> a <= a' -> mul c a <= mul c a'.
Proof. intros. apply round_mono. nra. Qed.

#[global] Instance mul_comp : Proper (Qeq ==> Qeq ==> Qeq) mul.
Proof. intros a a' Ea b b' Eb. unfold mul. rewrite Ea, Eb. reflexivity. Qed.

#[global] Instance add_comp : Proper (Qeq ==> Qeq ==> Qeq) add.
Proof. intros a a' Ea b b' Eb. unfold add. rewrite Ea, Eb. reflexivity. Qed.

#[global] Instance sub_comp : Proper (Qeq ==> Qeq ==> Qeq) sub.
Proof. intros a a' Ea b b' Eb. unfold sub. rewrite Ea, Eb. reflexivity. Qed.

End DoubleFacts.


(** ** The level table and endless scaling *)

Module LevelFacts.
Import Levels.

(** Past the table, [getLevelConfig] falls back to the endless default. *)
Lemma getLevelConfig_beyond (n : Z) :
  (7 < n)%Z -> getLevelConfig n = endlessLevel n.
Proof.
  intro H. unfold getLevelConfig, LEVELS. cbn [find id].
  repeat match goal with
         | |- context [(?k =? n)%Z] =>
             destruct (Z.eqb_spec k n); [lia|]
         end.
  reflexivity.
Qed.

(** The parameters of an endless level, spelled out. *)
Lemma calculateLevelParameters_beyond (n : Z) :
  (7 < n)%Z ->
  calculateLevelParameters n =
  applyEndlessScaling
    (mkParams (Double.literal 1.5) (mkRange 50 90) (Double.literal 0.8)
              (Double.literal 0.08) 10 1.5) n.
Proof.
  intro H. unfold calculateLevelParameters.
  rewrite (getLevelConfig_beyond n H).
  destruct (Z.ltb_spec 7 n); [reflexivity|lia].
Qed.

(** The decimal constants of the scaling, as the doubles they are. *)
Lemma scaling_constants :
  Double.literal 1.5 == 1.5 /\
  Double.literal 0.1 == 3602879701896397 # 36028797018963968 /\
  0 <= Double.literal 0.02 /\ 0 <= Double.literal 0.01 /\
  0 <= Double.literal 0.8 /\
  Double.literal 0.99 <= 0.99 /\ Double.literal 0.99 < 1.
Proof.
  repeat split; vm_compute; try reflexivity; discriminate.
Qed.

(** From one endless level to a later one the block speed and the perfect
    threshold do not fall and the width range does not rise: every step of
    the computation is monotone, rounding included. *)
Lemma endless_mono (n m : Z) :
  (n <= m)%Z ->
  let base :=
    mkParams (Double.literal 1.5) (mkRange 50 90) (Double.literal 0.8)
             (Double.literal 0.08) 10 1.5 in
  let p := applyEndlessScaling base n in
  let p' := applyEndlessScaling base m in
  params_blockSpeed p <= params_blockSpeed p' /\
  params_perfectThreshold p <= params_perfectThreshold p' /\
  range_min (params_blockWidthRange p') <= range_min (params_blockWidthRange p) /\
  range_max (params_blockWidthRange p') <= range_max (params_blockWidthRange p).
Proof.
  intros H base p p'. subst p p' base. unfold applyEndlessScaling.
  cbn [params_blockSpeed params_perfectThreshold params_blockWidthRange
       range_min range_max].
  destruct scaling_constants as (C15 & C01 & C002 & C001 & _).
  assert (Hq : inject_Z n <= inject_Z m) by (rewrite <- Zle_Qle; exact H).
  assert (S : Double.sub (inject_Z n) 10 <= Double.sub (inject_Z m) 10).
  { apply DoubleFacts.sub_mono; lra. }
  assert (W : Double.sub 1 (Double.mul (Double.sub (inject_Z m) 10)
                                        (Double.literal 0.02))
              <= Double.sub 1 (Double.mul (Double.sub (inject_Z n) 10)
                                          (Double.literal 0.02))).
  { apply DoubleFacts.sub_mono; [lra|].
    apply DoubleFacts.mul_mono_r; assumption. }
  repeat split.
  - apply DoubleFacts.mul_mono_l; [lra|].
    apply DoubleFacts.add_mono; [lra|].
    apply DoubleFacts.mul_mono_r; [lra|exact S].
  - apply Q.min_le_compat_l. apply DoubleFacts.add_mono; [lra|].
    apply DoubleFacts.mul_mono_r; assumption.
  - apply Q.max_le_compat_l. apply DoubleFacts.mul_mono_l; [lra|exact W].
  - apply Q.max_le_compat_l. apply DoubleFacts.mul_mono_l; [lra|exact W].
Qed.

(** From level 31 on the three clamps are in force. *)
Lemma endless_saturated (n : Z) :
  (31 <= n)%Z ->
  let p := calculateLevelParameters n in
  range_min (params_blockWidthRange p) == 30 /\
  range_max (params_blockWidthRange p) == 60 /\
  params_perfectThreshold p == Double.literal 0.99.
Proof.
  intros H p. subst p.
  rewrite (calculateLevelParameters_beyond n) by lia.
  destruct (endless_mono 31 n H) as (_ & T & Mi & Ma).
  cbv zeta in T, Mi, Ma.
  set (q := applyEndlessScaling _ n) in *.
  assert (T31 : Double.literal 0.99
                <= params_perfectThreshold
                     (applyEndlessScaling
                        (mkParams (Double.literal 1.5) (mkRange 50 90)
                                  (Double.literal 0.8) (Double.literal 0.08)
                                  10 1.5) 31))
    by (vm_compute; discriminate).
  assert (Mi31 : range_min (params_blockWidthRange
                   (applyEndlessScaling
                      (mkParams (Double.literal 1.5) (mkRange 50 90)
                                (Double.literal 0.8) (Double.literal 0.08)
                                10 1.5) 31)) <= 30)
    by (vm_compute; discriminate).
  assert (Ma31 : range_max (params_blockWidthRange
                   (applyEndlessScaling
                      (mkParams (Double.literal 1.5) (mkRange 50 90)
                                (Double.literal 0.8) (Double.literal 0.08)
                                10 1.5) 31)) <= 60)
    by (vm_compute; discriminate).
  assert (L1 : 30 <= range_min (params_blockWidthRange q)) by apply Q.le_max_l.
  assert (L2 : 60 <= range_max (params_blockWidthRange q)) by apply Q.le_max_l.
  assert (L3 : params_perfectThreshold q <= Double.literal 0.99)
    by apply Q.le_min_l.
  repeat split; apply Qle_antisym; lra.
Qed.

(** The block speed of an endless level is 0.15 times the level number up
    to the rounding of the four operations that compute it. *)
Lemma endless_speed_near (n : Z) :
  (7 < n)%Z ->
  let v := params_blockSpeed (calculateLevelParameters n) in
  0.15 * inject_Z n * (1 - (1 # 1125899906842624)) <= v /\
  v <= 0.15 * inject_Z n * (1 + (1 # 1125899906842624)).
Proof.
  intros H v. subst v.
  rewrite (calculateLevelParameters_beyond n H).
  destruct (Z_lt_le_dec n 10) as [Lt|Ge].
  - assert (E : n = 8%Z \/ n = 9%Z) by lia.
    destruct E as [-> | ->]; vm_compute; split; discriminate.
  - unfold applyEndlessScaling. cbn [params_blockSpeed].
    destruct scaling_constants as (C15 & C01 & _).
    assert (Hq : 10 <= inject_Z n).
    { change 10 with (inject_Z 10). rewrite <- Zle_Qle. exact Ge. }
    set (q := inject_Z n) in *.
    unfold Double.mul, Double.add, Double.sub.
    rewrite C15, C01.
    destruct (DoubleFacts.round_near (q - 10)) as [A1 A2]; [lra|].
    set (s := Double.round (q - 10)) in *.
    unfold Double.eps in *.
    destruct (DoubleFacts.round_near
                (s * (3602879701896397 # 36028797018963968)))
      as [B1 B2]; [lra|].
    set (t := Double.round (s * (3602879701896397 # 36028797018963968))) in *.
    unfold Double.eps in *.
    destruct (DoubleFacts.round_near (1 + t)) as [D1 D2]; [lra|].
    set (u := Double.round (1 + t)) in *.
    unfold Double.eps in *.
    destruct (DoubleFacts.round_near (1.5 * u)) as [E1 E2]; [lra|].
    unfold Double.eps in *.
    split; lra.
Qed.

(** C5: for every level number n > 7 the synthesized parameters are
    monotone from n to n+1 (block speed and perfect threshold do not
    decrease, both ends of the width range do not increase), the width range
    stays at or above its floors 30 and 60, and the perfect threshold stays
    at or below 0.99.  The parameters do scale: the speed rises with every
    level (up to level 10^9 at least), threshold and width range change
    with every level up to level 25, and from level 31 on the three clamps
    are what the formula returns: 30, 60 and the double of 0.99. *)
Theorem endless_scaling_monotone_clamped (n : Z) :
  (7 < n)%Z ->
  let p := calculateLevelParameters n in
  let p' := calculateLevelParameters (n + 1) in
  params_blockSpeed p <= params_blockSpeed p' /\
  params_perfectThreshold p <= params_perfectThreshold p' /\
  range_min (params_blockWidthRange p') <= range_min (params_blockWidthRange p) /\
  range_max (params_blockWidthRange p') <= range_max (params_blockWidthRange p) /\
  30 <= range_min (params_blockWidthRange p) /\
  60 <= range_max (params_blockWidthRange p) /\
  params_perfectThreshold p <= 0.99 /\
  ((n <= 1000000000)%Z -> params_blockSpeed p < params_blockSpeed p') /\
  ((n <= 25)%Z ->
   params_perfectThreshold p < params_perfectThreshold p' /\
   range_min (params_blockWidthRange p') < range_min (params_blockWidthRange p) /\
   range_max (params_blockWidthRange p') < range_max (params_blockWidthRange p)) /\
  ((31 <= n)%Z ->
   range_min (params_blockWidthRange p) == 30 /\
   range_max (params_blockWidthRange p) == 60 /\
   params_perfectThreshold p == Double.literal 0.99).
Proof.
  intros H p p'.
  assert (M : params_blockSpeed p <= params_blockSpeed p' /\
              params_perfectThreshold p <= params_perfectThreshold p' /\
              range_min (params_blockWidthRange p')
              <= range_min (params_blockWidthRange p) /\
              range_max (params_blockWidthRange p')
              <= range_max (params_blockWidthRange p)).
  { subst p p'. rewrite (calculateLevelParameters_beyond n H).
    rewrite (calculateLevelParameters_beyond (n + 1)) by lia.
    apply (endless_mono n (n + 1)). lia. }
  destruct M as (M1 & M2 & M3 & M4).
  assert (B : 30 <= range_min (params_blockWidthRange p) /\
              60 <= range_max (params_blockWidthRange p) /\
              params_perfectThreshold p <= Double.literal 0.99).
  { subst p. rewrite (calculateLevelParameters_beyond n H).
    unfold applyEndlessScaling.
    cbn [params_perfectThreshold params_blockWidthRange range_min range_max].
    split; [apply Q.le_max_l|]. split; [apply Q.le_max_l|apply Q.le_min_l]. }
  destruct B as (B1 & B2 & B3).
  destruct scaling_constants as (_ & _ & _ & _ & _ & C99 & _).
  repeat split; try assumption.
  - lra.
  - intro U.
    destruct (endless_speed_near n H) as [_ Up].
    destruct (endless_speed_near (n + 1)) as [Lo _]; [lia|].
    cbv zeta in Up, Lo. fold p in Up. fold p' in Lo.
    rewrite inject_Z_plus in Lo. change (inject_Z 1) with 1 in Lo.
    assert (Hq : 7 < inject_Z n <= 1000000000).
    { split.
      - change 7 with (inject_Z 7). rewrite <- Zlt_Qlt. exact H.
      - change 1000000000 with (inject_Z 1000000000).
        rewrite <- Zle_Qle. exact U. }
    lra.
  - assert (E : In n (map Z.of_nat (seq 8 18))).
    { apply in_map_iff. exists (Z.to_nat n). split; [lia|].
      apply in_seq. lia. }
    subst p p'. cbn [seq map In] in E.
    repeat (destruct E as [<-|E]; [vm_compute; reflexivity|]).
    contradiction.
  - assert (E : In n (map Z.of_nat (seq 8 18))).
    { apply in_map_iff. exists (Z.to_nat n). split; [lia|].
      apply in_seq. lia. }
    subst p p'. cbn [seq map In] in E.
    repeat (destruct E as [<-|E]; [vm_compute; reflexivity|]).
    contradiction.
  - assert (E : In n (map Z.of_nat (seq 8 18))).
    { apply in_map_iff. exists (Z.to_nat n). split; [lia|].
      apply in_seq. lia. }
    subst p p'. cbn [seq map In] in E.
    repeat (destruct E as [<-|E]; [vm_compute; reflexivity|]).
    contradiction.
  - apply (endless_saturated n). assumption.
  - apply (endless_saturated n). assumption.
  - apply (endless_saturated n). assumption.
Qed.

(** The statement at level 8, the first synthesized level (the speed rises
    from 1.2000000000000002 to 1.35), and the clamps at level 31. *)
Lemma endless_scaling_monotone_clamped_witness :
  params_blockSpeed (calculateLevelParameters 8)
  < params_blockSpeed (calculateLevelParameters 9) /\
  range_min (params_blockWidthRange (calculateLevelParameters 31)) == 30 /\
  params_perfectThreshold (calculateLevelParameters 31)
  == Double.literal 0.99.
Proof.
  split.
  - destruct (endless_scaling_monotone_clamped 8)
      as (_ & _ & _ & _ & _ & _ & _ & S & _); [lia|].
    apply S. lia.
  - destruct (endless_scaling_monotone_clamped 31)
      as (_ & _ & _ & _ & _ & _ & _ & _ & _ & C); [lia|].
    destruct C as (Hmin & _ & Hthr); [lia|].
    split; [exact Hmin|exact Hthr].
Defined.

End LevelFacts.

(** ** The session: block generation and the tail of a drop *)

Module GameFacts.
Import Game Notions.

Lemma generateNewBlock_some (o : Oracle) (g : GameState) lp :
  currentLevelParams g = Some lp ->
  exists g', generateNewBlock o g = Some g'.
Proof.
  intro H. unfold generateNewBlock. rewrite H.
  destruct (currentMechanic g) as [[]|]; eexists; reflexivity.
Qed.

Lemma generateNewBlock_board (o : Oracle) (g g' : GameState) :
  generateNewBlock o g = Some g' -> sameBoard g g'.
Proof.
  unfold generateNewBlock.
  destruct (currentLevelParams g) as [lp|] eqn:E; [|discriminate].
  destruct (currentMechanic g) as [[]|]; intro H; injection H as <-;
    constructor; try reflexivity; exact E.
Qed.

(** The block [generateNewBlock] hands out is moving and no narrower than
    [minBlockWidth * 0.7], whatever the draws are. *)
Lemma generateNewBlock_current (o : Oracle) (g g' : GameState) :
  0 <= minBlockWidth (config g) ->
  generateNewBlock o g = Some g' ->
  exists b, currentBlock g' = Some b /\ isMoving b = true /\
            minBlockWidth (config g) * 0.7 <= width b.
Proof.
  intros Hmin. unfold generateNewBlock.
  destruct (currentLevelParams g) as [lp|]; [|discriminate].
  set (w := Qmax (minBlockWidth (config g)) _).
  assert (Hw : minBlockWidth (config g) <= w) by apply Q.le_max_l.
  assert (Hscale : forall f, 0.7 <= f -> minBlockWidth (config g) * 0.7 <= w * f).
  { intros f Hf. nra. }
  assert (H7 : forall v, 0.7 <= Qmax 0.7 v) by (intro; apply Q.le_max_l).
  assert (H8 : forall v, 0.7 <= Qmax 0.8 v).
  { intro v. apply Qle_trans with 0.8; [lra|apply Q.le_max_l]. }
  assert (Hplain : minBlockWidth (config g) * 0.7 <= w) by lra.
  destruct (currentMechanic g) as [[]|]; intro H; injection H as <-;
    cbn [currentBlock set_currentBlock isGravityMechanic andb];
    try (destruct (truthy _));
    eexists; (split; [reflexivity|]); (split; [reflexivity|]);
    cbn [width set_verticalSpeed newBlock]; auto.
Qed.

Lemma addToTower_unfold (o : Oracle) (perfect : bool) (ov : Q) (cur : Block)
  (g : GameState) :
  addToTower o perfect ov cur g =
  match currentLevelConfig g with
  | None => (scored cur g, TypeError)
  | Some _ =>
      if quotaReached g then
        if (level g =? 7)%Z
        then (showGameCompleted (scored cur g), GameCompleted)
        else finish o perfect ov (10 + level g * 5) (advanced cur g)
      else finish o perfect ov (10 + level g * 5) (scored cur g)
  end.
Proof.
  unfold addToTower, quotaReached.
  destruct (currentLevelConfig g) eqn:E.
  - cbn [currentLevelConfig set_score set_blocksInCurrentLevel
         set_blocksPlaced set_tower]. rewrite E. reflexivity.
  - cbn [currentLevelConfig set_score set_blocksInCurrentLevel
         set_blocksPlaced set_tower]. rewrite E. reflexivity.
Qed.

Lemma finish_board (o : Oracle) (perfect : bool) (ov : Q) (base : Z)
  (g : GameState) lp :
  currentLevelParams g = Some lp ->
  exists g', generateNewBlock o g = Some g' /\
             sameBoard g g' /\
             finish o perfect ov base g =
             (g', Dropped perfect ov
                    (base + (if perfect then 100 * comboStreak g else 0))%Z).
Proof.
  intro Hp. destruct (generateNewBlock_some o g lp Hp) as [g' E].
  exists g'. pose proof (generateNewBlock_board o g g' E) as B.
  split; [exact E|]. split; [exact B|].
  unfold finish. rewrite E. rewrite (same_comboStreak _ _ B). reflexivity.
Qed.

Lemma addToTower_cases (o : Oracle) (perfect : bool) (ov : Q) (cur : Block)
  (g : GameState) lc lp :
  currentLevelConfig g = Some lc ->
  currentLevelParams g = Some lp ->
  Placement o perfect ov cur g (addToTower o perfect ov cur g).
Proof.
  intros Hc Hp. rewrite addToTower_unfold, Hc.
  destruct (quotaReached g) eqn:HQ.
  - destruct (Z.eqb_spec (level g) 7) as [L|L].
    + apply placed_completed; assumption.
    + destruct (finish_board o perfect ov (10 + level g * 5) (advanced cur g)
                  (Levels.calculateLevelParameters (level g + 1)) eq_refl)
        as (g' & E & B & F).
      cbn [comboStreak advanced] in F.
      rewrite F. apply placed_advanced; assumption.
  - destruct (finish_board o perfect ov (10 + level g * 5) (scored cur g) lp Hp)
      as (g' & E & B & F).
    cbn [comboStreak scored] in F.
    rewrite F. apply placed_next; assumption.
Qed.

(** Facts every placement shares. *)
Lemma Placement_board (o : Oracle) (perfect : bool) (ov : Q) (cur : Block)
  (g : GameState) (r : GameState * DropResult) :
  Placement o perfect ov cur g r ->
  tower (fst r) = tower g ++ [cur] /\
  blocksPlaced (fst r) = (blocksPlaced g + 1)%Z /\
  score (fst r) = (score g + (10 + level g * 5))%Z /\
  comboStreak (fst r) = comboStreak g /\
  config (fst r) = config g /\
  snd r <> BlockTooSmall /\ snd r <> BlockMissed /\ snd r <> TypeError /\
  snd r <> NoBlockToDrop.
Proof.
  destruct 1 as [HQ L|g' HQ L E B|g' HQ E B]; cbn [fst snd].
  - cbn. repeat split; congruence.
  - destruct B. cbn in *. repeat split; congruence.
  - destruct B. cbn in *. repeat split; congruence.
Qed.

(** ** The first half of a drop *)

Lemma width_landed (g : GameState) (cb top : Block) :
  width (landed g cb top) = width cb.
Proof. reflexivity. Qed.

Lemma width_shrink (cfg : Config) (w : Q) (b : Block) :
  width (shrink cfg w b) = Qmax w (relaxedMinWidth cfg).
Proof. reflexivity. Qed.

(** The width test that follows [shrink] in [dropBlock] never succeeds. *)
Lemma shrink_not_below (cfg : Config) (w : Q) (b : Block) :
  Qlt_bool (width (shrink cfg w b)) (relaxedMinWidth cfg) = false.
Proof.
  apply Qlt_bool_false_iff. rewrite width_shrink. apply Q.le_max_r.
Qed.

Lemma calculateOverlap_nonneg (b1 b2 : Block) : 0 <= calculateOverlap b1 b2.
Proof. unfold calculateOverlap. apply Q.le_max_l. Qed.

Lemma dropBlock_miss (o : Oracle) (g : GameState) (cb top : Block) :
  Droppable g cb top ->
  calculateOverlap cb top <= 0 ->
  dropBlock o g =
  (set_currentBlock (Some (addFailureAnimations_miss o cb))
     (set_isActive false g), BlockMissed).
Proof.
  intros [Hc Hm Ht] Hov. unfold dropBlock.
  rewrite Hc, Hm, Ht. cbn [negb].
  apply Qle_bool_iff in Hov. rewrite Hov. reflexivity.
Qed.

Lemma popup_shows (o : Oracle) (g : GameState) :
  PopupShows o g <-> precisionPopupThrows o g = false.
Proof.
  unfold PopupShows, precisionPopupThrows, showScorePopup.
  destruct (currentMechanic g) as [[]|]; destruct (canvasPresent o);
    cbn [negb]; split;
    try (intros _; reflexivity);
    try (intros _ H; discriminate H);
    try (intros H _; discriminate H);
    try (intros H; specialize (H eq_refl); discriminate H);
    try (intros H; discriminate H).
Qed.

Lemma dropBlock_perfect (o : Oracle) (g : GameState) (cb top : Block) :
  Droppable g cb top ->
  0 < calculateOverlap cb top ->
  perfectAlignment g (landed g cb top) top (calculateOverlap cb top) = true ->
  PopupShows o g ->
  dropBlock o g =
  addToTower o true (calculateOverlap cb top)
             (set_perfectDrop true (landed g cb top)) (rewarded g cb top).
Proof.
  intros [Hc Hm Ht] Hov Hp Hs. unfold dropBlock.
  rewrite Hc, Hm, Ht. cbn [negb].
  apply Qle_bool_false_iff in Hov. rewrite Hov.
  cbn [config set_comboStreak set_score].
  fold (landed g cb top). rewrite Hp.
  apply popup_shows in Hs.
  change (precisionPopupThrows o (set_comboStreak (comboStreak g + 1) g))
    with (precisionPopupThrows o g).
  rewrite Hs. reflexivity.
Qed.

(** Under precision_challenge, without the canvas, a perfect drop ends in
    the popup: the streak is raised, the block has landed, and nothing else
    is done. *)
Lemma dropBlock_popup_throws (o : Oracle) (g : GameState) (cb top : Block) :
  Droppable g cb top ->
  0 < calculateOverlap cb top ->
  perfectAlignment g (landed g cb top) top (calculateOverlap cb top) = true ->
  ~ PopupShows o g ->
  dropBlock o g =
  (set_currentBlock (Some (landed g cb top))
     (set_comboStreak (comboStreak g + 1) g), TypeError).
Proof.
  intros [Hc Hm Ht] Hov Hp Hs. unfold dropBlock.
  rewrite Hc, Hm, Ht. cbn [negb].
  apply Qle_bool_false_iff in Hov. rewrite Hov.
  cbn [config set_comboStreak set_score].
  fold (landed g cb top). rewrite Hp.
  change (precisionPopupThrows o (set_comboStreak (comboStreak g + 1) g))
    with (precisionPopupThrows o g).
  destruct (precisionPopupThrows o g) eqn:E; [reflexivity|].
  exfalso. apply Hs. apply popup_shows. exact E.
Qed.

Lemma PopupShows_dec (o : Oracle) (g : GameState) :
  PopupShows o g \/ ~ PopupShows o g.
Proof.
  destruct (precisionPopupThrows o g) eqn:E.
  - right. intro H. apply popup_shows in H. congruence.
  - left. apply popup_shows. exact E.
Qed.

Lemma dropBlock_imperfect (o : Oracle) (g : GameState) (cb top : Block) :
  Droppable g cb top ->
  0 < calculateOverlap cb top ->
  perfectAlignment g (landed g cb top) top (calculateOverlap cb top) = false ->
  dropBlock o g =
  addToTower o false (calculateOverlap cb top)
             (shrink (config g) (calculateOverlap cb top) (landed g cb top))
             (trimmed g cb top).
Proof.
  intros [Hc Hm Ht] Hov Hp. unfold dropBlock.
  rewrite Hc, Hm, Ht. cbn [negb].
  apply Qle_bool_false_iff in Hov. rewrite Hov.
  cbn [config set_comboStreak set_score set_currentBlock].
  fold (landed g cb top). rewrite Hp.
  unfold checkWidthThenAdd.
  cbn [config set_comboStreak set_score set_currentBlock].
  rewrite shrink_not_below. reflexivity.
Qed.

(** The width the threshold is taken from is the smaller of the two. *)
Lemma thresholdBlock_width (b top : Block) :
  width (thresholdBlock b top) == Qmin (width b) (width top).
Proof.
  unfold thresholdBlock.
  destruct (Qlt_bool (width b) (width top)) eqn:E.
  - apply Qlt_bool_iff in E. symmetry. apply Q.min_l. lra.
  - apply Qlt_bool_false_iff in E. symmetry. apply Q.min_r. exact E.
Qed.

Lemma perfectAlignment_iff (g : GameState) (b top : Block) (ov : Q) :
  perfectAlignment g b top ov = true <->
  Double.mul (Qmin (width b) (width top)) (perfectThreshold g) <= ov.
Proof.
  unfold perfectAlignment. rewrite Qle_bool_iff.
  rewrite (thresholdBlock_width b top). reflexivity.
Qed.

Lemma Settled_some (g : GameState) :
  Settled g ->
  exists lc lp, currentLevelConfig g = Some lc /\ currentLevelParams g = Some lp.
Proof.
  intros [Hc Hp].
  destruct (currentLevelConfig g) as [lc|]; [|congruence].
  destruct (currentLevelParams g) as [lp|]; [|congruence].
  eauto.
Qed.

(** A drop with positive overlap always runs the tail of [dropBlock], on the
    rewarded session if the alignment is perfect and on the trimmed one
    otherwise. *)
Lemma dropBlock_placement (o : Oracle) (g : GameState) (cb top : Block) :
  Droppable g cb top -> Settled g ->
  0 < calculateOverlap cb top ->
  let ov := calculateOverlap cb top in
  (perfectAlignment g (landed g cb top) top ov = true -> PopupShows o g) ->
  if perfectAlignment g (landed g cb top) top ov
  then Placement o true ov (set_perfectDrop true (landed g cb top))
                 (rewarded g cb top) (dropBlock o g)
  else Placement o false ov (shrink (config g) ov (landed g cb top))
                 (trimmed g cb top) (dropBlock o g).
Proof.
  intros D S Hov ov HS. subst ov.
  destruct (Settled_some g S) as (lc & lp & Hc & Hp).
  destruct (perfectAlignment g (landed g cb top) top (calculateOverlap cb top))
    eqn:E.
  - rewrite (dropBlock_perfect o g cb top D Hov E (HS eq_refl)).
    apply (addToTower_cases _ _ _ _ _ lc lp); assumption.
  - rewrite (dropBlock_imperfect o g cb top D Hov E).
    apply (addToTower_cases _ _ _ _ _ lc lp); assumption.
Qed.


Ltac placement_of o g cb top D S Hov HS P :=
  pose proof (dropBlock_placement o g cb top D S Hov HS) as P;
  cbv zeta in P.

Ltac placement_shown o g cb top D S Hov HS P :=
  pose proof (dropBlock_placement o g cb top D S Hov (fun _ => HS)) as P;
  cbv zeta in P.

(** ** Classification of a drop *)



(** ** Scoring and the combo streak *)

(** C2: a perfect drop (overlap at least the double product of the narrower
    width and the perfect threshold) raises the combo streak by 1; when the
    popup of a precision_challenge level finds its canvas (no other level
    shows one inside the drop), the block is placed with its width unchanged
    and the score gains 100 * comboStreak * comboMultiplier besides the base
    points, the multiplier being 2 under precision_challenge and 1 otherwise
    (so streaks 1, 2, 3 pay 100, 200, 300 without the multiplier); when the
    popup does not find the canvas, the drop ends in a TypeError with the
    streak raised, the block unplaced and no points paid.  An imperfect
    drop places the block and resets the streak to 0. *)
Theorem perfect_drop_keeps_width_and_pays_combo (o : Oracle) (g : GameState)
  (cb top : Block) :
  Droppable g cb top -> Settled g ->
  0 < calculateOverlap cb top ->
  let ov := calculateOverlap cb top in
  let w := Qmin (width cb) (width top) in
  let g' := fst (dropBlock o g) in
  let mult :=
    match currentMechanic g with
    | Some Levels.precision_challenge => 2%Z
    | _ => 1%Z
    end in
  (Double.mul w (perfectThreshold g) <= ov ->
     comboStreak g' = (comboStreak g + 1)%Z /\
     (PopupShows o g ->
      (exists b, tower g' = tower g ++ [b] /\ width b = width cb) /\
      score g'
      = (score g + 100 * comboStreak g' * mult + (10 + level g * 5))%Z /\
      (mult = 1%Z -> forall k, (0 <= k < 3)%Z -> comboStreak g = k ->
       (score g' - score g - (10 + level g * 5) = 100 * (k + 1))%Z)) /\
     (~ PopupShows o g ->
      snd (dropBlock o g) = TypeError /\
      tower g' = tower g /\ score g' = score g /\
      blocksPlaced g' = blocksPlaced g /\
      exists b, currentBlock g' = Some b /\ width b = width cb)) /\
  (ov < Double.mul w (perfectThreshold g) ->
     (exists b, tower g' = tower g ++ [b]) /\ comboStreak g' = 0%Z).
Proof.
  intros D S Hov ov w g' mult.
  pose proof (perfectAlignment_iff g (landed g cb top) top ov) as I.
  rewrite width_landed in I. fold w in I.
  split.
  - intro Hw. apply I in Hw.
    assert (A : PopupShows o g ->
                tower g' = tower (rewarded g cb top)
                           ++ [set_perfectDrop true (landed g cb top)] /\
                score g' = (score (rewarded g cb top) + (10 + level g * 5))%Z /\
                comboStreak g' = comboStreak (rewarded g cb top)).
    { intro HS. placement_shown o g cb top D S Hov HS P. fold ov in P.
      rewrite Hw in P. apply Placement_board in P.
      destruct P as (Ht & _ & Hs & Hc & _). auto. }
    cbn [rewarded comboStreak set_currentBlock set_score set_comboStreak
         score level tower] in A.
    assert (Hm : comboMultiplier g = mult) by reflexivity.
    assert (B : ~ PopupShows o g ->
                dropBlock o g
                = (set_currentBlock (Some (landed g cb top))
                     (set_comboStreak (comboStreak g + 1) g), TypeError)).
    { intro HS. apply (dropBlock_popup_throws o g cb top D Hov Hw HS). }
    split; [|split].
    + destruct (PopupShows_dec o g) as [HS|HS].
      * apply A. exact HS.
      * unfold g'. rewrite (B HS). reflexivity.
    + intro HS. destruct (A HS) as (Ht & Hs & Hc).
      split; [eexists; split; [exact Ht|reflexivity]|].
      split; [rewrite Hs, Hc, Hm; reflexivity|].
      intros M k Hk Hg. rewrite Hs, Hm, M, Hg. lia.
    + intro HS. unfold g'. rewrite (B HS).
      cbn [fst snd tower score blocksPlaced currentBlock set_currentBlock
           set_comboStreak].
      repeat split. eexists. split; [reflexivity|]. apply width_landed.
  - intro Hw.
    assert (E : perfectAlignment g (landed g cb top) top ov = false).
    { destruct (perfectAlignment g (landed g cb top) top ov); [|reflexivity].
      exfalso.
      assert (T : Double.mul w (perfectThreshold g) <= ov)
        by (apply I; reflexivity).
      apply (Qlt_not_le _ _ Hw T). }
    assert (HS : perfectAlignment g (landed g cb top) top ov = true ->
                 PopupShows o g) by (rewrite E; discriminate).
    placement_of o g cb top D S Hov HS P. fold ov in P.
    rewrite E in P. apply Placement_board in P.
    destruct P as (Ht & _ & _ & Hc & _). fold g' in Ht, Hc.
    split; [eexists; exact Ht | exact Hc].
Qed.

(** A perfect drop at overlap 80 of 100: streak 1, bonus 100, base 60.
    The perfect first drop of a level 4 session on a page without the
    canvas: a TypeError, nothing placed or paid, streak 1. *)
Lemma perfect_drop_keeps_width_and_pays_combo_witness :
  (comboStreak (fst (dropBlock sampleOracle (sampleSession 20))) = 1%Z /\
   score (fst (dropBlock sampleOracle (sampleSession 20))) = 160%Z) /\
  (snd (dropBlock noCanvasOracle precisionSession) = TypeError /\
   tower (fst (dropBlock noCanvasOracle precisionSession))
   = tower precisionSession /\
   score (fst (dropBlock noCanvasOracle precisionSession)) = 0%Z /\
   comboStreak (fst (dropBlock noCanvasOracle precisionSession)) = 1%Z).
Proof.
  split.
  - destruct (perfect_drop_keeps_width_and_pays_combo sampleOracle
                (sampleSession 20) (newBlock 1 100 20 710 1.5 true)
                (place (newBlock 0 100 0 770 0 false))) as [P _].
    + constructor; reflexivity.
    + constructor; discriminate.
    + vm_compute. reflexivity.
    + destruct P as (Hc & P & _).
      * vm_compute. discriminate.
      * destruct P as (_ & Hs & _).
        -- intro. reflexivity.
        -- split; [exact Hc|]. rewrite Hs, Hc. reflexivity.
  - edestruct (perfect_drop_keeps_width_and_pays_combo noCanvasOracle
                 precisionSession) as [P _].
    + constructor; vm_compute; reflexivity.
    + constructor; vm_compute; discriminate.
    + vm_compute. reflexivity.
    + destruct P as (Hc & _ & P).
      * vm_compute. discriminate.
      * destruct P as (R & T & Sc & _).
        -- intro H.
           assert (M : currentMechanic precisionSession
                       = Some Levels.precision_challenge)
             by (vm_compute; reflexivity).
           specialize (H M). vm_compute in H. discriminate H.
        -- split; [exact R|]. split; [exact T|].
           split; [rewrite Sc; vm_compute; reflexivity|].
           rewrite Hc. vm_compute. reflexivity.
Defined.

(** ** A miss *)

(** C7: a drop whose block has no overlap with the tower top is reported as
    a miss (the result with the message [Block missed the tower!]) and ends
    the session; tower, score, combo streak, both block counters and the
    level are as before. *)
Theorem miss_ends_session_only (o : Oracle) (g : GameState) (cb top : Block) :
  Droppable g cb top ->
  calculateOverlap cb top == 0 ->
  let g' := fst (dropBlock o g) in
  let r := snd (dropBlock o g) in
  r = BlockMissed /\
  message r = Some "Block missed the tower!"%string /\
  gameOver r = true /\
  isActive g' = false /\
  tower g' = tower g /\
  score g' = score g /\
  comboStreak g' = comboStreak g /\
  blocksPlaced g' = blocksPlaced g /\
  blocksInCurrentLevel g' = blocksInCurrentLevel g /\
  level g' = level g.
Proof.
  intros D Hov g' r. subst g' r.
  rewrite (dropBlock_miss o g cb top D) by (rewrite Hov; apply Qle_refl).
  cbn. repeat split; reflexivity.
Qed.

(** A release at x = 100 beside a top block spanning 0..100. *)
Lemma miss_ends_session_only_witness :
  snd (dropBlock sampleOracle (sampleSession 100)) = BlockMissed /\
  isActive (fst (dropBlock sampleOracle (sampleSession 100))) = false.
Proof.
  destruct (miss_ends_session_only sampleOracle (sampleSession 100)
              (newBlock 1 100 100 710 1.5 true)
              (place (newBlock 0 100 0 770 0 false)))
    as (R & _ & _ & A & _).
  - constructor; reflexivity.
  - vm_compute. reflexivity.
  - split; [exact R | exact A].
Defined.

(** ** Level progression *)

Lemma Placement_advanced (o : Oracle) (perfect : bool) (ov : Q) (cur : Block)
  (g : GameState) (r : GameState * DropResult) :
  Placement o perfect ov cur g r ->
  quotaReached g = true -> level g <> 7%Z ->
  level (fst r) = (level g + 1)%Z /\
  blocksInCurrentLevel (fst r) = 0%Z /\
  currentLevelConfig (fst r) = Some (Levels.getLevelConfig (level g + 1)) /\
  currentLevelParams (fst r)
    = Some (Levels.calculateLevelParameters (level g + 1)) /\
  perfectThreshold (fst r)
    = Levels.params_perfectThreshold
        (Levels.calculateLevelParameters (level g + 1)).
Proof.
  destruct 1 as [HQ L|g' HQ L E B|g' HQ E B]; intros HQ' L'; cbn [fst];
    try congruence.
  destruct B. cbn in *. repeat split; congruence.
Qed.

Lemma Placement_next (o : Oracle) (perfect : bool) (ov : Q) (cur : Block)
  (g : GameState) (r : GameState * DropResult) :
  Placement o perfect ov cur g r ->
  quotaReached g = false ->
  generateNewBlock o (scored cur g) = Some (fst r) /\
  sameBoard (scored cur g) (fst r).
Proof.
  destruct 1 as [HQ L|g' HQ L E B|g' HQ E B]; intros HQ'; cbn [fst];
    try congruence.
  split; assumption.
Qed.

(** C8: every drop with positive overlap that gets past the popup of a
    perfect drop (any drop outside precision_challenge, and under it any
    imperfect drop and any perfect drop whose popup finds the canvas) adds
    the base points 10 + level * 5 (besides the combo bonus of a perfect
    drop) and counts one more block placed; when it fills the quota of a
    level other than 7 (with quota 3: the third block of the level), the
    level goes up by exactly one, the per-level counter restarts at 0 and
    the level settings, perfect threshold included, are those computed for
    the new level.  A perfect drop whose popup does not find the canvas
    ends in a TypeError before any of this: score, both counters and the
    level stay as they were. *)
Theorem quota_drop_advances_level (o : Oracle) (g : GameState)
  (cb top : Block) (lc : Levels.LevelConfig) :
  Droppable g cb top ->
  currentLevelConfig g = Some lc -> currentLevelParams g <> None ->
  0 < calculateOverlap cb top ->
  let ov := calculateOverlap cb top in
  let g' := fst (dropBlock o g) in
  let perfect := perfectAlignment g (landed g cb top) top ov in
  let bonus :=
    if perfect
    then (100 * (comboStreak g + 1) * comboMultiplier g)%Z else 0%Z in
  ((perfect = true -> PopupShows o g) ->
   score g' = (score g + bonus + (10 + level g * 5))%Z /\
   blocksPlaced g' = (blocksPlaced g + 1)%Z /\
   (forall q, Levels.blocksToComplete lc = Some q -> q <> 0%Z ->
      (q <= blocksInCurrentLevel g + 1)%Z -> level g <> 7%Z ->
      level g' = (level g + 1)%Z /\
      blocksInCurrentLevel g' = 0%Z /\
      currentLevelConfig g' = Some (Levels.getLevelConfig (level g + 1)) /\
      currentLevelParams g'
        = Some (Levels.calculateLevelParameters (level g + 1)) /\
      perfectThreshold g'
        = Levels.params_perfectThreshold
            (Levels.calculateLevelParameters (level g + 1)))) /\
  (perfect = true -> ~ PopupShows o g ->
   snd (dropBlock o g) = TypeError /\
   score g' = score g /\
   blocksPlaced g' = blocksPlaced g /\
   blocksInCurrentLevel g' = blocksInCurrentLevel g /\
   level g' = level g).
Proof.
  intros D Hc Hp Hov ov g' perfect bonus.
  assert (S : Settled g) by (constructor; congruence).
  split.
  - intro HS.
    placement_of o g cb top D S Hov HS P. fold ov in P.
    assert (HQ : forall st, currentLevelConfig st = Some lc ->
               blocksInCurrentLevel st = blocksInCurrentLevel g ->
               forall q, Levels.blocksToComplete lc = Some q -> q <> 0%Z ->
               (q <= blocksInCurrentLevel g + 1)%Z -> quotaReached st = true).
    { intros st Hst Hk q Hq Hq0 Hle. unfold quotaReached.
      rewrite Hst, Hq, Hk. apply andb_true_iff. split.
      - apply negb_true_iff. apply Z.eqb_neq. exact Hq0.
      - apply Z.leb_le. exact Hle. }
    subst bonus perfect. clear HS.
    destruct (perfectAlignment g (landed g cb top) top ov).
    + pose proof (Placement_board _ _ _ _ _ _ P) as (_ & Hb & Hs & _).
      fold g' in Hb, Hs.
      cbn [rewarded trimmed score level blocksPlaced set_currentBlock
           set_score set_comboStreak] in Hb, Hs.
      split; [rewrite Hs; lia|]. split; [exact Hb|].
      intros q Hq Hq0 Hle L.
      apply (Placement_advanced _ _ _ _ _ _ P).
      * apply (HQ _ Hc eq_refl q Hq Hq0 Hle).
      * exact L.
    + pose proof (Placement_board _ _ _ _ _ _ P) as (_ & Hb & Hs & _).
      fold g' in Hb, Hs.
      cbn [rewarded trimmed score level blocksPlaced set_currentBlock
           set_score set_comboStreak] in Hb, Hs.
      split; [rewrite Hs; lia|]. split; [exact Hb|].
      intros q Hq Hq0 Hle L.
      apply (Placement_advanced _ _ _ _ _ _ P).
      * apply (HQ _ Hc eq_refl q Hq Hq0 Hle).
      * exact L.
  - intros E HS. unfold g'.
    rewrite (dropBlock_popup_throws o g cb top D Hov E HS).
    repeat split.
Qed.

(** The third block of level 1, dropped squarely on the second.  The
    perfect first drop of a level 4 session on a page without the canvas:
    a TypeError, no points and no block counted. *)
Lemma quota_drop_advances_level_witness :
  (level (fst (dropBlock sampleOracle (thirdDropSession 320))) = 2%Z /\
   blocksInCurrentLevel (fst (dropBlock sampleOracle (thirdDropSession 320)))
     = 0%Z /\
   blocksPlaced (fst (dropBlock sampleOracle (thirdDropSession 320))) = 3%Z) /\
  (snd (dropBlock noCanvasOracle precisionSession) = TypeError /\
   score (fst (dropBlock noCanvasOracle precisionSession)) = 0%Z /\
   blocksPlaced (fst (dropBlock noCanvasOracle precisionSession)) = 0%Z).
Proof.
  split.
  - destruct (quota_drop_advances_level sampleOracle (thirdDropSession 320)
                (newBlock 3 160 320 680 0.4 true)
                (place (newBlock 2 160 320 710 0 false))
                (Levels.getLevelConfig 1))
      as ((_ & Hb & A) & _).
    + constructor; reflexivity.
    + reflexivity.
    + discriminate.
    + vm_compute. reflexivity.
    + intros _ H. vm_compute in H. discriminate.
    + destruct (A 3%Z) as (L & K & _).
      * reflexivity.
      * discriminate.
      * vm_compute. discriminate.
      * discriminate.
      * split; [exact L|]. split; [exact K|exact Hb].
  - edestruct (quota_drop_advances_level noCanvasOracle precisionSession)
      with (lc := Levels.getLevelConfig 4) as (_ & A).
    + constructor; vm_compute; reflexivity.
    + vm_compute. reflexivity.
    + vm_compute. discriminate.
    + vm_compute. reflexivity.
    + destruct A as (R & Sc & Bp & _).
      * vm_compute. reflexivity.
      * intro H.
        assert (M : currentMechanic precisionSession
                    = Some Levels.precision_challenge)
          by (vm_compute; reflexivity).
        specialize (H M). vm_compute in H. discriminate H.
      * split; [exact R|].
        split; [rewrite Sc|rewrite Bp]; vm_compute; reflexivity.
Defined.

(** ** The width floor *)

Lemma addToTower_tower (o : Oracle) (perfect : bool) (ov : Q) (cur : Block)
  (g : GameState) :
  tower (fst (addToTower o perfect ov cur g)) = tower g ++ [cur] /\
  snd (addToTower o perfect ov cur g) <> BlockTooSmall.
Proof.
  rewrite addToTower_unfold.
  assert (F : forall base st, tower st = tower g ++ [cur] ->
            tower (fst (finish o perfect ov base st)) = tower g ++ [cur] /\
            snd (finish o perfect ov base st) <> BlockTooSmall).
  { intros base st Hst. unfold finish.
    destruct (generateNewBlock o st) as [g'|] eqn:E; cbn [fst snd].
    - apply generateNewBlock_board in E. destruct E.
      split; [congruence|discriminate].
    - split; [exact Hst|discriminate]. }
  destruct (currentLevelConfig g).
  - destruct (quotaReached g).
    + destruct (level g =? 7)%Z.
      * cbn. split; [reflexivity|discriminate].
      * apply F. reflexivity.
    + apply F. reflexivity.
  - cbn. split; [reflexivity|discriminate].
Qed.

(** Whatever the session, [dropBlock] never reports the too-small outcome. *)
Lemma dropBlock_never_too_small (o : Oracle) (g : GameState) :
  snd (dropBlock o g) <> BlockTooSmall.
Proof.
  unfold dropBlock.
  destruct (currentBlock g) as [cb|]; [|discriminate].
  destruct (isMoving cb); cbn [negb]; [|discriminate].
  destruct (lastTowerBlock g) as [top|]; [|discriminate].
  destruct (Qle_bool (calculateOverlap cb top) 0); [discriminate|].
  match goal with |- context [if ?c then _ else _] => destruct c end.
  - match goal with |- context [if ?c then _ else _] => destruct c end.
    + discriminate.
    + exact (proj2 (addToTower_tower _ _ _ _ _)).
  - unfold checkWidthThenAdd.
    cbn [config set_currentBlock set_comboStreak].
    rewrite shrink_not_below. exact (proj2 (addToTower_tower _ _ _ _ _)).
Qed.

(** Every drop with positive overlap that gets past the popup of a perfect
    drop appends a block to the tower. *)
Lemma dropBlock_appends (o : Oracle) (g : GameState) (cb top : Block) :
  Droppable g cb top -> 0 < calculateOverlap cb top ->
  (perfectAlignment g (landed g cb top) top (calculateOverlap cb top) = true ->
   PopupShows o g) ->
  exists b, tower (fst (dropBlock o g)) = tower g ++ [b].
Proof.
  intros D Hov HS.
  destruct (perfectAlignment g (landed g cb top) top (calculateOverlap cb top))
    eqn:E.
  - rewrite (dropBlock_perfect o g cb top D Hov E (HS eq_refl)).
    eexists. exact (proj1 (addToTower_tower _ _ _ _ _)).
  - rewrite (dropBlock_imperfect o g cb top D Hov E).
    eexists. exact (proj1 (addToTower_tower _ _ _ _ _)).
Qed.

(** C10: no drop ever ends with the too-small outcome.  The width test that
    follows [shrink] compares the clamped width with the very floor it was
    clamped to and is always false, so every drop with positive overlap
    that gets past the popup of a perfect drop appends its block to the
    tower.  A perfect drop whose popup does not find the canvas ends in a
    TypeError instead, and the tower is as it was. *)
Theorem too_small_branch_unreachable (o : Oracle) (g : GameState) :
  snd (dropBlock o g) <> BlockTooSmall /\
  (forall w b,
     Qlt_bool (width (shrink (config g) w b))
              (Qmax (minBlockWidth (config g) * 0.7) 20) = false) /\
  (forall cb top, Droppable g cb top -> 0 < calculateOverlap cb top ->
     let perfect :=
       perfectAlignment g (landed g cb top) top (calculateOverlap cb top) in
     ((perfect = true -> PopupShows o g) ->
      exists b, tower (fst (dropBlock o g)) = tower g ++ [b]) /\
     (perfect = true -> ~ PopupShows o g ->
      snd (dropBlock o g) = TypeError /\
      tower (fst (dropBlock o g)) = tower g)).
Proof.
  split; [|split].
  - apply dropBlock_never_too_small.
  - intros w b. apply (shrink_not_below (config g) w b).
  - intros cb top D Hov perfect. split.
    + apply dropBlock_appends; assumption.
    + intros E HS. rewrite (dropBlock_popup_throws o g cb top D Hov E HS).
      split; reflexivity.
Qed.

(** A sliver of overlap (1 of 100) still places the block, 28 wide.  The
    perfect first drop of a level 4 session on a page without the canvas
    places nothing. *)
Lemma too_small_branch_unreachable_witness :
  (exists b, tower (fst (dropBlock sampleOracle (sampleSession 99)))
             = tower (sampleSession 99) ++ [b]) /\
  (snd (dropBlock noCanvasOracle precisionSession) = TypeError /\
   tower (fst (dropBlock noCanvasOracle precisionSession))
   = tower precisionSession).
Proof.
  split.
  - destruct (too_small_branch_unreachable sampleOracle (sampleSession 99))
      as (_ & _ & A).
    apply (A (newBlock 1 100 99 710 1.5 true)
             (place (newBlock 0 100 0 770 0 false))).
    + constructor; reflexivity.
    + vm_compute. reflexivity.
    + intros _ H. vm_compute in H. discriminate.
  - destruct (too_small_branch_unreachable noCanvasOracle precisionSession)
      as (_ & _ & A).
    eapply A.
    + constructor; vm_compute; reflexivity.
    + vm_compute. reflexivity.
    + vm_compute. reflexivity.
    + intro H.
      assert (M : currentMechanic precisionSession
                  = Some Levels.precision_challenge)
        by (vm_compute; reflexivity).
      specialize (H M). vm_compute in H. discriminate H.
Defined.

(** ** Shrinking *)

Lemma calculateOverlap_le_width (b1 b2 : Block) :
  0 <= width b1 -> calculateOverlap b1 b2 <= width b1.
Proof.
  intro H. unfold calculateOverlap. apply Q.max_lub; [exact H|].
  pose proof (Q.le_min_l (position_x b1 + width b1) (position_x b2 + width b2)).
  pose proof (Q.le_max_l (position_x b1) (position_x b2)).
  lra.
Qed.

Lemma relaxedMinWidth_pos (cfg : Config) : 0 < relaxedMinWidth cfg.
Proof.
  unfold relaxedMinWidth.
  pose proof (Q.le_max_r (minBlockWidth cfg * 0.7) 20). lra.
Qed.

(** C3, as the code has it: [shrink] sets the width to
    max(requested, floor) with floor = max(minBlockWidth * 0.7, 20), which
    is 28 for minBlockWidth 40.  The result is never below the floor; it
    does not exceed the old width when the request does not and the block
    was not already below the floor.  On an imperfect drop (overlap below
    the double product of the narrower width and the perfect threshold) the
    placed block is max(overlap, floor) wide, which is no wider than the
    block was if the block was at least floor wide. *)
Theorem shrink_clamps_to_floor :
  (forall (cfg : Config) (w : Q) (b : Block),
     let floor := Qmax (minBlockWidth cfg * 0.7) 20 in
     width (shrink cfg w b) == Qmax w floor /\
     floor <= width (shrink cfg w b) /\
     (w <= width b -> floor <= width b -> width (shrink cfg w b) <= width b) /\
     (minBlockWidth cfg == 40 -> floor == 28)) /\
  (forall (o : Oracle) (g : GameState) (cb top : Block),
     Droppable g cb top ->
     0 < calculateOverlap cb top ->
     calculateOverlap cb top
       < Double.mul (Qmin (width cb) (width top)) (perfectThreshold g) ->
     let floor := Qmax (minBlockWidth (config g) * 0.7) 20 in
     exists b, tower (fst (dropBlock o g)) = tower g ++ [b] /\
               width b == Qmax (calculateOverlap cb top) floor /\
               (floor <= width cb -> width b <= width cb)).
Proof.
  split.
  - intros cfg w b floor. rewrite width_shrink.
    fold (relaxedMinWidth cfg) in floor. subst floor.
    split; [reflexivity|]. split; [apply Q.le_max_r|]. split.
    + intros Hw Hf. apply Q.max_lub; assumption.
    + intro H40. unfold relaxedMinWidth. rewrite H40.
      vm_compute. split; reflexivity.
  - intros o g cb top D Hov Hlt floor.
    assert (E : perfectAlignment g (landed g cb top) top
                  (calculateOverlap cb top) = false).
    { destruct (perfectAlignment g (landed g cb top) top
                  (calculateOverlap cb top)) eqn:E; [|reflexivity].
      apply perfectAlignment_iff in E. rewrite width_landed in E.
      exfalso. apply (Qlt_not_le _ _ Hlt E). }
    rewrite (dropBlock_imperfect o g cb top D Hov E).
    eexists. split; [exact (proj1 (addToTower_tower _ _ _ _ _))|].
    rewrite width_shrink. fold (relaxedMinWidth (config g)) in floor.
    subst floor. split; [reflexivity|].
    intro Hf. apply Q.max_lub; [|exact Hf].
    apply calculateOverlap_le_width.
    pose proof (relaxedMinWidth_pos (config g)). lra.
Qed.

(** An imperfect drop at overlap 79 of 100 leaves a block 79 wide. *)
Lemma shrink_clamps_to_floor_witness :
  exists b, tower (fst (dropBlock sampleOracle (sampleSession 21)))
            = tower (sampleSession 21) ++ [b] /\
            width b == 79.
Proof.
  destruct (proj2 shrink_clamps_to_floor sampleOracle (sampleSession 21)
              (newBlock 1 100 21 710 1.5 true)
              (place (newBlock 0 100 0 770 0 false)))
    as (b & Ht & Hw & _).
  - constructor; reflexivity.
  - vm_compute. reflexivity.
  - vm_compute. reflexivity.
  - exists b. split; [exact Ht|]. rewrite Hw. vm_compute. reflexivity.
Defined.

(** C3 as stated fails: [shrink] widens a 50 wide block asked to become 60
    wide, and widens a 25 wide block asked to become 10 wide (to the floor,
    28). *)
Lemma shrink_can_widen :
  width (shrink defaultConfig 60 (newBlock 1 50 0 0 0 true)) == 60 /\
  width (shrink defaultConfig 10 (newBlock 1 25 0 0 0 true)) == 28 /\
  ~ (forall (cfg : Config) (w : Q) (b : Block),
       width (shrink cfg w b) <= width b).
Proof.
  split; [vm_compute; reflexivity|]. split; [vm_compute; reflexivity|].
  intro H. specialize (H defaultConfig 60 (newBlock 1 50 0 0 0 true)).
  revert H. apply Qlt_not_le. vm_compute. reflexivity.
Qed.

(** ** Tower stability *)

Lemma offsetLoop_sum (rest : list Block) :
  forall (acc : Q) (previous : Block),
  offsetLoop acc previous rest
  = fold_left Double.add (adjacentOffsets (previous :: rest)) acc.
Proof.
  induction rest as [|current rest IH]; intros acc previous.
  - reflexivity.
  - cbn [offsetLoop]. rewrite IH. reflexivity.
Qed.

Lemma totalOffset_sum (t : list Block) : totalOffset t = adjacentOffsetSum t.
Proof.
  destruct t as [|b rest]; [reflexivity|].
  unfold totalOffset. apply offsetLoop_sum.
Qed.

Lemma Forall_collapsing (t : list Block) :
  Forall (fun b => collapsing b = true) (map (set_collapsing true) t).
Proof. induction t; constructor; auto. Qed.

(** C4: [checkTowerStability] measures the sum, over adjacent pairs from
    the bottom up, of the absolute difference of centers.  On a tower of at
    least 3 blocks of an active session, the session becomes inactive, with
    every tower block flagged as collapsing, exactly when that sum exceeds
    canvasWidth * 0.6 * max(0.8, 1 - (level - 1) * 0.02); otherwise the
    session is untouched.  Centers, differences, the running sum and each
    product and difference of the limit are the doubles the code computes.
    A tower of fewer than 3 blocks, or (on a canvas of non-negative width)
    one whose sum is 0, is left untouched at every level.  On the 800 wide
    canvas the limit of level 3 is the double below 460.8 and the limit of
    level 5 the double above 441.6. *)
Theorem collapse_iff_offset_exceeds_limit (g : GameState) :
  let limit :=
    Double.mul
      (Double.mul (canvasWidth (config g)) (Double.literal 0.6))
      (Qmax (Double.literal 0.8)
            (Double.sub 1 (Double.mul (Double.sub (inject_Z (level g)) 1)
                                      (Double.literal 0.02)))) in
  let sum := adjacentOffsetSum (tower g) in
  totalOffset (tower g) == sum /\
  ((3 <= length (tower g))%nat ->
     (isActive g = true ->
      (isActive (checkTowerStability g) = false <-> limit < sum)) /\
     (limit < sum ->
      isActive (checkTowerStability g) = false /\
      Forall (fun b => collapsing b = true) (tower (checkTowerStability g))) /\
     (sum <= limit -> checkTowerStability g = g)) /\
  ((length (tower g) < 3)%nat -> checkTowerStability g = g) /\
  (0 <= canvasWidth (config g) -> sum == 0 -> checkTowerStability g = g) /\
  (canvasWidth (config g) == 800 ->
   (level g = 3%Z ->
    limit == 2026619832316723 # 4398046511104 /\ limit < 460.8) /\
   (level g = 5%Z -> 441.6 < limit)).
Proof.
  intros limit sum.
  assert (Hsum : totalOffset (tower g) == sum).
  { rewrite (totalOffset_sum (tower g)). reflexivity. }
  assert (Hlim : maxOffset g == limit) by reflexivity.
  assert (Hyes : limit < sum ->
            checkTowerStability g = triggerTowerCollapse (set_isActive false g)
            \/ (length (tower g) < 3)%nat).
  { intro H. unfold checkTowerStability.
    destruct (Nat.ltb_spec (length (tower g)) 3); [right; assumption|left].
    assert (T : Qlt_bool (maxOffset g) (totalOffset (tower g)) = true).
    { apply Qlt_bool_iff. rewrite Hlim, Hsum. exact H. }
    rewrite T. reflexivity. }
  assert (Hno : sum <= limit -> checkTowerStability g = g).
  { intro H. unfold checkTowerStability.
    destruct (length (tower g) <? 3)%nat; [reflexivity|].
    assert (T : Qlt_bool (maxOffset g) (totalOffset (tower g)) = false).
    { apply Qlt_bool_false_iff. rewrite Hlim, Hsum. exact H. }
    rewrite T. reflexivity. }
  split; [exact Hsum|]. split; [|split; [|split]].
  - intro Hlen.
    assert (Hcol : limit < sum ->
              checkTowerStability g
              = triggerTowerCollapse (set_isActive false g)).
    { intro H. destruct (Hyes H) as [E|E]; [exact E|lia]. }
    split; [|split].
    + intro Hact. split.
      * intro Hoff. destruct (Qlt_le_dec limit sum) as [H|H]; [exact H|].
        rewrite (Hno H) in Hoff. congruence.
      * intro H. rewrite (Hcol H). reflexivity.
    + intro H. rewrite (Hcol H). split; [reflexivity|].
      apply Forall_collapsing.
    + exact Hno.
  - intro Hlen. unfold checkTowerStability.
    apply Nat.ltb_lt in Hlen. rewrite Hlen. reflexivity.
  - intros Hcw H0. apply Hno. rewrite H0. subst limit.
    apply DoubleFacts.round_sign.
    assert (B : 0 <= Double.mul (canvasWidth (config g)) (Double.literal 0.6)).
    { apply DoubleFacts.round_sign.
      assert (L : 0 < Double.literal 0.6) by (vm_compute; reflexivity).
      apply Qmult_le_0_compat; [exact Hcw|apply Qlt_le_weak, L]. }
    assert (M : 0 <= Qmax (Double.literal 0.8)
                       (Double.sub 1
                          (Double.mul (Double.sub (inject_Z (level g)) 1)
                                      (Double.literal 0.02)))).
    { apply Qle_trans with (Double.literal 0.8); [|apply Q.le_max_l].
      vm_compute. discriminate. }
    apply Qmult_le_0_compat; assumption.
  - intro Hcw. subst limit. split; intro L; rewrite L, Hcw.
    + split; vm_compute; reflexivity.
    + vm_compute. reflexivity.
Qed.

(** The tower of 100 wide blocks whose centers are 460.8 apart collapses
    at level 3: the limit is the double below 460.8. *)
Lemma collapse_iff_offset_exceeds_limit_witness :
  isActive (checkTowerStability (boundarySession 100)) = false /\
  Forall (fun b => collapsing b = true)
         (tower (checkTowerStability (boundarySession 100))).
Proof.
  destruct (collapse_iff_offset_exceeds_limit (boundarySession 100))
    as (_ & A & _).
  destruct A as (_ & C & _).
  - vm_compute. lia.
  - apply C. vm_compute. reflexivity.
Defined.

(** The same tower with blocks 150 wide stands: the double sum of the
    offsets is the limit itself. *)
Lemma boundary_tower_stands :
  totalOffset (tower (boundarySession 150))
  == maxOffset (boundarySession 150) /\
  checkTowerStability (boundarySession 150) = boundarySession 150.
Proof.
  split; [vm_compute; reflexivity|].
  unfold checkTowerStability.
  assert (T : Qlt_bool (maxOffset (boundarySession 150))
                       (totalOffset (tower (boundarySession 150))) = false)
    by (vm_compute; reflexivity).
  rewrite T. reflexivity.
Qed.

(** ** The width floor as an invariant *)

Lemma relaxedMinWidth_eq (cfg : Config) :
  20 <= minBlockWidth cfg * 0.7 ->
  relaxedMinWidth cfg == minBlockWidth cfg * 0.7.
Proof. intro H. apply Q.max_l. exact H. Qed.

Lemma generateNewBlock_aboveFloor (o : Oracle) (g g' : GameState) :
  20 <= minBlockWidth (config g) * 0.7 ->
  generateNewBlock o g = Some g' ->
  activeAboveFloor g'.
Proof.
  intros Hcfg E.
  destruct (generateNewBlock_current o g g') as (b & Hb & _ & Hw);
    [lra|exact E|].
  apply generateNewBlock_board in E. destruct E.
  intros b' Hb'. rewrite Hb in Hb'. injection Hb' as <-.
  rewrite same_config0, (relaxedMinWidth_eq _ Hcfg). exact Hw.
Qed.

(** After the tail of a drop the active block is either the one that was
    just placed or a newly generated one. *)
Lemma addToTower_active (o : Oracle) (perfect : bool) (ov : Q) (cur : Block)
  (g : GameState) :
  20 <= minBlockWidth (config g) * 0.7 ->
  currentBlock g = Some cur ->
  relaxedMinWidth (config g) <= width cur ->
  config (fst (addToTower o perfect ov cur g)) = config g /\
  activeAboveFloor (fst (addToTower o perfect ov cur g)).
Proof.
  intros Hcfg Hcur Hw. rewrite addToTower_unfold.
  assert (Keep : forall st, config st = config g -> currentBlock st = Some cur ->
            config st = config g /\ activeAboveFloor st).
  { intros st Hc Hb. split; [exact Hc|].
    intros b Hb'. rewrite Hb in Hb'. injection Hb' as <-.
    rewrite Hc. exact Hw. }
  assert (F : forall base st, config st = config g -> currentBlock st = Some cur ->
            config (fst (finish o perfect ov base st)) = config g /\
            activeAboveFloor (fst (finish o perfect ov base st))).
  { intros base st Hc Hb. unfold finish.
    destruct (generateNewBlock o st) as [g'|] eqn:E; cbn [fst].
    - split.
      + pose proof (generateNewBlock_board _ _ _ E) as B. destruct B. congruence.
      + apply (generateNewBlock_aboveFloor o st g'); [rewrite Hc; exact Hcfg|exact E].
    - apply Keep; assumption. }
  destruct (currentLevelConfig g).
  - destruct (quotaReached g).
    + destruct (level g =? 7)%Z.
      * apply Keep; [reflexivity|exact Hcur].
      * apply F; [reflexivity|exact Hcur].
    + apply F; [reflexivity|exact Hcur].
  - apply Keep; [reflexivity|exact Hcur].
Qed.

Lemma Forall_snoc {A : Type} (P : A -> Prop) (l : list A) (a : A) :
  Forall P l -> P a -> Forall P (l ++ [a]).
Proof.
  intros Hl Ha. apply Forall_app. split; [exact Hl|]. constructor; [exact Ha|constructor].
Qed.

(** Establishment: a session just initialized is above the floor. *)
Lemma initGame_aboveFloor (lvl : Z) (o : Oracle) (g : GameState) :
  floorFromMinimum (config g) ->
  config (initGame lvl o g) = config g /\
  towerAboveFloor (initGame lvl o g) /\ activeAboveFloor (initGame lvl o g).
Proof.
  intros [H20 Hbase]. unfold initGame.
  match goal with |- context [generateNewBlock o ?s] =>
    destruct (generateNewBlock_some o s (Levels.calculateLevelParameters lvl)
                eq_refl) as [g2 E]; rewrite E;
    pose proof (generateNewBlock_board o s g2 E) as B;
    pose proof (generateNewBlock_aboveFloor o s g2 H20 E) as A
  end.
  destruct B. cbn [config tower] in same_config0, same_tower0.
  split; [exact same_config0|]. split; [|exact A].
  unfold towerAboveFloor. rewrite same_tower0, same_config0.
  constructor; [|constructor].
  cbn [width place newBlock]. rewrite (relaxedMinWidth_eq _ H20). exact Hbase.
Qed.

(** Preservation: a drop keeps a session above the floor. *)
Lemma dropBlock_aboveFloor (o : Oracle) (g : GameState) :
  20 <= minBlockWidth (config g) * 0.7 ->
  towerAboveFloor g -> activeAboveFloor g ->
  config (fst (dropBlock o g)) = config g /\
  towerAboveFloor (fst (dropBlock o g)) /\ activeAboveFloor (fst (dropBlock o g)).
Proof.
  intros H20 Ht Ha.
  assert (Same : config g = config g /\ towerAboveFloor g /\ activeAboveFloor g)
    by auto.
  destruct (currentBlock g) as [cb|] eqn:Hc;
    [|unfold dropBlock; rewrite Hc; exact Same].
  destruct (isMoving cb) eqn:Hm;
    [|unfold dropBlock; rewrite Hc, Hm; exact Same].
  destruct (lastTowerBlock g) as [top|] eqn:Hl;
    [|unfold dropBlock; rewrite Hc, Hm, Hl; exact Same].
  assert (D : Droppable g cb top) by (constructor; assumption).
  assert (Hcb : relaxedMinWidth (config g) <= width cb) by (apply Ha; exact Hc).
  destruct (Qlt_le_dec 0 (calculateOverlap cb top)) as [Hov|Hov].
  - destruct (perfectAlignment g (landed g cb top) top (calculateOverlap cb top))
      eqn:E.
    + destruct (PopupShows_dec o g) as [HS|HS].
      * rewrite (dropBlock_perfect o g cb top D Hov E HS).
        destruct (addToTower_active o true (calculateOverlap cb top)
                    (set_perfectDrop true (landed g cb top))
                    (rewarded g cb top))
          as [Ecfg Eact]; [exact H20|reflexivity|exact Hcb|].
        split; [exact Ecfg|]. split; [|exact Eact].
        unfold towerAboveFloor.
        rewrite (proj1 (addToTower_tower _ _ _ _ _)), Ecfg.
        apply Forall_snoc; [exact Ht|exact Hcb].
      * rewrite (dropBlock_popup_throws o g cb top D Hov E HS). cbn [fst].
        split; [reflexivity|]. split; [exact Ht|].
        intros b Hb. cbn in Hb. injection Hb as <-. exact Hcb.
    + rewrite (dropBlock_imperfect o g cb top D Hov E).
      assert (Hs : relaxedMinWidth (config g)
                   <= width (shrink (config g) (calculateOverlap cb top)
                               (landed g cb top))).
      { rewrite width_shrink. apply Q.le_max_r. }
      destruct (addToTower_active o false (calculateOverlap cb top)
                  (shrink (config g) (calculateOverlap cb top) (landed g cb top))
                  (trimmed g cb top))
        as [Ecfg Eact]; [exact H20|reflexivity|exact Hs|].
      split; [exact Ecfg|]. split; [|exact Eact].
      unfold towerAboveFloor.
      rewrite (proj1 (addToTower_tower _ _ _ _ _)), Ecfg.
      apply Forall_snoc; [exact Ht|exact Hs].
  - rewrite (dropBlock_miss o g cb top D Hov). cbn [fst].
    split; [reflexivity|]. split; [exact Ht|].
    intros b Hb. cbn in Hb. injection Hb as <-.
    unfold addFailureAnimations_miss. destruct (domReady o); exact Hcb.
Qed.

Lemma width_update (f : Frame) (g : GameState) (b : Block) :
  width (update f g b) = width b /\ isMoving (update f g b) = isMoving b.
Proof.
  unfold update. destruct (isMoving b) eqn:E; [|auto].
  repeat match goal with
         | |- context [if ?c then _ else _] => destruct c
         end; cbn [width isMoving]; auto.
Qed.

Lemma Forall_map_width (P : Q -> Prop) (f : Block -> Block) (t : list Block) :
  (forall b, width (f b) = width b) ->
  Forall (fun b => P (width b)) t ->
  Forall (fun b => P (width b)) (map f t).
Proof.
  intros Hf H. induction H as [|b t Hb Ht IH]; cbn [map]; constructor.
  - rewrite Hf. exact Hb.
  - exact IH.
Qed.

Lemma checkTowerStability_aboveFloor (g : GameState) :
  towerAboveFloor g -> activeAboveFloor g ->
  config (checkTowerStability g) = config g /\
  towerAboveFloor (checkTowerStability g) /\
  activeAboveFloor (checkTowerStability g).
Proof.
  intros Ht Ha. unfold checkTowerStability.
  destruct (length (tower g) <? 3)%nat; [auto|].
  destruct (Qlt_bool (maxOffset g) (totalOffset (tower g))); [|auto].
  split; [reflexivity|]. split; [|exact Ha].
  unfold towerAboveFloor, triggerTowerCollapse.
  cbn [tower config set_tower set_isActive].
  apply (Forall_map_width (fun w => relaxedMinWidth (config g) <= w));
    [reflexivity|exact Ht].
Qed.

Lemma updateGame_aboveFloor (f : Frame) (g : GameState) :
  towerAboveFloor g -> activeAboveFloor g ->
  config (updateGame f g) = config g /\
  towerAboveFloor (updateGame f g) /\ activeAboveFloor (updateGame f g).
Proof.
  intros Ht Ha. unfold updateGame.
  destruct (negb (isActive g) || isPaused g); [auto|].
  destruct (currentBlock g) as [b|] eqn:Hb;
    [|apply checkTowerStability_aboveFloor; assumption].
  destruct (isMoving b);
    [|apply checkTowerStability_aboveFloor; assumption].
  match goal with |- context [checkTowerStability ?s] =>
    destruct (checkTowerStability_aboveFloor s) as (Ec & Ht' & Ha')
  end.
  - exact Ht.
  - intros b' Hb'. cbn in Hb'. injection Hb' as <-.
    rewrite (proj1 (width_update f g b)). apply Ha. exact Hb.
  - split; [exact Ec|]. split; assumption.
Qed.

(** Every reachable session is above the floor. *)
Lemma Reachable_aboveFloor (g : GameState) :
  Reachable g ->
  floorFromMinimum (config g) /\ towerAboveFloor g /\ activeAboveFloor g.
Proof.
  induction 1 as [lvl o g Hcfg
                 |o g R (Hcfg & Ht & Ha)
                 |f g R (Hcfg & Ht & Ha)
                 |g R IH|g R IH|g R IH
                 |o g R (Hcfg & Ht & Ha)].
  - destruct (initGame_aboveFloor lvl o g Hcfg) as (Ec & Ht & Ha).
    rewrite Ec. auto.
  - destruct (dropBlock_aboveFloor o g (proj1 Hcfg) Ht Ha) as (Ec & Ht' & Ha').
    rewrite Ec. auto.
  - destruct (updateGame_aboveFloor f g Ht Ha) as (Ec & Ht' & Ha').
    rewrite Ec. auto.
  - exact IH.
  - exact IH.
  - exact IH.
  - destruct (initGame_aboveFloor 1 o g Hcfg) as (Ec & Ht' & Ha').
    unfold resetGame. split; [cbn [config set_isPaused set_isActive];
                              rewrite Ec; exact Hcfg|].
    split; [exact Ht'|exact Ha'].
Qed.

(** C9: with a configuration whose floor is minBlockWidth * 0.7 (the
    built-in one: floor 28), every tower block and the active block are at
    least floor wide after [initGame], and a drop made from such a session
    leaves such a session; so every session the game reaches from
    [initGame] has its tower above the floor.  The width check of
    [dropBlock] ends the session with the too-small outcome on a block
    below the floor, and places a block that is not. *)
Theorem width_floor_is_invariant :
  (relaxedMinWidth defaultConfig == 28 /\ floorFromMinimum defaultConfig) /\
  (forall (lvl : Z) (o : Oracle) (g : GameState),
     floorFromMinimum (config g) ->
     floorFromMinimum (config (initGame lvl o g)) /\
     towerAboveFloor (initGame lvl o g) /\
     activeAboveFloor (initGame lvl o g)) /\
  (forall (o : Oracle) (g : GameState),
     floorFromMinimum (config g) ->
     towerAboveFloor g -> activeAboveFloor g ->
     floorFromMinimum (config (fst (dropBlock o g))) /\
     towerAboveFloor (fst (dropBlock o g)) /\
     activeAboveFloor (fst (dropBlock o g))) /\
  (forall g : GameState, Reachable g -> towerAboveFloor g) /\
  (forall (o : Oracle) (ov : Q) (cur : Block) (g : GameState),
     (width cur < relaxedMinWidth (config g) ->
      checkWidthThenAdd o ov cur g = (set_isActive false g, BlockTooSmall) /\
      isActive (fst (checkWidthThenAdd o ov cur g)) = false /\
      tower (fst (checkWidthThenAdd o ov cur g)) = tower g /\
      gameOver (snd (checkWidthThenAdd o ov cur g)) = true) /\
     (relaxedMinWidth (config g) <= width cur ->
      tower (fst (checkWidthThenAdd o ov cur g)) = tower g ++ [cur])).
Proof.
  split; [|split; [|split; [|split]]].
  - split; [vm_compute; reflexivity|].
    split; vm_compute; discriminate.
  - intros lvl o g Hcfg.
    destruct (initGame_aboveFloor lvl o g Hcfg) as (Ec & Ht & Ha).
    rewrite Ec. auto.
  - intros o g Hcfg Ht Ha.
    destruct (dropBlock_aboveFloor o g (proj1 Hcfg) Ht Ha) as (Ec & Ht' & Ha').
    rewrite Ec. auto.
  - intros g R. exact (proj1 (proj2 (Reachable_aboveFloor g R))).
  - intros o ov cur g. unfold checkWidthThenAdd. split; intro H.
    + apply Qlt_bool_iff in H. rewrite H. repeat split.
    + apply Qlt_bool_false_iff in H. rewrite H.
      exact (proj1 (addToTower_tower _ _ _ _ _)).
Qed.

(** A first session and its first drop, on the built-in configuration. *)
Lemma width_floor_is_invariant_witness :
  towerAboveFloor (initGame 1 sampleOracle gameState) /\
  towerAboveFloor
    (fst (dropBlock sampleOracle (initGame 1 sampleOracle gameState))).
Proof.
  destruct width_floor_is_invariant as ((_ & Hcfg) & Hinit & Hdrop & _).
  destruct (Hinit 1%Z sampleOracle gameState Hcfg) as (Hcfg' & Ht & Ha).
  split; [exact Ht|].
  exact (proj1 (proj2 (Hdrop sampleOracle _ Hcfg' Ht Ha))).
Defined.

(** ** Three perfect drops from a fresh session *)

Lemma lastTowerBlock_snoc (g : GameState) (t : list Block) (b : Block) :
  tower g = t ++ [b] -> lastTowerBlock g = Some b.
Proof.
  intro H. unfold lastTowerBlock. rewrite H, map_app. cbn [map].
  apply last_last.
Qed.

Lemma initGame_level1 (o : Oracle) (g : GameState) :
  0 < minBlockWidth (config g) -> 0 < initialBlockWidth (config g) ->
  Level1Play (initGame 1 o g) 0 0 0.
Proof.
  intros Hmin Hbase. unfold initGame.
  match goal with |- context [generateNewBlock o ?s] =>
    destruct (generateNewBlock_some o s (Levels.calculateLevelParameters 1)
                eq_refl) as [g2 E]; rewrite E;
    pose proof (generateNewBlock_board o s g2 E) as B;
    destruct (generateNewBlock_current o s g2) as (b & Hb & Hmv & Hw);
      [cbn [config]; lra | exact E |]
  end.
  destruct B. cbn in *.
  constructor; try congruence; try assumption.
  - exists b. repeat split; try assumption. lra.
  - eexists. split.
    + apply (lastTowerBlock_snoc _ []). rewrite same_tower0. reflexivity.
    + exact Hbase.
Qed.

Lemma lastTowerBlock_collapse (g : GameState) (top : Block) :
  lastTowerBlock g = Some top ->
  lastTowerBlock (triggerTowerCollapse (set_isActive false g))
  = Some (set_collapsing true top).
Proof.
  unfold lastTowerBlock, triggerTowerCollapse.
  cbn [tower set_tower set_isActive].
  induction (tower g) as [|b t IH]; [discriminate|].
  destruct t as [|b' t'].
  - cbn. intro H. injection H as <-. reflexivity.
  - intro H. apply IH in H. exact H.
Qed.

(** A stability check keeps a level 1 session playable. *)
Lemma checkTowerStability_level1 (g : GameState) (k c s : Z) :
  Level1Play g k c s -> Level1Play (checkTowerStability g) k c s.
Proof.
  intro P. unfold checkTowerStability.
  destruct (length (tower g) <? 3)%nat; [exact P|].
  destruct (Qlt_bool (maxOffset g) (totalOffset (tower g))); [|exact P].
  destruct P as [Hl Hc Hp Ht Hk Hs Hsc Hmin Hact (top & Htop & Hwt)].
  constructor; try assumption.
  exists (set_collapsing true top). split; [|exact Hwt].
  apply lastTowerBlock_collapse. exact Htop.
Qed.

(** A frame moves the active block and may flag the tower; it leaves a
    level 1 session playable, with the same counters and widths. *)
Lemma updateGame_level1 (f : Frame) (g : GameState) (k c s : Z) :
  Level1Play g k c s -> Level1Play (updateGame f g) k c s.
Proof.
  intro P. unfold updateGame.
  destruct (negb (isActive g) || isPaused g); [exact P|].
  apply checkTowerStability_level1.
  destruct P as [Hl Hc Hp Ht Hk Hs Hsc Hmin (cb & Hcb & Hmv & Hw) Htop].
  rewrite Hcb, Hmv.
  constructor; try assumption.
  exists (update f g cb). destruct (width_update f g cb) as [Ew Em].
  split; [reflexivity|]. split; [congruence|]. rewrite Ew. exact Hw.
Qed.

Lemma frames_level1 (fs : list Frame) (g : GameState) (k c s : Z) :
  Level1Play g k c s -> Level1Play (frames fs g) k c s.
Proof.
  revert g. induction fs as [|f fs IH]; intros g P; [exact P|].
  cbn [frames fold_left]. apply IH. apply updateGame_level1. exact P.
Qed.

(** One perfect drop in level 1: the streak and the score move as the
    scoring rule says, and the level changes with the third block. *)
Lemma level1_perfect_drop (o : Oracle) (g : GameState) (k c s : Z) :
  Level1Play g k c s -> fullOverlap g ->
  let g' := fst (dropBlock o g) in
  ((k + 1 < 3)%Z -> Level1Play g' (k + 1) (c + 1) (s + 100 * (c + 1) + 15)) /\
  ((3 <= k + 1)%Z ->
     level g' = 2%Z /\ comboStreak g' = (c + 1)%Z /\
     score g' = (s + 100 * (c + 1) + 15)%Z).
Proof.
  intros [Hl Hc Hp Ht Hk Hs Hsc Hmin (cb & Hcb & Hmv & Hw) (top & Htop & Hwt)]
         Hfull g'.
  unfold fullOverlap in Hfull. rewrite Hcb, Htop in Hfull.
  assert (D : Droppable g cb top) by (constructor; assumption).
  assert (S : Settled g) by (constructor; congruence).
  assert (Hminpos : 0 < Qmin (width cb) (width top)).
  { apply Q.min_glb_lt; assumption. }
  assert (Hov : 0 < calculateOverlap cb top) by (rewrite Hfull; exact Hminpos).
  assert (E : perfectAlignment g (landed g cb top) top (calculateOverlap cb top)
              = true).
  { apply perfectAlignment_iff. rewrite width_landed, Ht, Hfull.
    apply DoubleFacts.mul_below.
    - apply Qlt_le_weak. exact Hminpos.
    - vm_compute. discriminate.
    - vm_compute. discriminate. }
  assert (HS : PopupShows o g).
  { unfold PopupShows, currentMechanic. rewrite Hc. discriminate. }
  placement_shown o g cb top D S Hov HS P. rewrite E in P. fold g' in P.
  assert (M : comboMultiplier g = 1%Z).
  { unfold comboMultiplier, currentMechanic. rewrite Hc. reflexivity. }
  assert (HQ : quotaReached (rewarded g cb top) = (3 <=? k + 1)%Z).
  { unfold quotaReached. cbn [rewarded currentLevelConfig set_currentBlock
      set_score set_comboStreak blocksInCurrentLevel].
    rewrite Hc, Hk. reflexivity. }
  pose proof (Placement_board _ _ _ _ _ _ P) as (Tw & _ & Sc & Cs & Cf & _).
  fold g' in Tw, Sc, Cs, Cf.
  cbn [rewarded tower score level comboStreak config set_currentBlock set_score
       set_comboStreak] in Tw, Sc, Cs, Cf.
  rewrite M, Hl, Hs, Hsc in Sc. rewrite Hs in Cs.
  split.
  - intro Hlt.
    assert (Q0 : quotaReached (rewarded g cb top) = false).
    { rewrite HQ. apply Z.leb_gt. lia. }
    destruct (Placement_next _ _ _ _ _ _ P Q0) as [G B].
    fold g' in G, B. destruct B.
    cbn [scored rewarded tower score level isActive isPaused blocksPlaced
         blocksInCurrentLevel perfectThreshold comboStreak config
         currentLevelConfig currentLevelParams set_currentBlock set_score
         set_comboStreak] in *.
    assert (Hgen : exists b, currentBlock g' = Some b /\ isMoving b = true /\
                             minBlockWidth (config g) * 0.7 <= width b).
    { apply (generateNewBlock_current o
               (scored (set_perfectDrop true (landed g cb top))
                       (rewarded g cb top)) g'); [|exact G].
      apply Qlt_le_weak. exact Hmin. }
    destruct Hgen as (b & Hb & Hbm & Hbw).
    constructor; try congruence.
    + rewrite Sc. lia.
    + exists b. repeat split; try assumption. lra.
    + eexists. split; [apply (lastTowerBlock_snoc _ _ _ Tw)|]. exact Hw.
  - intro Hge.
    assert (Q1 : quotaReached (rewarded g cb top) = true).
    { rewrite HQ. apply Z.leb_le. lia. }
    assert (L7 : level (rewarded g cb top) <> 7%Z).
    { cbn [rewarded level set_currentBlock set_score set_comboStreak].
      rewrite Hl. discriminate. }
    destruct (Placement_advanced _ _ _ _ _ _ P Q1 L7) as (L & _).
    fold g' in L.
    cbn [rewarded level set_currentBlock set_score set_comboStreak] in L.
    rewrite Hl in L.
    split; [exact L|]. split; [exact Cs|]. rewrite Sc. lia.
Qed.

(** C6: a session initialized at level 1, followed by three drops in each
    of which the active block fully overlaps the tower top (whatever frames
    ran before each drop, whatever the draws), ends at level 2 with score
    645 and combo streak 3. *)
Theorem three_full_overlap_drops_reach_level_2
  (o0 o1 o2 o3 : Oracle) (fs1 fs2 fs3 : list Frame) (g : GameState) :
  0 < minBlockWidth (config g) -> 0 < initialBlockWidth (config g) ->
  let s0 := frames fs1 (initGame 1 o0 g) in
  let s1 := frames fs2 (fst (dropBlock o1 s0)) in
  let s2 := frames fs3 (fst (dropBlock o2 s1)) in
  let s3 := fst (dropBlock o3 s2) in
  fullOverlap s0 -> fullOverlap s1 -> fullOverlap s2 ->
  level s3 = 2%Z /\
  score s3 = ((10 + 1 * 5) * 3 + 100 * 1 + 100 * 2 + 100 * 3)%Z /\
  score s3 = 645%Z /\
  comboStreak s3 = 3%Z.
Proof.
  intros Hmin Hbase s0 s1 s2 s3 F0 F1 F2.
  assert (P0 : Level1Play s0 0 0 0).
  { apply frames_level1, initGame_level1; assumption. }
  assert (P1 : Level1Play s1 1 1 115).
  { apply frames_level1.
    apply (proj1 (level1_perfect_drop o1 s0 0 0 0 P0 F0)). lia. }
  assert (P2 : Level1Play s2 2 2 330).
  { apply frames_level1.
    apply (proj1 (level1_perfect_drop o2 s1 1 1 115 P1 F1)). lia. }
  destruct (proj2 (level1_perfect_drop o3 s2 2 2 330 P2 F2)) as (L & C & S);
    [lia|].
  fold s3 in L, C, S.
  repeat split; [exact L|rewrite S; reflexivity|rewrite S; reflexivity|exact C].
Qed.

(** The run on the built-in configuration: each 160 wide block travels for
    24 frames of 1/30 s at 0.4 per ms and is dropped at x = 320, over the
    150 wide base at 325. *)
Lemma three_full_overlap_drops_reach_level_2_witness :
  level
    (fst (dropBlock sampleOracle
       (frames travel (fst (dropBlock sampleOracle
          (frames travel (fst (dropBlock sampleOracle
             (frames travel (initGame 1 sampleOracle gameState)))))))))) = 2%Z.
Proof.
  refine (proj1 (three_full_overlap_drops_reach_level_2
            sampleOracle sampleOracle sampleOracle sampleOracle
            travel travel travel gameState _ _ _ _ _)).
  - vm_compute. reflexivity.
  - vm_compute. reflexivity.
  - vm_compute. reflexivity.
  - vm_compute. reflexivity.
  - vm_compute. reflexivity.
Defined.

End GameFacts.

(** ** More on the level table *)

Module LevelTableFacts.
Import Levels.

Lemma getLevelConfig_table (n : Z) :
  (1 <= n <= 7)%Z -> In (getLevelConfig n) LEVELS /\ id (getLevelConfig n) = n.
Proof.
  intro H.
  assert (C : (n = 1 \/ n = 2 \/ n = 3 \/ n = 4 \/ n = 5 \/ n = 6 \/ n = 7)%Z)
    by lia.
  destruct C as [->|[->|[->|[->|[->|[->| ->]]]]]];
    (split; [cbv [getLevelConfig LEVELS find id Z.eqb Pos.eqb]; simpl; auto 10
            |reflexivity]).
Qed.

Lemma getLevelConfig_outside (n : Z) :
  (n < 1 \/ 7 < n)%Z -> getLevelConfig n = endlessLevel n.
Proof.
  intro H. unfold getLevelConfig, LEVELS. cbn [find id].
  repeat match goal with
         | |- context [(?k =? n)%Z] =>
             destruct (Z.eqb_spec k n); [lia|]
         end.
  reflexivity.
Qed.

(** The object [getLevelConfig] returns always carries the number that was
    asked for; it has a block quota (of 3) and a special mechanic exactly
    for the levels 1 to 7 of the table. *)
Theorem getLevelConfig_answers_request (n : Z) :
  id (getLevelConfig n) = n /\
  ((1 <= n <= 7)%Z ->
     blocksToComplete (getLevelConfig n) = Some 3%Z /\
     specialMechanics (getLevelConfig n) <> None) /\
  ((n < 1 \/ 7 < n)%Z ->
     blocksToComplete (getLevelConfig n) = None /\
     specialMechanics (getLevelConfig n) = None).
Proof.
  split; [|split].
  - destruct (Z_le_gt_dec 1 n) as [H1|H1].
    + destruct (Z_le_gt_dec n 7) as [H7|H7].
      * apply getLevelConfig_table. lia.
      * rewrite getLevelConfig_outside by lia. reflexivity.
    + rewrite getLevelConfig_outside by lia. reflexivity.
  - intro H.
    assert (C : (n = 1 \/ n = 2 \/ n = 3 \/ n = 4 \/ n = 5 \/ n = 6 \/ n = 7)%Z)
      by lia.
    destruct C as [->|[->|[->|[->|[->|[->| ->]]]]]];
      (split; [reflexivity|discriminate]).
  - intro H. rewrite getLevelConfig_outside by exact H. split; reflexivity.
Qed.

Lemma getLevelConfig_answers_request_witness :
  blocksToComplete (getLevelConfig 4) = Some 3%Z /\
  blocksToComplete (getLevelConfig 8) = None.
Proof.
  destruct (getLevelConfig_answers_request 4) as (_ & A & _).
  destruct (getLevelConfig_answers_request 8) as (_ & _ & B).
  split.
  - apply A. lia.
  - apply B. lia.
Defined.

Lemma calculateLevelParameters_low (n : Z) :
  (n < 1)%Z ->
  calculateLevelParameters n
  = mkParams (Double.literal 1.5) (mkRange 50 90) (Double.literal 0.8)
             (Double.literal 0.08) 10 1.5.
Proof.
  intro H. unfold calculateLevelParameters.
  rewrite getLevelConfig_outside by lia.
  destruct (Z.ltb_spec 7 n); [lia|reflexivity].
Qed.

(** Whatever level number is asked for, the parameters are usable: the block
    speed is positive, the perfect threshold is strictly between 0 and 1,
    and the width range is a real range that starts at 30 or more. *)
Theorem level_parameters_well_formed (n : Z) :
  let p := calculateLevelParameters n in
  0 < params_blockSpeed p /\
  0 < params_perfectThreshold p /\ params_perfectThreshold p < 1 /\
  30 <= range_min (params_blockWidthRange p) /\
  range_min (params_blockWidthRange p) <= range_max (params_blockWidthRange p).
Proof.
  intro p. subst p.
  destruct (Z_lt_le_dec n 1) as [Hlow|H1].
  - rewrite calculateLevelParameters_low by exact Hlow.
    cbn [params_blockSpeed params_perfectThreshold params_blockWidthRange
         range_min range_max].
    repeat split; vm_compute; try reflexivity; discriminate.
  - destruct (Z_le_gt_dec n 7) as [H7|H7].
    + assert (C : (n = 1 \/ n = 2 \/ n = 3 \/ n = 4 \/ n = 5 \/ n = 6 \/ n = 7)%Z)
        by lia.
      destruct C as [->|[->|[->|[->|[->|[->| ->]]]]]];
        repeat split; vm_compute; try reflexivity; discriminate.
    + assert (H8 : (8 <= n)%Z) by lia.
      pose proof (LevelFacts.endless_mono 8 n H8) as M. cbv zeta in M.
      destruct M as (Ms & Mt & _ & _).
      rewrite LevelFacts.calculateLevelParameters_beyond by lia.
      split; [|split; [|split; [|split]]].
      * apply Qlt_le_trans with (2 := Ms). vm_compute. reflexivity.
      * apply Qlt_le_trans with (2 := Mt). vm_compute. reflexivity.
      * unfold applyEndlessScaling. cbn [params_perfectThreshold].
        apply Qle_lt_trans with (Double.literal 0.99); [apply Q.le_min_l|].
        vm_compute. reflexivity.
      * unfold applyEndlessScaling.
        cbn [params_blockWidthRange range_min]. apply Q.le_max_l.
      * unfold applyEndlessScaling.
        cbn [params_blockWidthRange range_min range_max].
        set (wf := Double.sub 1 (Double.mul (Double.sub (inject_Z n) 10)
                                            (Double.literal 0.02))).
        apply Q.max_lub.
        -- apply Qle_trans with 60; [discriminate|apply Q.le_max_l].
        -- destruct (Qlt_le_dec wf 0) as [Hneg|Hpos].
           ++ apply Qle_trans with 60; [|apply Q.le_max_l].
              apply Qle_trans with 0; [|discriminate].
              apply DoubleFacts.round_sign.
              setoid_replace 0 with (50 * 0) by ring.
              rewrite (Qmult_comm 50 wf), (Qmult_comm 50 0).
              apply Qmult_le_compat_r; [|discriminate].
              apply Qlt_le_weak. exact Hneg.
           ++ apply Qle_trans with (Double.mul 90 wf); [|apply Q.le_max_r].
              apply DoubleFacts.mul_mono_r; [exact Hpos|discriminate].
Qed.

(** Beyond the table the block speed is the double the code computes for
    1.5 * (1 + (n - 10) * 0.1): within one part in 2^50 of 0.15 times the
    level number (at level 8 it is the double above 1.2, not 1.2), so it
    exceeds every bound at some level; from level 31 on the width range is
    pinned at 30..60 and the perfect threshold at the double 0.99. *)
Theorem endless_speed_unbounded_rest_saturates :
  (forall n : Z, (7 < n)%Z ->
     let p := calculateLevelParameters n in
     0.15 * inject_Z n * (1 - (1 # 1125899906842624)) <= params_blockSpeed p /\
     params_blockSpeed p <= 0.15 * inject_Z n * (1 + (1 # 1125899906842624)) /\
     ((31 <= n)%Z ->
        range_min (params_blockWidthRange p) == 30 /\
        range_max (params_blockWidthRange p) == 60 /\
        params_perfectThreshold p == Double.literal 0.99)) /\
  (params_blockSpeed (calculateLevelParameters 8)
   == 1351079888211149 # 1125899906842624 /\
   1.2 < params_blockSpeed (calculateLevelParameters 8)) /\
  (forall bound : Z, exists n : Z,
     (7 < n)%Z /\
     inject_Z bound < params_blockSpeed (calculateLevelParameters n)).
Proof.
  split; [|split].
  - intros n H p. subst p.
    destruct (LevelFacts.endless_speed_near n H) as [L U].
    split; [exact L|]. split; [exact U|].
    intro H31. apply LevelFacts.endless_saturated. exact H31.
  - split; vm_compute; reflexivity.
  - intro bound. exists (10 * Z.abs bound + 8)%Z.
    split; [lia|].
    destruct (LevelFacts.endless_speed_near (10 * Z.abs bound + 8)) as [L _];
      [lia|].
    apply Qlt_le_trans with (2 := L).
    rewrite inject_Z_plus, inject_Z_mult.
    assert (Ha : inject_Z bound <= inject_Z (Z.abs bound)).
    { rewrite <- Zle_Qle. lia. }
    assert (H0 : 0 <= inject_Z (Z.abs bound)).
    { change 0 with (inject_Z 0). rewrite <- Zle_Qle. lia. }
    change (inject_Z 10) with 10. change (inject_Z 8) with 8. lra.
Qed.

Lemma endless_speed_unbounded_rest_saturates_witness :
  params_perfectThreshold (calculateLevelParameters 40) == Double.literal 0.99 /\
  range_min (params_blockWidthRange (calculateLevelParameters 40)) == 30.
Proof.
  destruct (proj1 endless_speed_unbounded_rest_saturates 40%Z)
    as (_ & _ & A); [lia|].
  destruct A as (Hmin & _ & Hthr); [lia|].
  split; [exact Hthr|exact Hmin].
Defined.

(** ** Unlocking *)

(** Unlocking is downward closed and grows with progress: once a level is
    unlocked, so is every level from 1 up to it, and it stays unlocked when
    progress increases.  Level 1 is unlocked whatever the progress. *)
Theorem unlocking_is_downward_closed (n progress : Z) :
  isLevelUnlocked n progress = true ->
  (forall m, (1 <= m <= n)%Z -> isLevelUnlocked m progress = true) /\
  (forall progress', (progress <= progress')%Z ->
     isLevelUnlocked n progress' = true) /\
  (forall anyProgress, isLevelUnlocked 1 anyProgress = true).
Proof.
  unfold isLevelUnlocked. intro H.
  split; [|split].
  - intros m Hm.
    destruct (Z.eqb_spec m 1) as [|Hm1]; [reflexivity|].
    destruct (Z.eqb_spec n 1) as [->|Hn1]; [lia|].
    apply Z.leb_le in H. apply Z.leb_le. lia.
  - intros progress' Hp.
    destruct (Z.eqb_spec n 1); [reflexivity|].
    apply Z.leb_le in H. apply Z.leb_le. lia.
  - intro anyProgress. reflexivity.
Qed.

Lemma unlocking_is_downward_closed_witness :
  isLevelUnlocked 2 12 = true /\ isLevelUnlocked 3 20 = true.
Proof.
  destruct (unlocking_is_downward_closed 3 12 eq_refl) as (Down & Up & _).
  split.
  - apply Down. lia.
  - apply Up. lia.
Defined.

Lemma getAvailableLevels_filter (progress : Z) :
  getAvailableLevels progress =
  1%Z :: (if (5 <=? progress)%Z then [2%Z] else [])
      ++ (if (10 <=? progress)%Z then [3%Z] else [])
      ++ (if (15 <=? progress)%Z then [4%Z] else [])
      ++ (if (20 <=? progress)%Z then [5%Z] else [])
      ++ (if (25 <=? progress)%Z then [6%Z] else [])
      ++ (if (30 <=? progress)%Z then [7%Z] else []).
Proof.
  unfold getAvailableLevels, LEVELS, isLevelUnlocked.
  cbn [filter id Z.eqb Pos.eqb Z.sub Z.add Z.opp Z.pos_sub Z.mul Pos.mul
       Pos.add Z.succ_double Z.pred_double Z.double Pos.pred_double
       Pos.succ].
  repeat match goal with
         | |- context [(?k <=? progress)%Z] =>
             destruct (k <=? progress)%Z
         end; reflexivity.
Qed.

(** The available levels are the first levels of the table, one more for
    every 5 blocks of progress, level 1 always and level 7 at most. *)
Theorem available_levels_are_a_prefix (progress : Z) :
  getAvailableLevels progress =
  map Z.of_nat
      (seq 1 (Z.to_nat (Z.min 7 (Z.max 0 progress / 5 + 1)))).
Proof.
  rewrite getAvailableLevels_filter.
  assert (C : (progress < 5 \/ 5 <= progress < 10 \/ 10 <= progress < 15 \/
               15 <= progress < 20 \/ 20 <= progress < 25 \/
               25 <= progress < 30 \/ 30 <= progress)%Z) by lia.
  assert (D : forall k : Z, (0 <= k)%Z ->
            (k * 5 <= Z.max 0 progress < (k + 1) * 5)%Z ->
            (Z.max 0 progress / 5 = k)%Z).
  { intros k Hk Hr. symmetry.
    apply (Z.div_unique _ 5 k (Z.max 0 progress - k * 5)); lia. }
  destruct C as [C|[C|[C|[C|[C|[C|C]]]]]].
  - rewrite (D 0%Z) by lia.
    repeat match goal with
           | |- context [(?k <=? progress)%Z] =>
               destruct (Z.leb_spec k progress); [lia|]
           end.
    reflexivity.
  - rewrite (D 1%Z) by lia.
    repeat match goal with
           | |- context [(?k <=? progress)%Z] =>
               destruct (Z.leb_spec k progress); try lia
           end.
    reflexivity.
  - rewrite (D 2%Z) by lia.
    repeat match goal with
           | |- context [(?k <=? progress)%Z] =>
               destruct (Z.leb_spec k progress); try lia
           end.
    reflexivity.
  - rewrite (D 3%Z) by lia.
    repeat match goal with
           | |- context [(?k <=? progress)%Z] =>
               destruct (Z.leb_spec k progress); try lia
           end.
    reflexivity.
  - rewrite (D 4%Z) by lia.
    repeat match goal with
           | |- context [(?k <=? progress)%Z] =>
               destruct (Z.leb_spec k progress); try lia
           end.
    reflexivity.
  - rewrite (D 5%Z) by lia.
    repeat match goal with
           | |- context [(?k <=? progress)%Z] =>
               destruct (Z.leb_spec k progress); try lia
           end.
    reflexivity.
  - assert (E : (Z.min 7 (Z.max 0 progress / 5 + 1) = 7)%Z).
    { apply Z.min_l.
      assert (6 <= Z.max 0 progress / 5)%Z; [|lia].
      apply Z.div_le_lower_bound; lia. }
    rewrite E.
    repeat match goal with
           | |- context [(?k <=? progress)%Z] =>
               destruct (Z.leb_spec k progress); try lia
           end.
    reflexivity.
Qed.

(** ** The daily challenge *)

Lemma dateSeed_nonneg (today : string) : (0 <= dateSeed today)%Z.
Proof.
  unfold dateSeed.
  assert (G : forall l a, (0 <= a)%Z ->
            (0 <= fold_left (fun a b => (a + Z.of_nat (nat_of_ascii b))%Z) l a)%Z).
  { induction l as [|c l IH]; intros a Ha; cbn [fold_left]; [exact Ha|].
    apply IH. lia. }
  apply G. lia.
Qed.

Lemma dailyIndex_bounds (today : string) : (0 <= dailyIndex today < 4)%Z.
Proof.
  unfold dailyIndex.
  pose proof (dateSeed_nonneg today) as Hs.
  set (r := Z.rem (dateSeed today * 9301 + 49297) 233280).
  assert (Hr : (0 <= r < 233280)%Z).
  { subst r. apply Z.rem_bound_pos; lia. }
  assert (Hq0 : 0 <= inject_Z r).
  { change 0 with (inject_Z 0). rewrite <- Zle_Qle. lia. }
  assert (Hq1 : inject_Z r <= 233279).
  { change 233279 with (inject_Z 233279). rewrite <- Zle_Qle. lia. }
  change (inject_Z (Z.of_nat (length challenges))) with 4.
  set (v := inject_Z r / 233280 * 4).
  assert (Hv : 0 <= v /\ v < 4).
  { subst v. unfold Qdiv.
    assert (E : / 233280 == 1 # 233280) by reflexivity.
    rewrite E. split; nra. }
  split.
  - change 0%Z with (Qfloor 0). apply Qfloor_resp_le. apply Hv.
  - rewrite Zlt_Qlt. apply Qle_lt_trans with v; [apply Qfloor_le|apply Hv].
Qed.

(** On every date a challenge comes out: it is one of the four of the
    array, and its bonus is 20 points per block of that challenge, between
    300 and 600. *)
Theorem daily_challenge_always_selected (today : string) :
  exists c : DailyChallenge,
    generateDailyChallenge today = Some c /\
    daily_date c = today /\
    In (daily_template c) challenges /\
    daily_bonusPoints c = (template_blocks (daily_template c) * 20)%Z /\
    (300 <= daily_bonusPoints c <= 600)%Z.
Proof.
  unfold generateDailyChallenge.
  pose proof (dailyIndex_bounds today) as [H0 H4].
  destruct (Z.ltb_spec (dailyIndex today) 0); [lia|].
  assert (C : Z.to_nat (dailyIndex today) = 0%nat \/
              Z.to_nat (dailyIndex today) = 1%nat \/
              Z.to_nat (dailyIndex today) = 2%nat \/
              Z.to_nat (dailyIndex today) = 3%nat) by lia.
  destruct C as [E|[E|[E|E]]]; rewrite E; cbn [nth_error challenges];
    eexists; (split; [reflexivity|]); cbn; repeat split; auto 6; lia.
Qed.

End LevelTableFacts.

(** ** Blocks: overlap, motion, generation *)

Module BlockFacts.
Import Game Notions.

(** The overlap of two blocks does not depend on the order in which they
    are given and is never negative. *)
Theorem overlap_symmetric (b1 b2 : Block) :
  calculateOverlap b1 b2 == calculateOverlap b2 b1 /\
  0 <= calculateOverlap b1 b2.
Proof.
  split.
  - unfold calculateOverlap.
    rewrite (Q.min_comm (position_x b1 + width b1)).
    rewrite (Q.max_comm (position_x b1)). reflexivity.
  - apply GameFacts.calculateOverlap_nonneg.
Qed.

(** With widths that are not negative, the overlap never exceeds the width
    of either block, and a block overlaps itself by its whole width. *)
Theorem overlap_within_widths (b1 b2 : Block) :
  0 <= width b1 -> 0 <= width b2 ->
  calculateOverlap b1 b2 <= Qmin (width b1) (width b2) /\
  calculateOverlap b1 b1 == width b1.
Proof.
  intros H1 H2. split.
  - apply Q.min_glb.
    + apply GameFacts.calculateOverlap_le_width. exact H1.
    + unfold calculateOverlap. apply Q.max_lub; [exact H2|].
      pose proof (Q.le_min_r (position_x b1 + width b1)
                             (position_x b2 + width b2)).
      pose proof (Q.le_max_r (position_x b1) (position_x b2)).
      lra.
  - unfold calculateOverlap.
    rewrite Q.min_id, Q.max_id.
    rewrite (Q.max_r 0 (position_x b1 + width b1 - position_x b1)) by lra.
    lra.
Qed.

Lemma overlap_within_widths_witness :
  calculateOverlap (newBlock 1 100 20 710 1.5 true)
                   (place (newBlock 0 100 0 770 0 false))
  <= Qmin 100 100.
Proof.
  apply (overlap_within_widths
           (newBlock 1 100 20 710 1.5 true)
           (place (newBlock 0 100 0 770 0 false)));
    vm_compute; discriminate.
Defined.





Lemma generateNewBlock_facts (o : Oracle) (g : GameState)
  (lp : Levels.LevelParams) :
  currentLevelParams g = Some lp ->
  0 <= minBlockWidth (config g) ->
  exists g' b,
    generateNewBlock o g = Some g' /\
    currentBlock g' = Some b /\
    tower g' = tower g /\
    id b = (blocksPlaced g + 1)%Z /\
    position_x b = 0 /\
    position_y b
      = canvasHeight (config g)
        - inject_Z (Z.of_nat (length (tower g)) + 2) * blockHeight (config g) /\
    isMoving b = true /\ isPlaced b = false /\
    minBlockWidth (config g) * 0.7 <= width b /\
    (0 <= random1 o -> random1 o <= 1 ->
     (0 <= blocksInCurrentLevel g)%Z ->
     Levels.range_min (Levels.params_blockWidthRange lp)
       <= Levels.range_max (Levels.params_blockWidthRange lp) ->
     width b <= Qmax (minBlockWidth (config g))
                     (Levels.range_max (Levels.params_blockWidthRange lp))).
Proof.
  intros Hp Hmin.
  destruct (GameFacts.generateNewBlock_some o g lp Hp) as [g' E].
  destruct (GameFacts.generateNewBlock_current o g g' Hmin E)
    as (b & Hb & Hmv & Hlow).
  pose proof (GameFacts.generateNewBlock_board o g g' E) as B.
  exists g', b. split; [exact E|]. split; [exact Hb|].
  split; [apply B|].
  revert E Hb. unfold generateNewBlock. rewrite Hp.
  set (lo := Levels.range_min (Levels.params_blockWidthRange lp)).
  set (hi := Levels.range_max (Levels.params_blockWidthRange lp)).
  set (w := Qmax (minBlockWidth (config g)) (lo + random1 o * (hi - lo))).
  set (n := inject_Z (blocksInCurrentLevel g)).
  assert (Wlo : minBlockWidth (config g) <= w) by apply Q.le_max_l.
  assert (Wup : 0 <= random1 o -> random1 o <= 1 -> lo <= hi ->
                w <= Qmax (minBlockWidth (config g)) hi).
  { intros R0 R1 Hr. apply Q.max_le_compat_l. nra. }
  assert (F7 : (0 <= blocksInCurrentLevel g)%Z ->
               Qmax 0.7 (1 - n * 0.05) <= 1 /\ Qmax 0.8 (1 - n * 0.03) <= 1).
  { intro Hk.
    assert (Hn : 0 <= n).
    { subst n. change 0 with (inject_Z 0). rewrite <- Zle_Qle. exact Hk. }
    split; apply Q.max_lub; lra. }
  assert (Scale : forall fac, 0 <= fac -> fac <= 1 ->
            0 <= random1 o -> random1 o <= 1 -> lo <= hi ->
            w * fac <= Qmax (minBlockWidth (config g)) hi).
  { intros fac F0 F1 R0 R1 Hr. specialize (Wup R0 R1 Hr).
    assert (0 <= w) by lra. nra. }
  assert (P7 : 0 <= Qmax 0.7 (1 - n * 0.05)).
  { apply Qle_trans with 0.7; [discriminate|apply Q.le_max_l]. }
  assert (P8 : 0 <= Qmax 0.8 (1 - n * 0.03)).
  { apply Qle_trans with 0.8; [discriminate|apply Q.le_max_l]. }
  destruct (currentMechanic g) as [[]|]; intros E Hb; injection E as <-;
    cbn [currentBlock set_currentBlock isGravityMechanic andb] in Hb;
    try (destruct (truthy _)); injection Hb as <-;
    cbn [id position_x position_y isMoving isPlaced width set_verticalSpeed
         newBlock];
    (repeat split; try reflexivity; try exact Hlow); intros R0 R1 Hk Hr;
    try (apply Wup; assumption);
    try (apply Scale; try assumption; try apply F7; assumption).
Qed.

(** Once the level settings exist, [generateNewBlock] always succeeds.  The
    new block is numbered one past the blocks placed, starts moving at the
    left edge in the row two above the tower top, and (for a draw between 0
    and 1 and a non-negative per-level counter) its width lies between 70%
    of [minBlockWidth] and the larger of [minBlockWidth] and the upper end
    of the level's width range. *)
Theorem generated_block_shape (o : Oracle) (g : GameState)
  (lp : Levels.LevelParams) :
  currentLevelParams g = Some lp ->
  0 <= minBlockWidth (config g) ->
  exists g' b,
    generateNewBlock o g = Some g' /\
    currentBlock g' = Some b /\
    tower g' = tower g /\
    id b = (blocksPlaced g + 1)%Z /\
    position_x b = 0 /\
    position_y b
      = canvasHeight (config g)
        - inject_Z (Z.of_nat (length (tower g)) + 2) * blockHeight (config g) /\
    isMoving b = true /\ isPlaced b = false /\
    minBlockWidth (config g) * 0.7 <= width b /\
    (0 <= random1 o -> random1 o <= 1 ->
     (0 <= blocksInCurrentLevel g)%Z ->
     Levels.range_min (Levels.params_blockWidthRange lp)
       <= Levels.range_max (Levels.params_blockWidthRange lp) ->
     width b <= Qmax (minBlockWidth (config g))
                     (Levels.range_max (Levels.params_blockWidthRange lp))).
Proof. apply generateNewBlock_facts. Qed.

Lemma generated_block_shape_witness :
  exists g' b,
    generateNewBlock sampleOracle (thirdDropSession 320) = Some g' /\
    currentBlock g' = Some b /\ id b = 3%Z /\ 40 * 0.7 <= width b.
Proof.
  destruct (generated_block_shape sampleOracle (thirdDropSession 320)
              (Levels.calculateLevelParameters 1))
    as (g' & b & E & Hb & _ & Hid & _ & _ & _ & _ & Hw & _).
  - reflexivity.
  - vm_compute. discriminate.
  - exists g', b. repeat split; assumption.
Defined.

End BlockFacts.

(** ** What every reachable session satisfies *)

Module SessionFacts.
Import Game Notions SessionNotions.

Lemma Sound_transfer (g g' : GameState) :
  Sound g ->
  tower g' = tower g -> level g' = level g -> score g' = score g ->
  blocksPlaced g' = blocksPlaced g ->
  blocksInCurrentLevel g' = blocksInCurrentLevel g ->
  comboStreak g' = comboStreak g -> config g' = config g ->
  currentLevelConfig g' = currentLevelConfig g ->
  currentLevelParams g' = currentLevelParams g ->
  perfectThreshold g' = perfectThreshold g ->
  (forall b, currentBlock g' = Some b -> isMoving b = true ->
             id b = (blocksPlaced g + 1)%Z) ->
  Sound g'.
Proof.
  intros [[C1 C2 C3] Hn Hp Hi Ha Hf Hs Hb Hk Hl Hsc] Et El Es Eb Ei Ec Ecf
         Elc Elp Eth Hact.
  constructor; try rewrite Et; try rewrite Ecf; try rewrite Eb;
    try rewrite Ec; try rewrite Ei; try rewrite El; try rewrite Es;
    try assumption.
  constructor; rewrite ?Elc, ?Elp, ?Eth, ?El; assumption.
Qed.

Lemma stackedOn_snoc (cfg : Config) (t : list Block) (top b : Block) :
  stackedOn cfg t ->
  last (map Some t) None = Some top ->
  position_y b == position_y top - blockHeight cfg ->
  stackedOn cfg (t ++ [b]).
Proof.
  induction t as [|x t IH]; [discriminate|].
  destruct t as [|x' t'].
  - cbn. intros _ E Hy. injection E as <-. split; [exact Hy|exact I].
  - intros [Hxy Hr] E Hy.
    change ((x :: x' :: t') ++ [b]) with (x :: (x' :: t') ++ [b]).
    change (stackedOn cfg (x :: (x' :: t') ++ [b])) with
      (position_y x' == position_y x - blockHeight cfg /\
       stackedOn cfg ((x' :: t') ++ [b])).
    split; [exact Hxy|]. apply IH; assumption.
Qed.

Lemma stackedOn_map (cfg : Config) (f : Block -> Block) (t : list Block) :
  (forall b, position_y (f b) = position_y b) ->
  stackedOn cfg t -> stackedOn cfg (map f t).
Proof.
  intro Hf. induction t as [|x t IH]; [trivial|].
  destruct t as [|x' t']; [trivial|].
  intros [Hxy Hr]. cbn [map].
  change (position_y (f x') == position_y (f x) - blockHeight cfg /\
          stackedOn cfg (map f (x' :: t'))).
  rewrite !Hf. split; [exact Hxy|]. apply IH. exact Hr.
Qed.

Lemma seq_snoc (n : nat) : seq 0 (S n) = seq 0 n ++ [n].
Proof. rewrite seq_S. reflexivity. Qed.

Lemma update_same_id (f : Frame) (g : GameState) (b : Block) :
  id (update f g b) = id b.
Proof.
  unfold update. destruct (isMoving b); [|reflexivity].
  repeat match goal with
         | |- context [if ?c then _ else _] => destruct c
         end; reflexivity.
Qed.

(** A session just initialized is sound. *)
Lemma initGame_sound (lvl : Z) (o : Oracle) (g : GameState) :
  Sound (initGame lvl o g).
Proof.
  unfold initGame.
  match goal with |- context [generateNewBlock o ?s] =>
    set (g1 := s);
    destruct (GameFacts.generateNewBlock_some o g1
                (Levels.calculateLevelParameters lvl) eq_refl) as [g2 E];
    rewrite E;
    pose proof (GameFacts.generateNewBlock_board o g1 g2 E) as B
  end.
  assert (Hid : forall b, currentBlock g2 = Some b -> id b = 1%Z).
  { revert E. unfold generateNewBlock.
    change (currentLevelParams g1)
      with (Some (Levels.calculateLevelParameters lvl)).
    destruct (currentMechanic g1) as [[]|]; intros E; injection E as <-;
      cbn [currentBlock set_currentBlock isGravityMechanic andb];
      try (destruct (truthy _)); intros b Hb; injection Hb as <-;
      reflexivity. }
  destruct B.
  cbn [g1 tower score level blocksPlaced blocksInCurrentLevel comboStreak
       config currentLevelConfig currentLevelParams perfectThreshold] in *.
  constructor.
  - constructor; congruence.
  - rewrite same_tower0, same_blocksPlaced0. reflexivity.
  - rewrite same_blocksPlaced0. lia.
  - rewrite same_tower0. reflexivity.
  - intros b Hb _. rewrite same_blocksPlaced0. apply Hid. exact Hb.
  - rewrite same_tower0. constructor; [split; reflexivity|constructor].
  - rewrite same_tower0. exact I.
  - rewrite same_tower0, same_config0. eexists. eexists.
    split; [reflexivity|]. reflexivity.
  - rewrite same_comboStreak0. lia.
  - rewrite same_blocksInCurrentLevel0. lia.
  - rewrite same_score0. lia.
Qed.

Lemma generateNewBlock_id (o : Oracle) (g g' : GameState) :
  generateNewBlock o g = Some g' ->
  forall b, currentBlock g' = Some b -> id b = (blocksPlaced g + 1)%Z.
Proof.
  unfold generateNewBlock.
  destruct (currentLevelParams g) as [lp|]; [|discriminate].
  destruct (currentMechanic g) as [[]|]; intros E; injection E as <-;
    cbn [currentBlock set_currentBlock isGravityMechanic andb];
    try (destruct (truthy _)); intros b Hb; injection Hb as <-;
    reflexivity.
Qed.

(** Only the levels of the table have a quota to reach. *)
Lemma quota_level (g : GameState) :
  Coherent g -> quotaReached g = true -> (1 <= level g <= 7)%Z.
Proof.
  intros [Hc _ _] HQ. unfold quotaReached in HQ. rewrite Hc in HQ.
  destruct (Z_lt_le_dec (level g) 1) as [H|H1].
  - rewrite LevelTableFacts.getLevelConfig_outside in HQ by lia. discriminate.
  - destruct (Z_le_gt_dec (level g) 7) as [H7|H7]; [lia|].
    rewrite LevelTableFacts.getLevelConfig_outside in HQ by lia. discriminate.
Qed.

Lemma scored_sound (g : GameState) (cur top : Block) :
  Sound g -> Fits g cur top -> Sound (scored cur g).
Proof.
  intros [[C1 C2 C3] Hn Hp Hi Ha Hf Hs (base & rest & Hb & Hby) Hk Hl Hsc]
         [Fc Fi Fp Fm Ft Fy].
  constructor; cbn [scored tower score level blocksPlaced blocksInCurrentLevel
                    comboStreak config currentBlock].
  - constructor; assumption.
  - rewrite length_app. cbn [length]. lia.
  - lia.
  - rewrite length_app. cbn [length]. rewrite Nat.add_1_r, seq_snoc.
    rewrite !map_app, Hi. cbn [map]. rewrite Fi. do 2 f_equal. lia.
  - intros b Hcur Hmv. rewrite Fc in Hcur. injection Hcur as <-. congruence.
  - apply Forall_app. split; [exact Hf|].
    constructor; [split; assumption|constructor].
  - apply (stackedOn_snoc _ _ top); assumption.
  - exists base, (rest ++ [cur]). rewrite Hb. split; [reflexivity|exact Hby].
  - exact Hk.
  - lia.
  - intro H. specialize (Hsc H). lia.
Qed.

Lemma advanced_sound (g : GameState) (cur top : Block) :
  Sound g -> Fits g cur top -> (1 <= level g)%Z -> Sound (advanced cur g).
Proof.
  intros [[C1 C2 C3] Hn Hp Hi Ha Hf Hs (base & rest & Hb & Hby) Hk Hl Hsc]
         [Fc Fi Fp Fm Ft Fy] H1.
  constructor; cbn [advanced tower score level blocksPlaced
                    blocksInCurrentLevel comboStreak config currentBlock].
  - constructor; reflexivity.
  - rewrite length_app. cbn [length]. lia.
  - lia.
  - rewrite length_app. cbn [length]. rewrite Nat.add_1_r, seq_snoc.
    rewrite !map_app, Hi. cbn [map]. rewrite Fi. do 2 f_equal. lia.
  - intros b Hcur Hmv. rewrite Fc in Hcur. injection Hcur as <-. congruence.
  - apply Forall_app. split; [exact Hf|].
    constructor; [split; assumption|constructor].
  - apply (stackedOn_snoc _ _ top); assumption.
  - exists base, (rest ++ [cur]). rewrite Hb. split; [reflexivity|exact Hby].
  - exact Hk.
  - lia.
  - intros _. assert (0 <= score g)%Z by (apply Hsc; lia). lia.
Qed.

Lemma generated_sound (o : Oracle) (g g' : GameState) :
  Sound g -> generateNewBlock o g = Some g' -> Sound g'.
Proof.
  intros S E.
  pose proof (GameFacts.generateNewBlock_board o g g' E) as B. destruct B.
  apply (Sound_transfer g g' S); try assumption.
  intros b Hb _. apply (generateNewBlock_id o g g' E b Hb).
Qed.

Lemma Placement_sound (o : Oracle) (perfect : bool) (ov : Q)
  (cur top : Block) (g : GameState) (r : GameState * DropResult) :
  Sound g -> Fits g cur top ->
  Placement o perfect ov cur g r -> Sound (fst r).
Proof.
  intros S F P.
  destruct P as [HQ L|g' HQ L E B|g' HQ E B]; cbn [fst].
  - apply (Sound_transfer (scored cur g)); try reflexivity.
    + apply (scored_sound g cur top); assumption.
    + intros b Hb Hm. cbn in Hb. rewrite (fits_current _ _ _ F) in Hb.
      injection Hb as <-. rewrite (fits_still _ _ _ F) in Hm. discriminate.
  - apply (generated_sound o (advanced cur g)); [|exact E].
    apply (advanced_sound g cur top); try assumption.
    apply (quota_level g (sound_coherent g S) HQ).
  - apply (generated_sound o (scored cur g)); [|exact E].
    apply (scored_sound g cur top); assumption.
Qed.

Lemma comboMultiplier_pos (g : GameState) : (1 <= comboMultiplier g <= 2)%Z.
Proof.
  unfold comboMultiplier. destruct (currentMechanic g) as [[]|]; lia.
Qed.

(** A drop keeps the session sound. *)
Lemma dropBlock_sound (o : Oracle) (g : GameState) :
  Sound g -> Sound (fst (dropBlock o g)).
Proof.
  intro S.
  destruct (currentBlock g) as [cb|] eqn:Hc;
    [|unfold dropBlock; rewrite Hc; exact S].
  destruct (isMoving cb) eqn:Hm;
    [|unfold dropBlock; rewrite Hc, Hm; exact S].
  destruct (lastTowerBlock g) as [top|] eqn:Hl;
    [|unfold dropBlock; rewrite Hc, Hm, Hl; exact S].
  assert (D : Droppable g cb top) by (constructor; assumption).
  assert (St : Settled g).
  { destruct (sound_coherent g S) as [C1 C2 _].
    constructor; congruence. }
  pose proof (sound_active g S cb Hc Hm) as Hid.
  destruct (Qlt_le_dec 0 (calculateOverlap cb top)) as [Hov|Hov].
  - destruct (perfectAlignment g (landed g cb top) top
                (calculateOverlap cb top)) eqn:E;
      [destruct (GameFacts.PopupShows_dec o g) as [HS|HS]|].
    + pose proof (GameFacts.dropBlock_placement o g cb top D St Hov
                    (fun _ => HS)) as P.
      cbv zeta in P. rewrite E in P.
      apply (Placement_sound _ _ _ _ top _ _) in P; [exact P| |].
      * destruct S as [[C1 C2 C3] Hn Hp Hi Ha Hf Hs Hb Hk Hlv Hsc].
        pose proof (comboMultiplier_pos g) as Hmul.
        constructor;
          cbn [rewarded tower score level blocksPlaced blocksInCurrentLevel
               comboStreak config currentBlock set_currentBlock set_score
               set_comboStreak currentLevelConfig currentLevelParams
               perfectThreshold]; try assumption.
        -- constructor; assumption.
        -- intros b Hb' Hm'. injection Hb' as <-. discriminate.
        -- lia.
        -- intro H. specialize (Hsc H). nia.
      * constructor; try reflexivity; try assumption.
    + rewrite (GameFacts.dropBlock_popup_throws o g cb top D Hov E HS).
      cbn [fst].
      destruct S as [[C1 C2 C3] Hn Hp Hi Ha Hf Hs Hb Hk Hlv Hsc].
      constructor;
        cbn [tower score level blocksPlaced blocksInCurrentLevel
             comboStreak config currentBlock set_currentBlock
             set_comboStreak currentLevelConfig currentLevelParams
             perfectThreshold]; try assumption.
      * constructor; assumption.
      * intros b Hb' Hm'. injection Hb' as <-. discriminate.
      * lia.
    + assert (HS : perfectAlignment g (landed g cb top) top
                     (calculateOverlap cb top) = true -> PopupShows o g)
        by (rewrite E; discriminate).
      pose proof (GameFacts.dropBlock_placement o g cb top D St Hov HS) as P.
      cbv zeta in P. rewrite E in P.
      apply (Placement_sound _ _ _ _ top _ _) in P; [exact P| |].
      * destruct S as [[C1 C2 C3] Hn Hp Hi Ha Hf Hs Hb Hk Hlv Hsc].
        constructor;
          cbn [trimmed tower score level blocksPlaced blocksInCurrentLevel
               comboStreak config currentBlock set_currentBlock
               set_comboStreak currentLevelConfig currentLevelParams
               perfectThreshold]; try assumption.
        -- constructor; assumption.
        -- intros b Hb' Hm'. injection Hb' as <-. discriminate.
        -- lia.
      * constructor; try reflexivity; try assumption.
  - rewrite (GameFacts.dropBlock_miss o g cb top D Hov). cbn [fst].
    apply (Sound_transfer g); try reflexivity; [exact S|].
    intros b Hb _. cbn in Hb. injection Hb as <-.
    unfold addFailureAnimations_miss. destruct (domReady o); exact Hid.
Qed.

Lemma checkTowerStability_sound (g : GameState) :
  Sound g -> Sound (checkTowerStability g).
Proof.
  intro S. unfold checkTowerStability.
  destruct (length (tower g) <? 3)%nat; [exact S|].
  destruct (Qlt_bool (maxOffset g) (totalOffset (tower g))); [|exact S].
  destruct S as [[C1 C2 C3] Hn Hp Hi Ha Hf Hs (base & rest & Hb & Hby) Hk Hl
                 Hsc].
  constructor;
    cbn [triggerTowerCollapse set_tower set_isActive tower score level
         blocksPlaced blocksInCurrentLevel comboStreak config currentBlock];
    try assumption.
  - constructor; assumption.
  - rewrite length_map. exact Hn.
  - rewrite length_map, map_map. exact Hi.
  - clear - Hf. induction Hf as [|x t Hx Ht IH]; cbn [map]; constructor;
      assumption.
  - apply stackedOn_map; [reflexivity|exact Hs].
  - exists (set_collapsing true base), (map (set_collapsing true) rest).
    rewrite Hb. split; [reflexivity|exact Hby].
Qed.

Lemma updateGame_sound (f : Frame) (g : GameState) :
  Sound g -> Sound (updateGame f g).
Proof.
  intro S. unfold updateGame.
  destruct (negb (isActive g) || isPaused g); [exact S|].
  apply checkTowerStability_sound.
  destruct (currentBlock g) as [b|] eqn:Hb; [|exact S].
  destruct (isMoving b) eqn:Hm; [|exact S].
  apply (Sound_transfer g); try reflexivity; [exact S|].
  intros b' Hb' _. cbn in Hb'. injection Hb' as <-.
  rewrite update_same_id. apply (sound_active g S b Hb Hm).
Qed.

(** Every session the game reaches is sound. *)
Lemma Reachable_sound (g : GameState) : Reachable g -> Sound g.
Proof.
  induction 1 as [lvl o g Hcfg|o g R IH|f g R IH|g R IH|g R IH|g R IH
                 |o g R IH].
  - apply initGame_sound.
  - apply dropBlock_sound. exact IH.
  - apply updateGame_sound. exact IH.
  - apply (Sound_transfer g); try reflexivity; [exact IH|].
    intros b Hb Hm. apply (sound_active g IH b Hb Hm).
  - apply (Sound_transfer g); try reflexivity; [exact IH|].
    intros b Hb Hm. apply (sound_active g IH b Hb Hm).
  - apply (Sound_transfer g); try reflexivity; [exact IH|].
    intros b Hb Hm. apply (sound_active g IH b Hb Hm).
  - unfold resetGame.
    apply (Sound_transfer (initGame 1 o g)); try reflexivity;
      [apply initGame_sound|].
    intros b Hb Hm. apply (sound_active _ (initGame_sound 1 o g) b Hb Hm).
Qed.

(** In every session the game reaches, the tower is never empty and holds
    one block more than were placed; its blocks carry the numbers 0, 1, 2,
    ... from the base up and are all marked placed and not moving; a moving
    active block carries the next number. *)
Theorem tower_blocks_numbered_in_order (g : GameState) :
  Reachable g ->
  Z.of_nat (length (tower g)) = (blocksPlaced g + 1)%Z /\
  (0 <= blocksPlaced g)%Z /\
  map id (tower g) = map Z.of_nat (seq 0 (length (tower g))) /\
  Forall (fun b => isPlaced b = true /\ isMoving b = false) (tower g) /\
  (forall b, currentBlock g = Some b -> isMoving b = true ->
             id b = (blocksPlaced g + 1)%Z).
Proof.
  intro R. destruct (Reachable_sound g R).
  repeat split; assumption.
Qed.

Lemma reachable_first_drop :
  Reachable (fst (dropBlock sampleOracle
                    (frames travel (initGame 1 sampleOracle gameState)))).
Proof.
  apply reach_drop.
  assert (F : forall fs g, Reachable g -> Reachable (frames fs g)).
  { induction fs as [|f fs IH]; intros g R; [exact R|].
    cbn [frames fold_left]. apply IH. apply reach_frame. exact R. }
  apply F. apply reach_init. split; vm_compute; discriminate.
Defined.

Lemma tower_blocks_numbered_in_order_witness :
  map id (tower (fst (dropBlock sampleOracle
                        (frames travel (initGame 1 sampleOracle gameState)))))
  = [0%Z; 1%Z].
Proof.
  destruct (tower_blocks_numbered_in_order _ reachable_first_drop)
    as (_ & _ & Hi & _).
  rewrite Hi. vm_compute. reflexivity.
Defined.

(** In every session the game reaches, the base block lies in the bottom
    row of the canvas and every other tower block lies exactly one block
    height above the block below it. *)
Theorem tower_blocks_stacked_row_by_row (g : GameState) :
  Reachable g ->
  stackedOn (config g) (tower g) /\
  exists base rest,
    tower g = base :: rest /\
    position_y base == canvasHeight (config g) - blockHeight (config g).
Proof.
  intro R. destruct (Reachable_sound g R). split; assumption.
Qed.

Lemma tower_blocks_stacked_row_by_row_witness :
  stackedOn defaultConfig
    (tower (fst (dropBlock sampleOracle
                   (frames travel (initGame 1 sampleOracle gameState))))).
Proof.
  exact (proj1 (tower_blocks_stacked_row_by_row _ reachable_first_drop)).
Defined.

(** ** Level settings, exceptions, score *)

Lemma Sound_lastTowerBlock (g : GameState) :
  Sound g -> exists top, lastTowerBlock g = Some top.
Proof.
  intros S. destruct (sound_base g S) as (base & rest & Hb & _).
  unfold lastTowerBlock. rewrite Hb. cbn [map].
  clear. revert base. induction rest as [|x r IH]; intro base.
  - exists base. reflexivity.
  - destruct (IH x) as [top Ht]. exists top. exact Ht.
Qed.

Lemma Sound_settled (g : GameState) : Sound g -> Settled g.
Proof.
  intro S. destruct (sound_coherent g S) as [C1 C2 _].
  constructor; congruence.
Qed.

(** The ways a drop can go on a sound session. *)
Inductive DropCase (o : Oracle) (g : GameState) : Prop :=
  | case_idle :
      dropBlock o g = (g, NoBlockToDrop) ->
      (forall b, currentBlock g = Some b -> isMoving b = false) ->
      DropCase o g
  | case_miss cb top :
      Droppable g cb top -> calculateOverlap cb top <= 0 ->
      dropBlock o g
      = (set_currentBlock (Some (addFailureAnimations_miss o cb))
           (set_isActive false g), BlockMissed) ->
      DropCase o g
  | case_perfect cb top :
      Droppable g cb top -> 0 < calculateOverlap cb top ->
      perfectAlignment g (landed g cb top) top (calculateOverlap cb top)
      = true ->
      PopupShows o g ->
      Placement o true (calculateOverlap cb top)
                (set_perfectDrop true (landed g cb top)) (rewarded g cb top)
                (dropBlock o g) ->
      DropCase o g
  | case_popup cb top :
      Droppable g cb top -> 0 < calculateOverlap cb top ->
      perfectAlignment g (landed g cb top) top (calculateOverlap cb top)
      = true ->
      ~ PopupShows o g ->
      dropBlock o g
      = (set_currentBlock (Some (landed g cb top))
           (set_comboStreak (comboStreak g + 1) g), TypeError) ->
      DropCase o g
  | case_imperfect cb top :
      Droppable g cb top -> 0 < calculateOverlap cb top ->
      perfectAlignment g (landed g cb top) top (calculateOverlap cb top)
      = false ->
      Placement o false (calculateOverlap cb top)
                (shrink (config g) (calculateOverlap cb top)
                        (landed g cb top))
                (trimmed g cb top) (dropBlock o g) ->
      DropCase o g.

Lemma dropBlock_cases (o : Oracle) (g : GameState) :
  Sound g -> DropCase o g.
Proof.
  intro S.
  destruct (currentBlock g) as [cb|] eqn:Hc.
  - destruct (isMoving cb) eqn:Hm.
    + destruct (Sound_lastTowerBlock g S) as [top Hl].
      assert (D : Droppable g cb top) by (constructor; assumption).
      destruct (Qlt_le_dec 0 (calculateOverlap cb top)) as [Hov|Hov].
      * destruct (perfectAlignment g (landed g cb top) top
                    (calculateOverlap cb top)) eqn:E;
          [destruct (GameFacts.PopupShows_dec o g) as [HS|HS]|].
        -- pose proof (GameFacts.dropBlock_placement o g cb top D
                         (Sound_settled g S) Hov (fun _ => HS)) as P.
           cbv zeta in P. rewrite E in P.
           apply (case_perfect o g cb top); assumption.
        -- apply (case_popup o g cb top); try assumption.
           apply (GameFacts.dropBlock_popup_throws o g cb top); assumption.
        -- assert (HS : perfectAlignment g (landed g cb top) top
                           (calculateOverlap cb top) = true ->
                         PopupShows o g) by (rewrite E; discriminate).
           pose proof (GameFacts.dropBlock_placement o g cb top D
                         (Sound_settled g S) Hov HS) as P.
           cbv zeta in P. rewrite E in P.
           apply (case_imperfect o g cb top); assumption.
      * apply (case_miss o g cb top); try assumption.
        apply (GameFacts.dropBlock_miss o g cb top); assumption.
    + apply case_idle.
      * unfold dropBlock. rewrite Hc, Hm. reflexivity.
      * intros b Hb. rewrite Hc in Hb. injection Hb as <-. exact Hm.
  - apply case_idle.
    + unfold dropBlock. rewrite Hc. reflexivity.
    + intros b Hb. rewrite Hc in Hb. discriminate.
Qed.

Lemma Placement_level (o : Oracle) (perfect : bool) (ov : Q) (cur : Block)
  (g : GameState) (r : GameState * DropResult) :
  Placement o perfect ov cur g r ->
  (level (fst r) = level g /\
   (snd r = GameCompleted -> level g = 7%Z /\ quotaReached g = true /\
                             fst r = showGameCompleted (scored cur g)) /\
   (snd r <> GameCompleted -> isPaused (fst r) = isPaused g)) \/
  (level (fst r) = (level g + 1)%Z /\ level g <> 7%Z /\
   quotaReached g = true /\ blocksInCurrentLevel (fst r) = 0%Z /\
   isPaused (fst r) = true /\ snd r <> GameCompleted).
Proof.
  destruct 1 as [HQ L|g' HQ L E B|g' HQ E B]; cbn [fst snd].
  - left. split; [reflexivity|]. split; [auto|]. intro H. congruence.
  - right. destruct B. cbn in *. repeat split; try assumption; discriminate.
  - left. destruct B. cbn in *. split; [assumption|].
    split; [discriminate|]. intros _. assumption.
Qed.

(** Only level 4 is a precision_challenge level. *)
Lemma precision_level (g : GameState) :
  Coherent g -> currentMechanic g = Some Levels.precision_challenge ->
  level g = 4%Z.
Proof.
  intros [C1 _ _]. unfold currentMechanic. rewrite C1.
  destruct (Z_lt_le_dec (level g) 1) as [H|H1].
  - rewrite LevelTableFacts.getLevelConfig_outside by lia. discriminate.
  - destruct (Z_le_gt_dec (level g) 7) as [H7|H7].
    + assert (C : (level g = 1 \/ level g = 2 \/ level g = 3 \/ level g = 4 \/
                   level g = 5 \/ level g = 6 \/ level g = 7)%Z) by lia.
      destruct C as [E|[E|[E|[E|[E|[E|E]]]]]]; rewrite E;
        try discriminate. reflexivity.
    + rewrite LevelTableFacts.getLevelConfig_outside by lia. discriminate.
Qed.

(** In every session the game reaches, the level settings and the perfect
    threshold in force are the ones computed for the current level: the
    tower has a top and the settings exist, so a drop raises a TypeError in
    one case only, the perfect drop of a precision_challenge level (level
    4) whose score popup does not find the canvas; that drop leaves the
    block unplaced and unpaid with the streak already raised.  With the
    canvas in the document, or at any other level, no drop raises a
    TypeError. *)
Theorem settings_follow_level_type_error_only_popup (g : GameState) :
  Reachable g ->
  currentLevelConfig g = Some (Levels.getLevelConfig (level g)) /\
  currentLevelParams g = Some (Levels.calculateLevelParameters (level g)) /\
  perfectThreshold g
  = Levels.params_perfectThreshold
      (Levels.calculateLevelParameters (level g)) /\
  (forall o,
     snd (dropBlock o g) = TypeError <->
     exists cb top,
       Droppable g cb top /\ 0 < calculateOverlap cb top /\
       perfectAlignment g (landed g cb top) top (calculateOverlap cb top)
       = true /\
       currentMechanic g = Some Levels.precision_challenge /\
       canvasPresent o = false) /\
  (forall o, snd (dropBlock o g) = TypeError ->
     level g = 4%Z /\
     tower (fst (dropBlock o g)) = tower g /\
     score (fst (dropBlock o g)) = score g /\
     blocksPlaced (fst (dropBlock o g)) = blocksPlaced g /\
     comboStreak (fst (dropBlock o g)) = (comboStreak g + 1)%Z) /\
  (forall o, canvasPresent o = true \/ level g <> 4%Z ->
     snd (dropBlock o g) <> TypeError).
Proof.
  intro R. pose proof (Reachable_sound g R) as S.
  pose proof (sound_coherent g S) as C.
  destruct (sound_coherent g S) as [C1 C2 C3].
  assert (N : forall o, ~ PopupShows o g <->
              currentMechanic g = Some Levels.precision_challenge /\
              canvasPresent o = false).
  { intro o. unfold PopupShows. split.
    - intro H. destruct (currentMechanic g) as [[]|];
        try (exfalso; apply H; discriminate).
      destruct (canvasPresent o); [exfalso; apply H; reflexivity|].
      split; reflexivity.
    - intros [Hm Hc] H. rewrite (H Hm) in Hc. discriminate. }
  assert (T : forall o, snd (dropBlock o g) = TypeError ->
              exists cb top,
                Droppable g cb top /\ 0 < calculateOverlap cb top /\
                perfectAlignment g (landed g cb top) top
                  (calculateOverlap cb top) = true /\
                ~ PopupShows o g /\
                dropBlock o g
                = (set_currentBlock (Some (landed g cb top))
                     (set_comboStreak (comboStreak g + 1) g), TypeError)).
  { intros o H.
    destruct (dropBlock_cases o g S) as [E _|cb top D Hov E
                                        |cb top D Hov E HS P
                                        |cb top D Hov E HS P
                                        |cb top D Hov E P].
    - rewrite E in H. discriminate.
    - rewrite E in H. discriminate.
    - exfalso. exact (proj1 (proj2 (proj2 (proj2 (proj2 (proj2 (proj2
                 (proj2 (GameFacts.Placement_board _ _ _ _ _ _ P)))))))) H).
    - exists cb, top. auto.
    - exfalso. exact (proj1 (proj2 (proj2 (proj2 (proj2 (proj2 (proj2
                 (proj2 (GameFacts.Placement_board _ _ _ _ _ _ P)))))))) H). }
  split; [exact C1|]. split; [exact C2|]. split; [exact C3|].
  split; [|split].
  - intro o. split.
    + intro H. destruct (T o H) as (cb & top & D & Hov & E & HS & _).
      apply N in HS. exists cb, top. tauto.
    + intros (cb & top & D & Hov & E & Hm & Hc).
      rewrite (GameFacts.dropBlock_popup_throws o g cb top D Hov E);
        [reflexivity|]. apply N. split; assumption.
  - intros o H. destruct (T o H) as (cb & top & D & Hov & E & HS & Eq).
    apply N in HS. split; [apply precision_level; tauto|].
    rewrite Eq. repeat split.
  - intros o Hc H. destruct (T o H) as (cb & top & D & Hov & E & HS & _).
    apply N in HS. destruct HS as [Hm Hp].
    destruct Hc as [Hc|Hc]; [congruence|].
    apply Hc. apply precision_level; assumption.
Qed.

Lemma reachable_precisionSession : Reachable precisionSession.
Proof.
  assert (F : forall fs g, Reachable g -> Reachable (frames fs g)).
  { induction fs as [|f fs IH]; intros g R; [exact R|].
    cbn [frames fold_left]. apply IH. apply reach_frame. exact R. }
  unfold precisionSession. apply F. apply reach_init.
  split; vm_compute; discriminate.
Defined.

Lemma settings_follow_level_type_error_only_popup_witness :
  snd (dropBlock sampleOracle
         (fst (dropBlock sampleOracle
                 (frames travel (initGame 1 sampleOracle gameState)))))
  <> TypeError /\
  snd (dropBlock sampleOracle precisionSession) <> TypeError /\
  level precisionSession = 4%Z /\
  tower (fst (dropBlock noCanvasOracle precisionSession))
  = tower precisionSession.
Proof.
  split; [|split].
  - destruct (settings_follow_level_type_error_only_popup _
                reachable_first_drop) as (_ & _ & _ & _ & _ & A).
    apply A. left. reflexivity.
  - destruct (settings_follow_level_type_error_only_popup _
                reachable_precisionSession) as (_ & _ & _ & _ & _ & A).
    apply A. left. reflexivity.
  - destruct (settings_follow_level_type_error_only_popup _
                reachable_precisionSession) as (_ & _ & _ & _ & A & _).
    destruct (A noCanvasOracle) as (L & T & _).
    + vm_compute. reflexivity.
    + split; [exact L|exact T].
Defined.

(** In every session the game reaches, streak and counters are not
    negative; from level 1 upward the score is not negative either and no
    drop lowers it. *)
Theorem score_never_negative_nor_lowered (g : GameState) :
  Reachable g ->
  (0 <= comboStreak g)%Z /\ (0 <= blocksInCurrentLevel g)%Z /\
  ((1 <= level g)%Z ->
   (0 <= score g)%Z /\
   forall o, (score g <= score (fst (dropBlock o g)))%Z).
Proof.
  intro R. pose proof (Reachable_sound g R) as S.
  split; [apply S|]. split; [apply S|].
  intro H1. split; [apply (sound_score g S); lia|].
  intro o. pose proof (sound_streak g S) as Hk.
  pose proof (comboMultiplier_pos g) as Hm.
  destruct (dropBlock_cases o g S) as [E _|cb top D Hov E
                                      |cb top D Hov E HS P
                                      |cb top D Hov E HS E'
                                      |cb top D Hov E P].
  - rewrite E. cbn. lia.
  - rewrite E. cbn. lia.
  - apply GameFacts.Placement_board in P. destruct P as (_ & _ & Hs & _).
    rewrite Hs.
    cbn [rewarded score level set_currentBlock set_score set_comboStreak].
    nia.
  - rewrite E'. cbn. lia.
  - apply GameFacts.Placement_board in P. destruct P as (_ & _ & Hs & _).
    rewrite Hs.
    cbn [trimmed score level set_currentBlock set_comboStreak]. lia.
Qed.

Lemma score_never_negative_nor_lowered_witness :
  (0 <= score (fst (dropBlock sampleOracle
                      (frames travel (initGame 1 sampleOracle gameState)))))%Z.
Proof.
  destruct (score_never_negative_nor_lowered _ reachable_first_drop)
    as (_ & _ & A).
  destruct A as [B _]; [vm_compute; discriminate|exact B].
Defined.

(** A drop in a reachable session leaves the level where it is or raises it
    by exactly one; it raises it only from a level 1 to 6 whose quota the
    drop fills, restarting the per-level counter and pausing the game for
    the popup.  So the level stays within 1..7 once it is there, and a
    level outside the table never changes. *)
Theorem level_rises_by_one_within_table (o : Oracle) (g : GameState) :
  Reachable g ->
  let g' := fst (dropBlock o g) in
  (level g' = level g \/
   (level g' = (level g + 1)%Z /\ (1 <= level g <= 6)%Z /\
    blocksInCurrentLevel g' = 0%Z /\ isPaused g' = true)) /\
  ((1 <= level g <= 7)%Z -> (1 <= level g' <= 7)%Z) /\
  ((level g < 1 \/ 7 < level g)%Z -> level g' = level g).
Proof.
  intros R g'. pose proof (Reachable_sound g R) as S.
  assert (Q : forall g0, Coherent g0 -> level g0 = level g ->
              quotaReached g0 = true -> (1 <= level g <= 7)%Z).
  { intros g0 C E HQ. rewrite <- E. apply quota_level; assumption. }
  assert (Main : level g' = level g \/
                 (level g' = (level g + 1)%Z /\ (1 <= level g <= 6)%Z /\
                  blocksInCurrentLevel g' = 0%Z /\ isPaused g' = true)).
  { subst g'.
    destruct (dropBlock_cases o g S) as [E _|cb top D Hov E
                                        |cb top D Hov E HS P
                                        |cb top D Hov E HS E'
                                        |cb top D Hov E P].
    - rewrite E. left. reflexivity.
    - rewrite E. left. reflexivity.
    - destruct (Placement_level _ _ _ _ _ _ P)
        as [(L & _)|(L & L7 & HQ & K & Pz & _)].
      + left. exact L.
      + right. cbn in L, L7. split; [exact L|].
        assert (1 <= level g <= 7)%Z.
        { apply (Q (rewarded g cb top)); [|reflexivity|exact HQ].
          destruct (sound_coherent g S). constructor; assumption. }
        repeat split; try assumption; lia.
    - rewrite E'. left. reflexivity.
    - destruct (Placement_level _ _ _ _ _ _ P)
        as [(L & _)|(L & L7 & HQ & K & Pz & _)].
      + left. exact L.
      + right. cbn in L, L7. split; [exact L|].
        assert (1 <= level g <= 7)%Z.
        { apply (Q (trimmed g cb top)); [|reflexivity|exact HQ].
          destruct (sound_coherent g S). constructor; assumption. }
        repeat split; try assumption; lia. }
  split; [exact Main|]. split.
  - intro H. destruct Main as [E|(E & H6 & _)]; lia.
  - intro H. destruct Main as [E|(E & H6 & _)]; [exact E|lia].
Qed.

Lemma level_rises_by_one_within_table_witness :
  (1 <= level (fst (dropBlock sampleOracle
                      (fst (dropBlock sampleOracle
                              (frames travel
                                 (initGame 1 sampleOracle gameState)))))) <= 7)%Z.
Proof.
  destruct (level_rises_by_one_within_table sampleOracle _ reachable_first_drop)
    as (_ & A & _).
  apply A. vm_compute. split; discriminate.
Defined.

(** ** The end of a session *)

Lemma idle_run (inputs : list Input) (g : GameState) :
  isActive g = false \/ isPaused g = true ->
  Forall playInput inputs -> run inputs g = g.
Proof.
  intros Hg F. induction F as [|i inputs Hi _ IH]; [reflexivity|].
  cbn [run fold_left]. fold (run inputs (step i g)).
  assert (E : step i g = g).
  { assert (G : negb (isActive g) || isPaused g = true).
    { destruct Hg as [H|H]; rewrite H; [reflexivity|apply orb_true_r]. }
    destruct i as [f|o|k o]; cbn [step].
    - unfold updateGame. rewrite G. reflexivity.
    - unfold handleCanvasClick. rewrite G. reflexivity.
    - destruct k; try contradiction.
      unfold handleKeyDown.
      destruct (isActive g), (isPaused g); try discriminate; reflexivity. }
  rewrite E. exact IH.
Qed.

Lemma addToTower_not_missed (o : Oracle) (perfect : bool) (ov : Q)
  (cur : Block) (g : GameState) :
  snd (addToTower o perfect ov cur g) <> BlockMissed.
Proof.
  rewrite GameFacts.addToTower_unfold.
  assert (F : forall base st, snd (finish o perfect ov base st) <> BlockMissed).
  { intros base st. unfold finish.
    destruct (generateNewBlock o st); discriminate. }
  destruct (currentLevelConfig g); [|discriminate].
  destruct (quotaReached g); [|apply F].
  destruct (level g =? 7)%Z; [discriminate|apply F].
Qed.

Lemma dropBlock_missed_inv (o : Oracle) (g : GameState) :
  snd (dropBlock o g) = BlockMissed ->
  exists cb top,
    Droppable g cb top /\ calculateOverlap cb top <= 0 /\
    fst (dropBlock o g)
    = set_currentBlock (Some (addFailureAnimations_miss o cb))
        (set_isActive false g).
Proof.
  unfold dropBlock.
  destruct (currentBlock g) as [cb|] eqn:Hc; [|discriminate].
  destruct (isMoving cb) eqn:Hm; cbn [negb]; [|discriminate].
  destruct (lastTowerBlock g) as [top|] eqn:Ht; [|discriminate].
  destruct (Qle_bool (calculateOverlap cb top) 0) eqn:Hov.
  - intros _. exists cb, top. split; [constructor; assumption|].
    split; [apply Qle_bool_iff; exact Hov|reflexivity].
  - match goal with |- context [if ?c then _ else _] => destruct c end.
    + match goal with |- context [if ?c then _ else _] => destruct c end;
        [discriminate|].
      intro H. exfalso. exact (addToTower_not_missed _ _ _ _ _ H).
    + unfold checkWidthThenAdd.
      cbn [config set_currentBlock set_comboStreak].
      rewrite GameFacts.shrink_not_below.
      intro H. exfalso. exact (addToTower_not_missed _ _ _ _ _ H).
Qed.

(** When a click schedules the game-over screen, the block missed the
    tower: tower, score, level and counters are as before the click, the
    session is no longer active, and from then on frames, clicks and the
    space bar leave it exactly as it is. *)
Theorem missed_click_freezes_session (o : Oracle) (g : GameState) :
  snd (handleCanvasClick o g) = GameOverScheduled ->
  let g' := fst (handleCanvasClick o g) in
  isActive g' = false /\ tower g' = tower g /\ score g' = score g /\
  level g' = level g /\ blocksPlaced g' = blocksPlaced g /\
  comboStreak g' = comboStreak g /\
  forall inputs, Forall playInput inputs -> run inputs g' = g'.
Proof.
  unfold handleCanvasClick.
  destruct (negb (isActive g) || isPaused g); [discriminate|].
  destruct (snd (dropBlock o g)) eqn:E; try discriminate;
    try (destruct (showScorePopup o); discriminate); cbn [fst snd].
  - intros _.
    destruct (dropBlock_missed_inv o g E) as (cb & top & _ & _ & ->).
    repeat split. intros inputs F. apply idle_run; [left; reflexivity|exact F].
  - exfalso. exact (GameFacts.dropBlock_never_too_small o g E).
Qed.

Lemma missed_click_freezes_session_witness :
  run [Click sampleOracle; Tick (mkFrame (100 # 3) 0 0.5);
       Key Space sampleOracle]
      (fst (handleCanvasClick sampleOracle (sampleSession 200)))
  = fst (handleCanvasClick sampleOracle (sampleSession 200)).
Proof.
  assert (H : snd (handleCanvasClick sampleOracle (sampleSession 200))
              = GameOverScheduled) by (vm_compute; reflexivity).
  destruct (missed_click_freezes_session sampleOracle (sampleSession 200) H)
    as (_ & _ & _ & _ & _ & _ & A).
  apply A. repeat constructor.
Defined.

Lemma Placement_completed (o : Oracle) (perfect : bool) (ov : Q) (cur : Block)
  (g : GameState) (r : GameState * DropResult) :
  Placement o perfect ov cur g r ->
  quotaReached g = true -> level g = 7%Z ->
  r = (showGameCompleted (scored cur g), GameCompleted).
Proof.
  destruct 1; intros; congruence.
Qed.

Lemma dropBlock_completes (o : Oracle) (g : GameState) (cb top : Block) :
  Sound g -> Droppable g cb top -> 0 < calculateOverlap cb top ->
  level g = 7%Z -> (2 <= blocksInCurrentLevel g)%Z ->
  exists cur g0,
    dropBlock o g = (showGameCompleted (scored cur g0), GameCompleted) /\
    currentBlock g0 = Some cur /\ isMoving cur = false /\
    level g0 = 7%Z /\ tower g0 = tower g /\
    blocksPlaced g0 = blocksPlaced g /\ (score g <= score g0)%Z.
Proof.
  intros S D Hov L K.
  destruct (sound_coherent g S) as [C1 _ _].
  assert (HS : PopupShows o g).
  { unfold PopupShows, currentMechanic. rewrite C1, L. discriminate. }
  pose proof (GameFacts.dropBlock_placement o g cb top D (Sound_settled g S)
                Hov (fun _ => HS)) as P.
  cbv zeta in P.
  assert (HQ : forall g0, currentLevelConfig g0 = currentLevelConfig g ->
               blocksInCurrentLevel g0 = blocksInCurrentLevel g ->
               quotaReached g0 = true).
  { intros g0 E1 E2. unfold quotaReached. rewrite E1, C1, L, E2.
    cbn [Levels.getLevelConfig]. vm_compute Levels.blocksToComplete.
    cbn [negb Z.eqb andb].
    apply Z.leb_le. lia. }
  pose proof (sound_streak g S) as Hk.
  pose proof (comboMultiplier_pos g) as Hm.
  destruct (perfectAlignment g (landed g cb top) top
              (calculateOverlap cb top)).
  - apply Placement_completed in P;
      [|apply HQ; reflexivity|exact L].
    eexists _, _. split; [exact P|].
    cbn [rewarded currentBlock set_currentBlock level tower blocksPlaced
         score set_score set_comboStreak].
    repeat split; try assumption. nia.
  - apply Placement_completed in P;
      [|apply HQ; reflexivity|exact L].
    eexists _, _. split; [exact P|].
    cbn [trimmed currentBlock set_currentBlock level tower blocksPlaced
         score set_comboStreak].
    repeat split; try assumption. lia.
Qed.

(** In a reachable session at level 7 with two or more blocks placed in the
    level, a drop that overlaps the tower completes the game: the block is
    placed and paid, the session is paused and no longer active with no
    moving block left, so that every later drop reports that there is
    nothing to drop and frames, clicks and the space bar change nothing. *)
Theorem last_level_quota_completes_game (o : Oracle) (g : GameState)
  (cb top : Block) :
  Reachable g -> Droppable g cb top -> 0 < calculateOverlap cb top ->
  level g = 7%Z -> (2 <= blocksInCurrentLevel g)%Z ->
  let g' := fst (dropBlock o g) in
  snd (dropBlock o g) = GameCompleted /\
  isActive g' = false /\ isPaused g' = true /\ level g' = 7%Z /\
  length (tower g') = S (length (tower g)) /\
  (score g < score g')%Z /\
  (forall o', dropBlock o' g' = (g', NoBlockToDrop)) /\
  (forall inputs, Forall playInput inputs -> run inputs g' = g').
Proof.
  intros R D Hov L K g'. subst g'.
  destruct (dropBlock_completes o g cb top (Reachable_sound g R) D Hov L K)
    as (cur & g0 & E & Hc & Hm & L0 & T0 & _ & Hs).
  rewrite E. cbn [fst snd].
  split; [reflexivity|]. split; [reflexivity|]. split; [reflexivity|].
  split; [exact L0|]. split.
  { cbn [showGameCompleted scored tower set_isActive set_isPaused].
    rewrite T0, length_app. cbn [length]. lia. }
  split.
  { cbn [showGameCompleted scored score set_isActive set_isPaused].
    rewrite L0. lia. }
  split.
  - intro o'. unfold dropBlock.
    cbn [showGameCompleted scored currentBlock set_isActive set_isPaused].
    rewrite Hc, Hm. reflexivity.
  - intros inputs F. apply idle_run; [left; reflexivity|exact F].
Qed.

Lemma reachable_lastLevelSession : Reachable lastLevelSession.
Proof.
  assert (F : forall fs g, Reachable g -> Reachable (frames fs g)).
  { induction fs as [|f fs IH]; intros g R; [exact R|].
    cbn [frames fold_left]. apply IH. apply reach_frame. exact R. }
  unfold lastLevelSession. apply F. apply reach_drop. apply F.
  apply reach_drop. apply F. apply reach_init. split; vm_compute; discriminate.
Defined.

Lemma last_level_quota_completes_game_witness :
  snd (dropBlock sampleOracle lastLevelSession) = GameCompleted.
Proof.
  refine (proj1 (last_level_quota_completes_game sampleOracle lastLevelSession
                   _ _
                   reachable_lastLevelSession _ _ _ _)).
  - constructor; vm_compute; reflexivity.
  - vm_compute. reflexivity.
  - vm_compute. reflexivity.
  - vm_compute. discriminate.
Defined.

(** The click, or the press of the space bar, that completes level 7 in a
    running session ends in an exception inside the handler, after the
    session has been closed. *)
Theorem completing_input_throws (o : Oracle) (g : GameState)
  (cb top : Block) :
  Reachable g -> Droppable g cb top -> 0 < calculateOverlap cb top ->
  level g = 7%Z -> (2 <= blocksInCurrentLevel g)%Z ->
  isActive g = true -> isPaused g = false ->
  snd (handleCanvasClick o g) = HandlerThrew /\
  snd (handleKeyDown Space o g) = HandlerThrew /\
  isActive (step (Click o) g) = false /\
  isActive (step (Key Space o) g) = false.
Proof.
  intros R D Hov L K A P.
  destruct (dropBlock_completes o g cb top (Reachable_sound g R) D Hov L K)
    as (cur & g0 & E & _).
  cbn [step]. unfold handleCanvasClick, handleKeyDown.
  rewrite A, P, E. cbn. repeat split.
Qed.

Lemma completing_input_throws_witness :
  snd (handleCanvasClick sampleOracle lastLevelSession) = HandlerThrew.
Proof.
  refine (proj1 (completing_input_throws sampleOracle lastLevelSession
                   _ _
                   reachable_lastLevelSession _ _ _ _ _ _)).
  - constructor; vm_compute; reflexivity.
  - vm_compute. reflexivity.
  - vm_compute. reflexivity.
  - vm_compute. discriminate.
  - vm_compute. reflexivity.
  - vm_compute. reflexivity.
Defined.

End SessionFacts.

(** ** Pausing, saved sessions and the high-score list *)

Module StorageFacts.
Import Game Notions SessionNotions.

(** P pauses a running session; while it is paused frames, clicks and the
    space bar leave it as it is, P does not resume it, and Escape brings
    back exactly the session that was paused. *)
Theorem pause_freezes_play_escape_resumes (g : GameState)
  (inputs : list Input) (o1 o2 : Oracle) :
  isActive g = true -> isPaused g = false -> Forall playInput inputs ->
  run (Key KeyP o1 :: inputs) g = pauseGame g /\
  step (Key KeyP o2) (pauseGame g) = pauseGame g /\
  run (Key KeyP o1 :: inputs ++ [Key Escape o2]) g = g.
Proof.
  intros A P F.
  assert (R : run (Key KeyP o1 :: inputs) g = pauseGame g).
  { cbn [run fold_left step]. unfold handleKeyDown. rewrite A. cbn [fst].
    apply (SessionFacts.idle_run inputs (pauseGame g));
      [right; reflexivity|exact F]. }
  split; [exact R|]. split.
  - cbn [step]. unfold handleKeyDown.
    cbn [pauseGame isActive set_isPaused]. rewrite A. reflexivity.
  - change (Key KeyP o1 :: inputs ++ [Key Escape o2])
      with ((Key KeyP o1 :: inputs) ++ [Key Escape o2]).
    unfold run in *. rewrite fold_left_app, R.
    cbn [fold_left step]. unfold handleKeyDown.
    cbn [pauseGame isPaused set_isPaused fst start resumeGame].
    destruct g. cbn in *. subst. reflexivity.
Qed.

Lemma pause_freezes_play_escape_resumes_witness :
  run [Key KeyP sampleOracle; Click sampleOracle;
       Tick (mkFrame (100 # 3) 0 0.5); Key Escape sampleOracle]
      (sampleSession 50)
  = sampleSession 50.
Proof.
  apply (pause_freezes_play_escape_resumes (sampleSession 50)
           [Click sampleOracle; Tick (mkFrame (100 # 3) 0 0.5)]
           sampleOracle sampleOracle).
  - reflexivity.
  - reflexivity.
  - repeat constructor.
Defined.

(** Writing a saved state into a session and reading the session back gives
    the saved state again, whatever the session was, provided the saved
    level and speed multiplier are not 0 (which [setState] replaces by 1)
    and the saved state has an active block. *)
Theorem getState_returns_what_setState_wrote (s : SavedState)
  (h : GameState) :
  saved_level s <> 0%Z -> ~ saved_speedMultiplier s == 0 ->
  saved_currentBlock s <> None ->
  getState (setState s h) = s.
Proof.
  intros L M C.
  destruct s as [lvl sc bp bl cs sm ia ip tw cb]. cbn in L, M, C.
  unfold getState, setState.
  cbn [level score blocksPlaced blocksInCurrentLevel comboStreak
       speedMultiplier isActive isPaused tower currentBlock
       saved_level saved_score saved_blocksPlaced saved_blocksInCurrentLevel
       saved_comboStreak saved_speedMultiplier saved_isActive saved_isPaused
       saved_tower saved_currentBlock].
  destruct (Z.eqb_spec lvl 0) as [E|_]; [contradiction|].
  destruct (Qeq_bool sm 0) eqn:Q0; [apply Qeq_bool_iff in Q0; contradiction|].
  f_equal.
  - rewrite map_map. rewrite <- (map_id tw) at 2.
    apply map_ext. intros [i w x y pl]. reflexivity.
  - destruct cb as [[i w x y sp mv]|]; [reflexivity|contradiction].
Qed.

Lemma getState_returns_what_setState_wrote_witness :
  getState (setState thinSave gameState) = thinSave.
Proof.
  apply (getState_returns_what_setState_wrote thinSave gameState).
  - discriminate.
  - vm_compute. discriminate.
  - discriminate.
Defined.

(** Saving a session and restoring it into any session brings back score,
    counters, streak, flags and, block by block, identifier, width, position
    and placed flag of the tower, as well as identifier, width, position,
    speed and moving flag of the active block.  A level other than 0 comes
    back too, but the level settings and the perfect threshold do not: the
    receiving session keeps its own. *)
Theorem setState_restores_saved_fields_only (g h : GameState) :
  let r := setState (getState g) h in
  score r = score g /\ blocksPlaced r = blocksPlaced g /\
  blocksInCurrentLevel r = blocksInCurrentLevel g /\
  comboStreak r = comboStreak g /\
  isActive r = isActive g /\ isPaused r = isPaused g /\
  level r = (if (level g =? 0)%Z then 1%Z else level g) /\
  map (fun b => (id b, width b, position_x b, position_y b, isPlaced b))
      (tower r)
  = map (fun b => (id b, width b, position_x b, position_y b, isPlaced b))
      (tower g) /\
  option_map (fun b => (id b, width b, position_x b, position_y b, speed b,
                        isMoving b)) (currentBlock r)
  = option_map (fun b => (id b, width b, position_x b, position_y b, speed b,
                          isMoving b))
      (match currentBlock g with Some b => Some b | None => currentBlock h end)
  /\
  currentLevelConfig r = currentLevelConfig h /\
  currentLevelParams r = currentLevelParams h /\
  perfectThreshold r = perfectThreshold h /\ config r = config h.
Proof.
  intro r. subst r. unfold setState, getState.
  cbn [level score blocksPlaced blocksInCurrentLevel comboStreak
       speedMultiplier isActive isPaused tower currentBlock
       currentLevelConfig currentLevelParams perfectThreshold config
       saved_level saved_score saved_blocksPlaced saved_blocksInCurrentLevel
       saved_comboStreak saved_speedMultiplier saved_isActive saved_isPaused
       saved_tower saved_currentBlock].
  repeat split.
  - rewrite !map_map. apply map_ext. intro b. reflexivity.
  - destruct (currentBlock g) as [b|]; reflexivity.
Qed.

(** *** High scores *)

Lemma insertByScore_perm (e : HighScore) (l : list HighScore) :
  Permutation (e :: l) (insertByScore e l).
Proof.
  induction l as [|x l IH]; [reflexivity|].
  cbn [insertByScore]. destruct (hs_score x <? hs_score e)%Z; [reflexivity|].
  rewrite perm_swap. apply perm_skip. exact IH.
Qed.

Lemma insertByScore_desc (e : HighScore) (l : list HighScore) :
  descending l -> descending (insertByScore e l).
Proof.
  induction l as [|x l IH]; intro D.
  - cbn. split; [constructor|exact I].
  - cbn [insertByScore]. destruct D as [Hx Dl].
    destruct (Z.ltb_spec (hs_score x) (hs_score e)) as [Lt|Ge].
    + split; [|split; assumption].
      constructor; [lia|].
      eapply Forall_impl; [|exact Hx]. cbn. intros y Hy. lia.
    + split; [|apply IH; exact Dl].
      apply (Permutation_Forall (insertByScore_perm e l)).
      constructor; [exact Ge|exact Hx].
Qed.

Lemma insertByScore_low (e : HighScore) (l : list HighScore) :
  Forall (fun x => (hs_score e <= hs_score x)%Z) l ->
  insertByScore e l = l ++ [e].
Proof.
  induction 1 as [|x l Hx _ IH]; [reflexivity|].
  cbn [insertByScore app].
  destruct (Z.ltb_spec (hs_score x) (hs_score e)); [lia|].
  rewrite IH. reflexivity.
Qed.

Lemma sortByScore_snoc (l : list HighScore) (e : HighScore) :
  sortByScore (l ++ [e]) = insertByScore e (sortByScore l).
Proof.
  unfold sortByScore. rewrite fold_left_app. reflexivity.
Qed.

Lemma sortByScore_perm (l : list HighScore) :
  Permutation l (sortByScore l).
Proof.
  induction l as [|e l IH] using rev_ind; [reflexivity|].
  rewrite sortByScore_snoc, <- insertByScore_perm.
  rewrite Permutation_app_comm. cbn [app]. apply perm_skip. exact IH.
Qed.

Lemma sortByScore_desc (l : list HighScore) : descending (sortByScore l).
Proof.
  induction l as [|e l IH] using rev_ind; [exact I|].
  rewrite sortByScore_snoc. apply insertByScore_desc. exact IH.
Qed.

Lemma descending_app (l1 l2 : list HighScore) :
  descending (l1 ++ l2) ->
  descending l1 /\ descending l2 /\
  forall x y, In x l1 -> In y l2 -> (hs_score y <= hs_score x)%Z.
Proof.
  induction l1 as [|a l1 IH]; cbn [app descending].
  - intro D. repeat split; [exact D|]. intros x y [].
  - intros [Ha D]. destruct (IH D) as (D1 & D2 & H).
    apply Forall_app in Ha. destruct Ha as [Ha1 Ha2].
    repeat split; try assumption.
    intros x y [<-|Hx] Hy.
    + rewrite Forall_forall in Ha2. apply Ha2. exact Hy.
    + apply H; assumption.
Qed.

Lemma sortByScore_sorted (l : list HighScore) :
  descending l -> sortByScore l = l.
Proof.
  induction l as [|e l IH] using rev_ind; [reflexivity|].
  intro D. destruct (descending_app _ _ D) as (D1 & _ & H).
  rewrite sortByScore_snoc, (IH D1).
  apply insertByScore_low. apply Forall_forall.
  intros x Hx. apply H; [exact Hx|left; reflexivity].
Qed.

(** Whatever list is in storage, the list [saveHighScore] writes back holds
    the new entry and the old ones sorted by falling score and cut to ten:
    it has min(10, n + 1) entries, none scores more than one before it, and
    together with the entries cut off, none of which scores more than a
    kept one, it is a rearrangement of the old list and the new entry. *)
Theorem saveHighScore_keeps_sorted_top_ten (newScore : Z) (g : GameState)
  (highScores : list HighScore) :
  let saved := saveHighScore newScore g highScores in
  length saved = Nat.min 10 (S (length highScores)) /\
  descending saved /\
  exists cut,
    Permutation
      (highScores ++ [mkHighScore newScore (level g) (blocksPlaced g)])
      (saved ++ cut) /\
    forall kept x, In kept saved -> In x cut ->
                   (hs_score x <= hs_score kept)%Z.
Proof.
  intro saved. subst saved. unfold saveHighScore.
  set (all := highScores ++ [mkHighScore newScore (level g) (blocksPlaced g)]).
  pose proof (sortByScore_perm all) as P.
  pose proof (sortByScore_desc all) as D.
  rewrite <- (firstn_skipn 10 (sortByScore all)) in D.
  destruct (descending_app _ _ D) as (D1 & _ & H).
  split.
  { rewrite length_firstn, <- (Permutation_length P). unfold all.
    rewrite length_app. cbn [length]. rewrite Nat.add_1_r. reflexivity. }
  split; [exact D1|].
  exists (skipn 10 (sortByScore all)). split.
  - rewrite firstn_skipn. exact P.
  - intros kept x Hk Hx. apply H; assumption.
Qed.

Lemma firstn_insert_low (e : HighScore) (k : nat) (l : list HighScore) :
  (k <= length l)%nat ->
  Forall (fun x => (hs_score e <= hs_score x)%Z) (firstn k l) ->
  firstn k (insertByScore e l) = firstn k l.
Proof.
  revert l. induction k as [|k IH]; intros l Hl F; [reflexivity|].
  destruct l as [|x l]; [cbn in Hl; lia|].
  cbn [firstn] in F. inversion F as [|? ? Hx F']; subst.
  cbn [insertByScore].
  destruct (Z.ltb_spec (hs_score x) (hs_score e)); [lia|].
  cbn [firstn]. f_equal. apply IH; [cbn in Hl; lia|exact F'].
Qed.

(** A score that does not beat the tenth entry of a sorted list of ten or
    more does not enter the list, not even on a tie: what is written back
    is the first ten entries of the old list. *)
Theorem score_not_above_tenth_is_dropped (newScore : Z) (g : GameState)
  (highScores : list HighScore) :
  descending highScores -> (10 <= length highScores)%nat ->
  Forall (fun x => (newScore <= hs_score x)%Z) (firstn 10 highScores) ->
  saveHighScore newScore g highScores = firstn 10 highScores.
Proof.
  intros D L F. unfold saveHighScore.
  rewrite sortByScore_snoc, (sortByScore_sorted _ D).
  apply firstn_insert_low; assumption.
Qed.

Lemma score_not_above_tenth_is_dropped_witness :
  saveHighScore 50 gameState (repeat (mkHighScore 50 2 4) 10)
  = repeat (mkHighScore 50 2 4) 10.
Proof.
  apply (score_not_above_tenth_is_dropped 50 gameState
           (repeat (mkHighScore 50 2 4) 10)).
  - cbn. repeat split; repeat constructor; discriminate.
  - cbn. lia.
  - cbn. repeat constructor; discriminate.
Defined.

Lemma maxOf_bounds (first : Z) (others : list Z) :
  (first <= maxOf first others)%Z /\
  Forall (fun x => (x <= maxOf first others)%Z) others /\
  In (maxOf first others) (first :: others).
Proof.
  unfold maxOf. revert first.
  induction others as [|x l IH]; intro first; cbn [fold_left].
  - split; [lia|]. split; [constructor|left; reflexivity].
  - destruct (IH (Z.max first x)) as (A & B & C).
    split; [lia|]. split; [constructor; [lia|exact B]|].
    destruct C as [C|C]; [|right; right; exact C].
    rewrite <- C. destruct (Z.max_spec first x) as [[_ E]|[_ E]]; rewrite E.
    + right; left; reflexivity.
    + left; reflexivity.
Qed.

Lemma maxOf_head (first : Z) (others : list Z) :
  Forall (fun x => (x <= first)%Z) others -> maxOf first others = first.
Proof.
  intro F. destruct (maxOf_bounds first others) as (A & _ & [C|C]);
    [symmetry; exact C|].
  rewrite Forall_forall in F. specialize (F _ C). lia.
Qed.

(** After a score is saved, the best score the menu shows is the greater of
    the new score and the scores that were stored. *)
Theorem menu_best_score_after_save (newScore : Z) (g : GameState)
  (highScores : list HighScore) :
  option_map fst (loadGameStats (saveHighScore newScore g highScores))
  = Some (maxOf newScore (map hs_score highScores)).
Proof.
  unfold saveHighScore.
  set (e := mkHighScore newScore (level g) (blocksPlaced g)).
  pose proof (sortByScore_perm (highScores ++ [e])) as P.
  pose proof (sortByScore_desc (highScores ++ [e])) as D.
  destruct (sortByScore (highScores ++ [e])) as [|x rest] eqn:E.
  { apply Permutation_length in P. rewrite length_app in P.
    cbn in P. lia. }
  cbn [firstn loadGameStats option_map fst]. f_equal.
  destruct D as [Hx _].
  assert (Hx' : Forall (fun y => (hs_score y <= hs_score x)%Z) (firstn 9 rest)).
  { pose proof Hx as Hs. rewrite <- (firstn_skipn 9 rest) in Hs.
    apply Forall_app in Hs. exact (proj1 Hs). }
  rewrite maxOf_head by (rewrite Forall_map; exact Hx').
  destruct (maxOf_bounds newScore (map hs_score highScores)) as (A & B & C).
  apply Z.le_antisymm.
  - assert (I1 : In x (highScores ++ [e])).
    { apply (Permutation_in x (Permutation_sym P)). left. reflexivity. }
    apply in_app_or in I1. destruct I1 as [I1|[I1|[]]].
    + rewrite Forall_map in B. rewrite Forall_forall in B. apply B. exact I1.
    + rewrite <- I1. exact A.
  - assert (M : exists y, In y (highScores ++ [e]) /\
                          hs_score y = maxOf newScore (map hs_score highScores)).
    { destruct C as [C|C].
      - exists e. split; [apply in_or_app; right; left; reflexivity|].
        rewrite <- C. reflexivity.
      - apply in_map_iff in C. destruct C as (y & Ey & Iy).
        exists y. split; [apply in_or_app; left; exact Iy|exact Ey]. }
    destruct M as (y & Iy & <-).
    apply (Permutation_in y P) in Iy. destruct Iy as [<-|Iy]; [lia|].
    rewrite Forall_forall in Hx. apply Hx. exact Iy.
Qed.

End StorageFacts.

(** ** The physics engine *)

Module PhysicsFacts.
Import Game Notions SessionNotions Physics.

Lemma reduce_top_is_last (cfg : Config) (rest : list Block) (first : Block) :
  0 < blockHeight cfg -> stackedOn cfg (first :: rest) ->
  Some (reduce (fun top block =>
                  if Qlt_bool (position_y block) (position_y top)
                  then block else top) first rest)
  = last (map Some (first :: rest)) None.
Proof.
  intro H. revert first. induction rest as [|x r IH]; intros first S.
  - reflexivity.
  - destruct S as [Hy S]. unfold reduce. cbn [fold_left].
    assert (L : Qlt_bool (position_y x) (position_y first) = true).
    { apply Qlt_bool_iff. lra. }
    rewrite L. exact (IH x S).
Qed.

Lemma reduce_bottom_is_first (cfg : Config) (rest : list Block)
  (first bottom : Block) :
  0 < blockHeight cfg -> stackedOn cfg (first :: rest) ->
  position_y first <= position_y bottom ->
  reduce (fun bottom block =>
            if Qlt_bool (position_y bottom) (position_y block)
            then block else bottom) bottom rest
  = bottom.
Proof.
  intro H. revert first. induction rest as [|x r IH]; intros first S Hb.
  - reflexivity.
  - destruct S as [Hy S]. unfold reduce. cbn [fold_left].
    assert (L : Qlt_bool (position_y bottom) (position_y x) = false).
    { apply Qlt_bool_false_iff. lra. }
    rewrite L. apply (IH x S). lra.
Qed.

(** On the tower of a reachable session with a positive block height, the
    engine aims at the block the game drops onto, the last one placed, and
    computes the overlap the game computes, so that its simulation reports
    a miss exactly when [dropBlock] does; the support base it finds is the
    base block. *)
Theorem engine_aims_at_top_rests_on_base (o : Oracle) (g : GameState)
  (cb top : Block) :
  Reachable g -> 0 < blockHeight (config g) -> Droppable g cb top ->
  let info := calculateTowerOverlap cb (tower g) in
  targetBlock info = Some top /\
  overlap info = calculateOverlap cb top /\
  (simulateBlockDrop g cb (tower g) = SimMissed
   <-> snd (dropBlock o g) = BlockMissed) /\
  exists base rest,
    tower g = base :: rest /\
    calculateSupportBase (tower g)
    = mkSupportBase (position_x base) (position_x base + width base)
                    (width base).
Proof.
  intros R H D info.
  pose proof (SessionFacts.Reachable_sound g R) as S.
  destruct (sound_base g S) as (base & rest & Et & _).
  pose proof (sound_stacked g S) as St. rewrite Et in St.
  assert (T : targetBlock info = Some top).
  { subst info. rewrite Et. cbn [calculateTowerOverlap targetBlock].
    rewrite (reduce_top_is_last (config g) rest base H St).
    rewrite <- Et. exact (drop_top g cb top D). }
  assert (O : overlap info = calculateOverlap cb top).
  { subst info. rewrite Et in *.
    cbn [calculateTowerOverlap targetBlock overlap] in *.
    injection T as ->. reflexivity. }
  split; [exact T|]. split; [exact O|]. split.
  - unfold simulateBlockDrop. fold info. rewrite O. split.
    + destruct (Qle_bool (calculateOverlap cb top) 0) eqn:E; [|discriminate].
      intros _. apply Qle_bool_iff in E.
      rewrite (GameFacts.dropBlock_miss o g cb top D E). reflexivity.
    + intro M.
      destruct (SessionFacts.dropBlock_missed_inv o g M)
        as (cb' & top' & [Hc _ Ht] & Hov & _).
      destruct D as [Hc' _ Ht'].
      assert (cb' = cb) by congruence. assert (top' = top) by congruence.
      subst. apply Qle_bool_iff in Hov. rewrite Hov. reflexivity.
  - exists base, rest. split; [exact Et|]. rewrite Et.
    cbn [calculateSupportBase].
    rewrite (reduce_bottom_is_first (config g) rest base base H St);
      [reflexivity|lra].
Qed.

Lemma engine_aims_at_top_rests_on_base_witness :
  exists cb,
    targetBlock (calculateTowerOverlap cb (tower lastLevelSession))
    = lastTowerBlock lastLevelSession.
Proof.
  destruct (currentBlock lastLevelSession) as [cb|] eqn:Hc;
    [|vm_compute in Hc; discriminate].
  destruct (lastTowerBlock lastLevelSession) as [top|] eqn:Ht;
    [|vm_compute in Ht; discriminate].
  assert (Hm : isMoving cb = true).
  { pose proof Hc as Hc'. vm_compute in Hc'. injection Hc' as <-.
    reflexivity. }
  assert (H : 0 < blockHeight (config lastLevelSession))
    by (vm_compute; reflexivity).
  exists cb.
  destruct (engine_aims_at_top_rests_on_base sampleOracle lastLevelSession
              cb top SessionFacts.reachable_lastLevelSession H
              (mkDroppable _ _ _ Hc Hm Ht)) as (A & _).
  exact A.
Defined.

Lemma Qhalf (a : Q) : a / 2 * 2 == a.
Proof. field. Qed.

Lemma effect_by_offset (c : EngineConfig) (x : Q) (sb : SupportBase) :
  let massOffset := Qabs (x - (base_left sb + base_width sb / 2)) in
  let maxOffset := base_width sb * stabilityThreshold c in
  let e := applyStabilityEffects (calculateStability c (Number x) sb) in
  (maxOffset < massOffset -> e = CollapseEffects) /\
  (maxOffset / 2 < massOffset -> massOffset <= maxOffset ->
   e = WarningEffects) /\
  (massOffset <= maxOffset / 2 -> e = NoEffects).
Proof.
  intros mo mx e. subst e.
  unfold applyStabilityEffects, calculateStability.
  cbn [isStable stability]. fold mo. fold mx.
  pose proof (Qabs_nonneg (x - (base_left sb + base_width sb / 2))) as P.
  fold mo in P.
  pose proof (Qhalf mx) as Hh.
  assert (K : forall q, Qle_bool mo mx = true -> ~ mx == 0 ->
              below (match divide mo mx with
                     | Number q => Number (Qmax 0 (1 - q))
                     | PlusInfinity => Number 0
                     | MinusInfinity => PlusInfinity
                     | NotANumber => NotANumber
                     end) 0.5 = q ->
              (q = true <-> mx / 2 < mo)).
  { intros q Hs Hz. apply Qle_bool_iff in Hs. unfold divide.
    destruct (Qeq_bool mx 0) eqn:Ez; [apply Qeq_bool_iff in Ez; contradiction|].
    cbn [below]. intros <-. rewrite Qlt_bool_iff.
    assert (Hp : 0 < mx) by lra.
    split; intro A.
    - destruct (Qlt_le_dec (mx / 2) mo) as [|B]; [assumption|exfalso].
      assert (mo / mx <= 1 # 2).
      { apply Qle_shift_div_r; [exact Hp|]. lra. }
      assert (Qmax 0 (1 - mo / mx) == 1 - mo / mx) by (apply Q.max_r; lra).
      lra.
    - assert (1 # 2 < mo / mx).
      { apply Qlt_shift_div_l; [exact Hp|]. lra. }
      apply Q.max_lub_lt; lra. }
  split; [|split].
  - intro A. apply Qle_bool_false_iff in A. rewrite A. reflexivity.
  - intros A B. pose proof B as B'. apply Qle_bool_iff in B'. rewrite B'.
    cbn [negb].
    assert (Hz : ~ mx == 0) by lra.
    destruct (K _ B' Hz eq_refl) as [_ E]. rewrite (E A). reflexivity.
  - intro A. assert (B : mo <= mx) by lra.
    pose proof B as B'. apply Qle_bool_iff in B'. rewrite B'. cbn [negb].
    destruct (Qeq_dec mx 0) as [Hz|Hz].
    + unfold divide. apply Qeq_bool_iff in Hz. rewrite Hz.
      assert (E1 : Qlt_bool 0 mo = false) by (apply Qlt_bool_false_iff;
        apply Qeq_bool_iff in Hz; lra).
      assert (E2 : Qlt_bool mo 0 = false) by (apply Qlt_bool_false_iff; lra).
      rewrite E1, E2. reflexivity.
    + destruct (K _ B' Hz eq_refl) as [E _].
      destruct (below _ 0.5); [|reflexivity].
      specialize (E eq_refl). lra.
Qed.

(** Which effects the engine applies is decided by the distance of the
    center of mass from the center of the support base alone (in exact
    arithmetic): collapse beyond [maxOffset = width * stabilityThreshold],
    wobble beyond half of it, nothing up to half of it; a center of mass
    that is not a number (a tower without mass) always means collapse. *)
Theorem stability_effects_by_offset (c : EngineConfig) (x : Q)
  (sb : SupportBase) :
  let massOffset := Qabs (x - (base_left sb + base_width sb / 2)) in
  let maxOffset := base_width sb * stabilityThreshold c in
  let e := applyStabilityEffects (calculateStability c (Number x) sb) in
  (e = CollapseEffects <-> maxOffset < massOffset) /\
  (e = WarningEffects <->
   maxOffset / 2 < massOffset /\ massOffset <= maxOffset) /\
  (e = NoEffects <-> massOffset <= maxOffset / 2) /\
  applyStabilityEffects (calculateStability c PlusInfinity sb)
  = CollapseEffects /\
  applyStabilityEffects (calculateStability c MinusInfinity sb)
  = CollapseEffects /\
  applyStabilityEffects (calculateStability c NotANumber sb)
  = CollapseEffects.
Proof.
  intros mo mx e.
  destruct (effect_by_offset c x sb) as (A & B & C).
  fold mo in A, B, C. fold mx in A, B, C. fold e in A, B, C.
  pose proof (Qhalf mx) as Hh.
  pose proof (Qabs_nonneg (x - (base_left sb + base_width sb / 2))) as P.
  fold mo in P.
  assert (E : (e = CollapseEffects /\ mx < mo) \/
              (e = WarningEffects /\ mx / 2 < mo /\ mo <= mx) \/
              (e = NoEffects /\ mo <= mx / 2)).
  { destruct (Qlt_le_dec mx mo) as [H1|H1]; [left; auto|right].
    destruct (Qlt_le_dec (mx / 2) mo) as [H2|H2]; [left; auto|right; auto]. }
  clearbody e. clear A B C.
  destruct E as [[-> H]|[[-> [H1 H2]]|[-> H]]];
    repeat match goal with
           | |- _ /\ _ => split
           | |- _ <-> _ => split
           | |- _ -> _ => intro
           | H : _ /\ _ |- _ => destruct H
           end;
    try reflexivity; try congruence; try lra; exfalso; lra.
Qed.

Lemma massSums_within (cfg : Config) (lo hi : Q) (blocks : list Block) :
  0 < blockHeight cfg ->
  Forall (fun b => 0 < width b /\
                   lo <= position_x b + width b / 2 <= hi) blocks ->
  forall tm wx wy,
    0 <= tm -> lo * tm <= wx -> wx <= hi * tm ->
    let sums :=
      fold_left
        (fun sums block =>
           let '(totalMass, weightedX, weightedY) := sums in
           let mass := width block * blockHeight cfg in
           let centerX := position_x block + width block / 2 in
           let centerY := position_y block + blockHeight cfg / 2 in
           (totalMass + mass, weightedX + centerX * mass,
            weightedY + centerY * mass))
        blocks (tm, wx, wy) in
    tm <= fst (fst sums) /\
    (blocks <> [] -> tm < fst (fst sums)) /\
    lo * fst (fst sums) <= snd (fst sums) /\
    snd (fst sums) <= hi * fst (fst sums).
Proof.
  intros H F. induction F as [|b l [Hw [Hl Hh]] _ IH]; intros tm wx wy T L U.
  - cbn. repeat split; try lra. intro A. contradiction.
  - cbv zeta in IH |- *. cbn [fold_left].
    assert (M : 0 < width b * blockHeight cfg) by nra.
    revert Hl Hh. generalize (position_x b + width b / 2) as cx.
    revert M. generalize (width b * blockHeight cfg) as m.
    generalize (position_y b + blockHeight cfg / 2) as cy.
    intros cy m M cx Hl Hh.
    assert (L' : lo * m <= cx * m) by (apply Qmult_le_compat_r; lra).
    assert (U' : cx * m <= hi * m) by (apply Qmult_le_compat_r; lra).
    destruct (IH (tm + m) (wx + cx * m) (wy + cy * m))
      as (A & _ & B & C); [lra|lra|lra|].
    split; [lra|]. split; [intros _; lra|]. split; assumption.
Qed.

(** A tower of blocks of positive width whose centers all lie within half
    of [maxOffset] of the center of the support base shows no effect: its
    center of mass lies within the same distance. *)
Theorem centered_tower_shows_no_effect (c : EngineConfig) (cfg : Config)
  (blocks : list Block) :
  0 < blockHeight cfg ->
  let sb := calculateSupportBase (filter isPlaced blocks) in
  let supportCenter := base_left sb + base_width sb / 2 in
  Forall (fun b =>
            isPlaced b = true ->
            0 < width b /\
            Qabs (position_x b + width b / 2 - supportCenter)
            <= base_width sb * stabilityThreshold c / 2)
         blocks ->
  updateTowerStability c cfg blocks = NoEffects.
Proof.
  intros H sb sc F. unfold updateTowerStability. fold sb.
  destruct (length (filter isPlaced blocks) <? 2)%nat eqn:E; [reflexivity|].
  set (r := base_width sb * stabilityThreshold c / 2) in *.
  assert (F' : Forall (fun b => 0 < width b /\
                        sc - r <= position_x b + width b / 2 <= sc + r)
                      (filter isPlaced blocks)).
  { apply Forall_forall. intros b Hb. apply filter_In in Hb.
    destruct Hb as [Hb Hp]. rewrite Forall_forall in F.
    destruct (F b Hb Hp) as [Hw Hc]. split; [exact Hw|].
    apply Qabs_Qle_condition in Hc. lra. }
  assert (N : filter isPlaced blocks <> []).
  { intro A. rewrite A in E. discriminate. }
  pose proof (massSums_within cfg (sc - r) (sc + r) (filter isPlaced blocks)
                H F' 0 0 0) as M.
  cbv zeta in M. fold (massSums cfg (filter isPlaced blocks)) in M.
  unfold calculateCenterOfMass.
  destruct (massSums cfg (filter isPlaced blocks)) as [[tm wx] wy].
  cbn [fst snd] in M |- *.
  destruct M as (_ & T & L & U); [lra|lra|lra|].
  specialize (T N).
  unfold divide.
  destruct (Qeq_bool tm 0) eqn:Ez; [apply Qeq_bool_iff in Ez; lra|].
  destruct (effect_by_offset c (wx / tm) sb) as (_ & _ & C).
  apply C. fold sc. change (base_width sb * stabilityThreshold c / 2) with r.
  apply Qabs_Qle_condition.
  split.
  - assert (sc - r <= wx / tm).
    { apply Qle_shift_div_l; [exact T|exact L]. }
    lra.
  - assert (wx / tm <= sc + r).
    { apply Qle_shift_div_r; [exact T|exact U]. }
    lra.
Qed.

Lemma centered_tower_shows_no_effect_witness :
  updateTowerStability defaultEngineConfig defaultConfig
    [place (newBlock 0 150 325 770 0 false);
     place (newBlock 1 100 340 740 0 false);
     place (newBlock 2 100 370 710 0 false)]
  = NoEffects.
Proof.
  apply (centered_tower_shows_no_effect defaultEngineConfig defaultConfig).
  - reflexivity.
  - apply Forall_cons; [|apply Forall_cons; [|apply Forall_cons;
      [|apply Forall_nil]]];
      intros _; (split; [vm_compute; reflexivity|vm_compute; discriminate]).
Defined.





End PhysicsFacts.

(** ** Clamping *)

Module HelperFacts.
Import Helpers.

(** [Helpers.clamp] with bounds in order returns a value within the bounds,
    returns the value itself when it is within them, is idempotent and
    monotone; the volume setters of the audio manager, which nest min and
    max the other way round, store [clamp(volume, 0, 1)]. *)
Theorem clamp_stays_within_bounds (value value' min max : Q) :
  min <= max ->
  (min <= clamp value min max /\ clamp value min max <= max) /\
  (min <= value -> value <= max -> clamp value min max == value) /\
  clamp (clamp value min max) min max == clamp value min max /\
  (value <= value' -> clamp value min max <= clamp value' min max) /\
  setVolume value == clamp value 0 1.
Proof.
  intro H. unfold clamp, setVolume.
  pose proof (Q.max_spec value min) as M1.
  pose proof (Q.min_spec (Qmax value min) max) as C1.
  repeat split.
  - destruct M1 as [[? ?]|[? ?]], C1 as [[? ?]|[? ?]]; lra.
  - destruct M1 as [[? ?]|[? ?]], C1 as [[? ?]|[? ?]]; lra.
  - intros. destruct M1 as [[? ?]|[? ?]], C1 as [[? ?]|[? ?]]; lra.
  - pose proof (Q.max_spec (Qmin (Qmax value min) max) min) as M2.
    pose proof (Q.min_spec (Qmax (Qmin (Qmax value min) max) min) max) as C2.
    destruct M1 as [[? ?]|[? ?]], C1 as [[? ?]|[? ?]],
             M2 as [[? ?]|[? ?]], C2 as [[? ?]|[? ?]]; lra.
  - intro L.
    pose proof (Q.max_spec value' min) as M2.
    pose proof (Q.min_spec (Qmax value' min) max) as C2.
    destruct M1 as [[? ?]|[? ?]], C1 as [[? ?]|[? ?]],
             M2 as [[? ?]|[? ?]], C2 as [[? ?]|[? ?]]; lra.
  - clear M1 C1.
    pose proof (Q.min_spec 1 value) as M1.
    pose proof (Q.max_spec 0 (Qmin 1 value)) as C1.
    pose proof (Q.max_spec value 0) as M2.
    pose proof (Q.min_spec (Qmax value 0) 1) as C2.
    destruct M1 as [[? ?]|[? ?]], C1 as [[? ?]|[? ?]],
             M2 as [[? ?]|[? ?]], C2 as [[? ?]|[? ?]]; lra.
Qed.

Lemma clamp_stays_within_bounds_witness :
  0 <= clamp 1.7 0 1 /\ clamp 1.7 0 1 <= 1.
Proof.
  apply (clamp_stays_within_bounds 1.7 2 0 1). vm_compute. discriminate.
Defined.

End HelperFacts.
